(** * Board engine of the Minesweeper game (src/logic/gameLogic.ts)

    A shallow embedding of the board-state engine and the verification of
    its specification.

    - Boards are JavaScript arrays of arrays of cell objects, handed around
      by reference.  The embedding keeps a store of board values addressed
      by reference, so that "returns the same reference" and "does not
      modify its input" are statements about the store.  Every board the
      engine builds is a copy down to the cells
      ([board.map(row => row.map(cell => ({ ...cell })))]): two boards never
      share a row or a cell, and one entry of the store per board is enough.
    - Property access on [undefined] raises a [TypeError]; the embedding
      keeps that outcome apart from a returned value.
    - Coordinates, counts and lengths are integers ([Z]); the numbers of
      [Math.random] are rationals, and the product and the floor taken of
      them are exact.
    - The recursion of [revealCell] is embedded with fuel; the outcome
      [OutOfFuel] is that of too little fuel, and is shown not to occur. *)

From Stdlib Require Import QArith Qround.
From stdpp Require Import base decidable option numbers list gmap sets.

Local Open Scope Z_scope.

(** ** Data model (src/types/index.ts) *)

(** [type CellContent = 'mine' | number] *)
Inductive CellContent : Type :=
  | mine
  | num (n : Z).

Record CellState : Type := mkCell {
  content : CellContent;
  isRevealed : bool;
  isFlagged : bool;
}.

(** [type Board = CellState[][]]: nothing in the type makes the rows
    equally long. *)
Abbreviation Board := (list (list CellState)).

Record GameConfig : Type := mkConfig {
  rows : Z;
  cols : Z;
  mineCount : Z;
}.

Record Position : Type := mkPos {
  row : Z;
  col : Z;
}.

Global Instance CellContent_eq_dec : EqDecision CellContent.
Proof. solve_decision. Defined.
Global Instance CellState_eq_dec : EqDecision CellState.
Proof. solve_decision. Defined.
Global Instance Position_eq_dec : EqDecision Position.
Proof. solve_decision. Defined.
Global Instance CellState_inhabited : Inhabited CellState :=
  populate (mkCell (num 0) false false).
Global Instance Position_inhabited : Inhabited Position :=
  populate (mkPos 0 0).

(** ** The store, the random source and the monad of the engine *)

(** A reference to a board is its index in the store. *)
Abbreviation Ref := nat (only parsing).

(** The world a call runs in: the boards allocated so far and what is left
    of the process-wide random source ([entropy w k] is the value the
    [k]-th next call of [Math.random] returns). *)
Record World : Type := mkWorld {
  heap : list Board;
  entropy : nat → Q;
}.

(** [Math.random] returns a number in the interval [0, 1). *)
Definition fair (w : World) : Prop :=
  ∀ k, (0 <= entropy w k)%Q ∧ (entropy w k < 1)%Q.

(** How a call ends. *)
Inductive outcome (A : Type) : Type :=
  | Ret (a : A)
  | TypeError
  | OutOfFuel.
Global Arguments Ret {A} a.
Global Arguments TypeError {A}.
Global Arguments OutOfFuel {A}.

(** Computations of the engine: state passing over the world, with the
    outcomes above. *)
Definition M (A : Type) : Type := World → outcome (A * World).

Global Instance M_ret : MRet M := λ A a w, Ret (a, w).
Global Instance M_bind : MBind M := λ A B f m w,
  match m w with
  | Ret (a, w') => f a w'
  | TypeError => TypeError
  | OutOfFuel => OutOfFuel
  end.

Definition throw {A} : M A := λ _, TypeError.
Definition out_of_fuel {A} : M A := λ _, OutOfFuel.

Definition set_heap (w : World) (h : list Board) : World :=
  mkWorld h (entropy w).

(** Reading the array a reference points to.  A run only holds references
    it was given or has allocated; for any other number the embedding
    answers [TypeError]. *)
Definition deref (b : Ref) : M Board := λ w,
  match heap w !! b with
  | Some B => Ret (B, w)
  | None => TypeError
  end.

(** A new array: the next free reference. *)
Definition alloc (B : Board) : M Ref := λ w,
  Ret (length (heap w), set_heap w (heap w ++ [B])).

(** [a[i]] for a number [i]: [undefined] outside the array. *)
Definition idx {A} (a : list A) (i : Z) : option A :=
  if decide (0 ≤ i) then a !! Z.to_nat i else None.

(** [board[row][col]]; every use in the engine reads a property of the
    result at once, so a missing row and a missing cell are the same
    [TypeError]. *)
Definition cellAt (B : Board) (r c : Z) : option CellState :=
  rw ← idx B r; idx rw c.

(** Property access: [undefined.p] raises. *)
Definition access {A} (o : option A) : M A :=
  match o with
  | Some x => mret x
  | None => throw
  end.

(** The array [a] with [x] at index [i], for an index inside the array. *)
Definition upd {A} (a : list A) (i : Z) (x : A) : list A :=
  if decide (0 ≤ i) then <[Z.to_nat i := x]> a else a.

(** The board [B] with [cell] at row [r], column [c]. *)
Definition setCell (B : Board) (r c : Z) (cell : CellState) : Board :=
  match idx B r with
  | Some rw => upd B r (upd rw c cell)
  | None => B
  end.

(** [b[row][col].p = v]: the cell object of board [b] is updated in place. *)
Definition assign (b : Ref) (r c : Z) (f : CellState → CellState) : M unit := λ w,
  match heap w !! b with
  | Some B =>
      match cellAt B r c with
      | Some cell => Ret (tt, set_heap w (<[b := setCell B r c (f cell)]> (heap w)))
      | None => TypeError
      end
  | None => TypeError
  end.

(** [for (const x of xs) acc = body(acc, x)] *)
Fixpoint foldM {A B} (body : B → A → M B) (acc : B) (xs : list A) : M B :=
  match xs with
  | [] => mret acc
  | x :: xs' => acc' ← body acc x; foldM body acc' xs'
  end.

(** [for (const x of xs) body(x)] *)
Definition forM_ {A} (xs : list A) (body : A → M unit) : M unit :=
  foldM (λ _ x, body x) tt xs.

(** [board.map(row => row.map(cell => ({ ...cell })))] *)
Definition copyBoard (B : Board) : Board :=
  map (map (λ cell, mkCell (content cell) (isRevealed cell) (isFlagged cell))) B.

(** ** Geometry *)

Definition createEmptyCell : CellState := mkCell (num 0) false false.

(** [Array.from({ length: n }, f)]: a negative length counts as 0. *)
Definition createEmptyBoard (rows cols : Z) : M Ref :=
  alloc (replicate (Z.to_nat rows) (replicate (Z.to_nat cols) createEmptyCell)).

Definition isValidPosition (r c rows cols : Z) : bool :=
  (0 <=? r) && (r <? rows) && (0 <=? c) && (c <? cols).

Definition directions : list (Z * Z) :=
  [(-1, -1); (-1, 0); (-1, 1);
   (0, -1);           (0, 1);
   (1, -1);  (1, 0);  (1, 1)].

Definition getNeighbors (r c rows cols : Z) : list Position :=
  flat_map (λ '(dr, dc),
    let newRow := r + dr in
    let newCol := c + dc in
    if isValidPosition newRow newCol rows cols
    then [mkPos newRow newCol] else []) directions.

(** ** Mine placement *)

(** The key [`${row},${col}`] of a position in the set of excluded cells;
    the text is one-to-one on pairs of integers, the pair stands for it. *)
Definition key (p : Position) : Z * Z := (row p, col p).

(** [Set.prototype.add] *)
Definition add (k : Z * Z) (s : gset (Z * Z)) : gset (Z * Z) := {[k]} ∪ s.

(** One call of [Math.random()]: the head of the random source is used up. *)
Definition Math_random : M Q := λ w,
  Ret (entropy w 0%nat, mkWorld (heap w) (λ k, entropy w (S k))).

(** [[a[i], a[j]] = [a[j], a[i]]], for indices inside the array: the draws
    of a fair source are. *)
Definition swap {A} `{!Inhabited A} (a : list A) (i j : nat) : list A :=
  <[j := a !!! i]> (<[i := a !!! j]> a).

(** The Fisher-Yates loop [for (let i = ...; i > 0; i--)], from index [i]. *)
Fixpoint shuffle (i : nat) (a : list Position) : M (list Position) :=
  match i with
  | O => mret a
  | S i' =>
      u ← Math_random;
      let j := Qfloor (u * inject_Z (Z.of_nat i + 1)) in
      shuffle i' (swap a i (Z.to_nat j))
  end.

(** [a.slice(0, end)] with the relative-index rule of
    [Array.prototype.slice]: a negative [end] counts from the back. *)
Definition slice0 {A} (a : list A) (end_ : Z) : list A :=
  let len := Z.of_nat (length a) in
  let final := if end_ <? 0 then Z.max (len + end_) 0 else Z.min end_ len in
  take (Z.to_nat final) a.

Definition generateMinePositions (rows cols mineCount : Z)
    (excludePosition : option Position) : M (list Position) :=
  let totalCells := rows * cols in
  let excludedSet : gset (Z * Z) :=
    match excludePosition with
    | Some p =>
        let neighbors := getNeighbors (row p) (col p) rows cols in
        foldl (λ s neighbor, add (key neighbor) s) (add (key p) ∅) neighbors
    | None => ∅
    end in
  let availableCells := totalCells - Z.of_nat (size excludedSet) in
  let actualMineCount := Z.min mineCount availableCells in
  let allPositions :=
    flat_map (λ r,
      flat_map (λ c,
        if decide ((r, c) ∈ excludedSet) then [] else [mkPos r c])
        (seqZ 0 cols))
      (seqZ 0 rows) in
  shuffled ← shuffle (length allPositions - 1)%nat allPositions;
  mret (slice0 shuffled actualMineCount).

Definition placeMines (board : Ref) (minePositions : list Position) : M Ref :=
  B ← deref board;
  newBoard ← alloc (copyBoard B);
  forM_ minePositions (λ p,
    assign newBoard (row p) (col p)
      (λ cell, mkCell mine (isRevealed cell) (isFlagged cell)));;
  mret newBoard.

(** ** Board construction *)

(** Functions that only read their board are given on the array value the
    reference points to; [None] is the [TypeError] of reading a property
    of a missing cell. *)
Definition countAdjacentMines (B : Board) (r c : Z) : option Z :=
  let rows := length B in
  if decide (rows = 0%nat) then Some 0 else
  let cols := length (B !!! 0%nat) in
  if decide (cols = 0%nat) then Some 0 else
  if negb (isValidPosition r c (Z.of_nat rows) (Z.of_nat cols)) then Some 0 else
  let neighbors := getNeighbors r c (Z.of_nat rows) (Z.of_nat cols) in
  hits ← mapM (λ n, cell ← cellAt B (row n) (col n);
                    Some (bool_decide (content cell = mine))) neighbors;
  Some (Z.of_nat (length (filter (λ hit, hit = true) hits))).

(** Calling a reading function on a reference. *)
Definition reads {A} (board : Ref) (f : Board → option A) : M A :=
  B ← deref board; access (f B).

Definition calculateNumbers (board : Ref) : M Ref :=
  B ← deref board;
  let rows := length B in
  if decide (rows = 0%nat) then alloc [] else
  let cols := length (B !!! 0%nat) in
  if decide (cols = 0%nat) then alloc (map (λ _, []) B) else
  newBoard ← alloc (copyBoard B);
  forM_ (seq 0 rows) (λ r,
    forM_ (seq 0 cols) (λ c,
      cell ← reads newBoard (λ NB, cellAt NB (Z.of_nat r) (Z.of_nat c));
      if decide (content cell ≠ mine) then
        n ← reads board (λ B, countAdjacentMines B (Z.of_nat r) (Z.of_nat c));
        assign newBoard (Z.of_nat r) (Z.of_nat c)
          (λ cell, mkCell (num n) (isRevealed cell) (isFlagged cell))
      else mret tt));;
  mret newBoard.

Definition createBoard (config : GameConfig)
    (excludePosition : option Position) : M Ref :=
  let '(mkConfig rows cols mineCount) := config in
  board ← createEmptyBoard rows cols;
  minePositions ← generateMinePositions rows cols mineCount excludePosition;
  board ← placeMines board minePositions;
  board ← calculateNumbers board;
  mret board.

Definition createBoardWithMines (rows cols : Z)
    (minePositions : list Position) : M Ref :=
  board ← createEmptyBoard rows cols;
  board ← placeMines board minePositions;
  board ← calculateNumbers board;
  mret board.

(** ** Game state transitions *)

Definition checkGameLost (B : Board) : bool :=
  existsb (λ rw,
    existsb (λ cell, bool_decide (content cell = mine) && isRevealed cell) rw) B.

Definition checkGameWon (B : Board) : bool :=
  if existsb (λ rw,
       existsb (λ cell,
         bool_decide (content cell ≠ mine) && negb (isRevealed cell)) rw) B
  then false
  else bool_decide (0 < length B)%nat && bool_decide (0 < length (B !!! 0%nat))%nat.

(** [content > 0]: never true of the mine marker. *)
Definition positive (k : CellContent) : bool :=
  match k with
  | mine => false
  | num n => 0 <? n
  end.

(** The number of cells that are not revealed bounds the depth of the
    recursion of [revealCell]; it is the fuel of its embedding. *)
Definition hiddenCells (B : Board) : nat :=
  length (filter (λ cell, isRevealed cell = false) (concat B)).

Fixpoint revealCell_fuel (fuel : nat) (board : Ref) (r c : Z) : M Ref :=
  match fuel with
  | O => out_of_fuel
  | S fuel' =>
      B ← deref board;
      let rows := length B in
      if decide (rows = 0%nat) then mret board else
      let cols := length (B !!! 0%nat) in
      if decide (cols = 0%nat) then mret board else
      if negb (isValidPosition r c (Z.of_nat rows) (Z.of_nat cols))
      then mret board else
      cell ← access (cellAt B r c);
      if isFlagged cell || isRevealed cell then mret board else
      newBoard ← alloc (copyBoard B);
      assign newBoard r c (λ cell, mkCell (content cell) true (isFlagged cell));;
      cell' ← reads newBoard (λ NB, cellAt NB r c);
      if bool_decide (content cell' = mine) || positive (content cell')
      then mret newBoard else
      let neighbors := getNeighbors r c (Z.of_nat rows) (Z.of_nat cols) in
      foldM (λ resultBoard neighbor,
               revealCell_fuel fuel' resultBoard (row neighbor) (col neighbor))
            newBoard neighbors
  end.

Definition revealCell (board : Ref) (r c : Z) : M Ref :=
  B ← deref board;
  revealCell_fuel (S (hiddenCells B)) board r c.

Definition revealAllMines (board : Ref) : M Ref :=
  B ← deref board;
  alloc (map (λ rw,
    map (λ cell,
      mkCell (content cell)
             (if decide (content cell = mine) then true else isRevealed cell)
             (isFlagged cell)) rw) B).

Definition toggleFlag (board : Ref) (r c : Z) : M Ref :=
  B ← deref board;
  let rows := length B in
  if decide (rows = 0%nat) then mret board else
  let cols := length (B !!! 0%nat) in
  if decide (cols = 0%nat) then mret board else
  if negb (isValidPosition r c (Z.of_nat rows) (Z.of_nat cols))
  then mret board else
  cell ← access (cellAt B r c);
  if isRevealed cell then mret board else
  newBoard ← alloc (copyBoard B);
  assign newBoard r c
    (λ cell, mkCell (content cell) (isRevealed cell) (negb (isFlagged cell)));;
  mret newBoard.

Definition countFlags (B : Board) : nat :=
  length (filter (λ cell, isFlagged cell = true) (concat B)).

(** * Notions of the specification and of the proofs *)

(** ** Win detection *)

(** Two cells that differ at most in the reveal and flag state of a mine. *)
Definition same_up_to_mines (x y : CellState) : Prop :=
  content y = content x ∧ (content x ≠ mine → y = x).

Definition unwon (cell : CellState) : bool :=
  bool_decide (content cell ≠ mine) && negb (isRevealed cell).

(** ** Arrays of cells *)

(** A board is a grid when all its rows are as long as the first. *)
Definition rectangular (B : Board) : Prop :=
  Forall (λ rw, length rw = length (B !!! 0%nat)) B.

(** ** The reveal on board values *)

(** What a reveal may do to one cell: nothing, or reveal it when it was
    neither revealed nor flagged. *)
Definition reveal_step (x y : CellState) : Prop :=
  y = x ∨
  (isRevealed x = false ∧ isFlagged x = false ∧ y = mkCell (content x) true false).

Definition grows (B B' : Board) : Prop := Forall2 (Forall2 reveal_step) B B'.

(** The guards of [revealCell] that hand the board back. *)
Definition stays (B : Board) (r c : Z) : bool :=
  bool_decide (length B = 0%nat)
  || bool_decide (length (B !!! 0%nat) = 0%nat)
  || negb (isValidPosition r c (Z.of_nat (length B)) (Z.of_nat (length (B !!! 0%nat))))
  || match cellAt B r c with
     | Some cell => isFlagged cell || isRevealed cell
     | None => false
     end.

Fixpoint foldV {A} (body : Board → A → outcome Board) (acc : Board)
    (xs : list A) : outcome Board :=
  match xs with
  | [] => Ret acc
  | x :: xs' =>
      match body acc x with
      | Ret acc' => foldV body acc' xs'
      | TypeError => TypeError
      | OutOfFuel => OutOfFuel
      end
  end.

(** The board [revealCell] returns, as a function of the board it is given. *)
Fixpoint revealV (fuel : nat) (B : Board) (r c : Z) : outcome Board :=
  match fuel with
  | O => OutOfFuel
  | S fuel' =>
      if stays B r c then Ret B else
      match cellAt B r c with
      | None => TypeError
      | Some cell =>
          let NB := setCell B r c (mkCell (content cell) true (isFlagged cell)) in
          if bool_decide (content cell = mine) || positive (content cell)
          then Ret NB
          else foldV (λ A n, revealV fuel' A (row n) (col n)) NB
                 (getNeighbors r c (Z.of_nat (length B))
                    (Z.of_nat (length (B !!! 0%nat))))
      end
  end.

(** ** The reveal in the store *)

(** How a run in the store follows the function on values: the result is
    found at the returned reference, the store has only grown, and the
    reference is fresh or the one that went in. *)
Definition refines (res : outcome Board) (run : outcome (Ref * World))
    (w : World) (P : Ref → list Board → Prop) : Prop :=
  match res with
  | Ret B' => ∃ b' hs, run = Ret (b', set_heap w (heap w ++ hs))
                       ∧ (heap w ++ hs) !! b' = Some B' ∧ P b' hs
  | TypeError => run = TypeError
  | OutOfFuel => run = OutOfFuel
  end.

(** What a reveal keeps of a cell. *)
Definition reveal_frame (x y : CellState) : Prop :=
  content y = content x ∧ isFlagged y = isFlagged x
  ∧ (isRevealed x = true → isRevealed y = true).

Definition revealedCells (B : Board) : nat :=
  length (filter (λ cell, isRevealed cell = true) (concat B)).

(** ** Revealing the mines, toggling a flag *)

Definition revealMine (cell : CellState) : CellState :=
  mkCell (content cell)
         (if decide (content cell = mine) then true else isRevealed cell)
         (isFlagged cell).

(** What [revealAllMines] does to a cell. *)
Definition mines_shown (x y : CellState) : Prop :=
  content y = content x ∧ isFlagged y = isFlagged x
  ∧ (content x = mine → isRevealed y = true)
  ∧ (content x ≠ mine → isRevealed y = isRevealed x).

(** ** Flagged and revealed at once *)

Definition exclusive (cell : CellState) : Prop :=
  ¬ (isFlagged cell = true ∧ isRevealed cell = true).

Definition exclusiveBoard (B : Board) : Prop := Forall (Forall exclusive) B.

(** ** Adjacency numbers *)

(** The cell [calculateNumbers] leaves at a position of a grid. *)
Definition numbered (B : Board) (r c : Z) (cell : CellState) : CellState :=
  if decide (content cell = mine) then cell
  else mkCell (num (default 0 (countAdjacentMines B r c)))
              (isRevealed cell) (isFlagged cell).

Definition same_shape (B B' : Board) : Prop :=
  Forall2 (λ rw rw' : list CellState, length rw' = length rw) B B'.

(** Row-major order on positions: before [(r0, c0)]. *)
Definition before (r0 c0 r c : Z) : Prop := r < r0 ∨ (r = r0 ∧ c < c0).

Global Instance before_dec r0 c0 r c : Decision (before r0 c0 r c).
Proof. unfold before. apply _. Defined.

(** The new board while [calculateNumbers] is at position [(r0, c0)]. *)
Definition numbering (B : Board) (r0 c0 : Z) (NB : Board) : Prop :=
  same_shape B NB
  ∧ ∀ r c cell, cellAt B r c = Some cell →
      cellAt NB r c
      = Some (if decide (before r0 c0 r c) then numbered B r c cell else cell).

(** ** Mine placement *)

(** The exclusion set of the specification: the excluded position and its
    valid neighbors, nothing when no position is excluded. *)
Definition exclusionSet (excludePosition : option Position) (rows cols : Z)
    : gset (Z * Z) :=
  match excludePosition with
  | Some p => {[key p]} ∪ list_to_set (key <$> getNeighbors (row p) (col p) rows cols)
  | None => ∅
  end.

(** The positions [generateMinePositions] collects before it shuffles. *)
Definition freeCells (excluded : gset (Z * Z)) (rows cols : Z) : list Position :=
  flat_map (λ r,
    flat_map (λ c, if decide ((r, c) ∈ excluded) then [] else [mkPos r c])
      (seqZ 0 cols))
    (seqZ 0 rows).

Global Instance key_inj : Inj (=) (=) key.
Proof. intros [r c] [r' c'] [= -> ->]. reflexivity. Qed.

(** The cells of the grid, as a set of keys. *)
Definition gridSet (rows cols : Z) : gset (Z * Z) :=
  list_to_set (key <$> freeCells ∅ rows cols).

(** ** Placing the mines *)

Definition mineCells (B : Board) : nat :=
  length (filter (λ cell, content cell = mine) (concat B)).

(** The new board of [placeMines] once the positions [qs] are done. *)
Definition placed (B : Board) (qs : list Position) (PB : Board) : Prop :=
  same_shape B PB
  ∧ ∀ r c cell, cellAt B r c = Some cell →
      cellAt PB r c
      = Some (if decide (mkPos r c ∈ qs)
              then mkCell mine (isRevealed cell) (isFlagged cell) else cell).

(** ** Flood fill *)

Definition cellOf (B : Board) (q : Position) : option CellState :=
  cellAt B (row q) (col q).

Definition neighborsIn (B : Board) (q : Position) : list Position :=
  getNeighbors (row q) (col q) (Z.of_nat (length B)) (Z.of_nat (length (B !!! 0%nat))).

Definition validIn (B : Board) (q : Position) : Prop :=
  isValidPosition (row q) (col q) (Z.of_nat (length B))
    (Z.of_nat (length (B !!! 0%nat))) = true.

Definition revealedAt (B : Board) (q : Position) : Prop :=
  ∃ cell, cellOf B q = Some cell ∧ isRevealed cell = true.

(** A cell a reveal goes into: neither revealed nor flagged. *)
Definition openAt (B : Board) (q : Position) : Prop :=
  ∃ cell, cellOf B q = Some cell ∧ isRevealed cell = false ∧ isFlagged cell = false.

(** A cell a reveal goes on from: no mine, no positive count. *)
Definition spreadsAt (B : Board) (q : Position) : Prop :=
  ∃ cell, cellOf B q = Some cell
          ∧ bool_decide (content cell = mine) || positive (content cell) = false.

(** The cells a reveal at [p] gets to: along neighbors, through open cells,
    going on from the cells that spread. *)
Inductive reach (B : Board) (p : Position) : Position → Prop :=
  | reach_here : validIn B p → openAt B p → reach B p p
  | reach_step q q' :
      reach B p q → spreadsAt B q → q' ∈ neighborsIn B q → openAt B q' →
      reach B p q'.

(** ** Zero regions *)

Definition zeroCell (B : Board) (q : Position) : Prop :=
  ∃ cell, cellOf B q = Some cell ∧ content cell = num 0.

Definition hiddenAt (B : Board) (q : Position) : Prop :=
  ∃ cell, cellOf B q = Some cell ∧ isRevealed cell = false.

Definition numberedCell (B : Board) (q : Position) : Prop :=
  ∃ cell n, cellOf B q = Some cell ∧ content cell = num n ∧ 0 < n.

(** The cells joined to [p] by a chain of neighbors that all satisfy [P]. *)
Inductive connected (B : Board) (P : Position → Prop) (p : Position)
    : Position → Prop :=
  | connected_here : P p → connected B P p p
  | connected_step q q' :
      connected B P p q → q' ∈ neighborsIn B q → P q' → connected B P p q'.

(** The connected region of zero cells containing [p]. *)
Definition zeroRegion (B : Board) (p : Position) : Position → Prop :=
  connected B (zeroCell B) p.

(** The same among the cells that are not revealed. *)
Definition hiddenZeroRegion (B : Board) (p : Position) : Position → Prop :=
  connected B (λ q, zeroCell B q ∧ hiddenAt B q) p.

(** The numbered cells next to a cell of a region. *)
Definition borders (B : Board) (region : Position → Prop) (q' : Position) : Prop :=
  numberedCell B q' ∧ ∃ q, region q ∧ q' ∈ neighborsIn B q.

Definition noFlags (B : Board) : Prop :=
  Forall (Forall (λ cell, isFlagged cell = false)) B.

(** Every cell that is not a mine carries the count of the mines around it. *)
Definition correctCounts (B : Board) : Prop :=
  ∀ r c cell, cellAt B r c = Some cell → content cell ≠ mine →
    ∃ n, countAdjacentMines B r c = Some n ∧ content cell = num n.

(** A decision procedure for [correctCounts], to run on given boards. *)
Definition correctCountsb (B : Board) : bool :=
  forallb (λ r,
    match idx B r with
    | Some rw =>
        forallb (λ c,
          match idx rw c with
          | Some cell =>
              match content cell with
              | mine => true
              | num n => bool_decide (countAdjacentMines B r c = Some n)
              end
          | None => true
          end) (seqZ 0 (Z.of_nat (length rw)))
    | None => true
    end) (seqZ 0 (Z.of_nat (length B))).

(** ** Boards for the examples *)

Definition hiddenCell (k : CellContent) : CellState := mkCell k false false.
Definition shownCell (k : CellContent) : CellState := mkCell k true false.

(** A world without boards, its random source at 0. *)
Definition still_world : World := mkWorld [] (λ _, 0%Q).

(** One cell, a flagged mine. *)
Definition flagged_mine : Board := [[mkCell mine false true]].

Definition flagged_mine_world : World := mkWorld [flagged_mine] (λ _, 0%Q).

(** The 3x3 board with one mine, in the corner (0,0). *)
Definition corner_mine : Board :=
  [[hiddenCell mine; hiddenCell (num 1); hiddenCell (num 0)];
   [hiddenCell (num 1); hiddenCell (num 1); hiddenCell (num 0)];
   [hiddenCell (num 0); hiddenCell (num 0); hiddenCell (num 0)]].

Definition corner_mine_world : World := mkWorld [corner_mine] (λ _, 0%Q).

(** A row of five zero cells, the middle one revealed. *)
Definition split_row : Board :=
  [[hiddenCell (num 0); hiddenCell (num 0); shownCell (num 0);
    hiddenCell (num 0); hiddenCell (num 0)]].

Definition split_row_world : World := mkWorld [split_row] (λ _, 0%Q).

(** The 3x3 board with a mine in the corner (0,0), before the counts. *)
Definition corner_mine_blank : Board :=
  [[hiddenCell mine; hiddenCell (num 0); hiddenCell (num 0)];
   [hiddenCell (num 0); hiddenCell (num 0); hiddenCell (num 0)];
   [hiddenCell (num 0); hiddenCell (num 0); hiddenCell (num 0)]].

Definition corner_mine_blank_world : World := mkWorld [corner_mine_blank] (λ _, 0%Q).

(** ** More notions, for the rest of the engine *)


(** A board as the constructors of the engine leave it: [rows] rows of
    [cols] cells, all hidden and unflagged, with mines exactly at the
    positions [ps] and the counts in the other cells. *)
Definition fresh_board (rows cols : Z) (ps : list Position) (B : Board) : Prop :=
  length B = Z.to_nat rows
  ∧ Forall (λ rw, length rw = Z.to_nat cols) B
  ∧ correctCounts B
  ∧ ∀ r c, isValidPosition r c rows cols = true →
      ∃ cell, cellAt B r c = Some cell
              ∧ isRevealed cell = false ∧ isFlagged cell = false
              ∧ (content cell = mine ↔ mkPos r c ∈ ps).

(** Two cells with the same content and the same reveal state: they
    differ at most in the flag. *)
Definition same_play (x y : CellState) : Prop :=
  content y = content x ∧ isRevealed y = isRevealed x.

(** The cell with its flag toggled. *)
Definition toggled (cell : CellState) : CellState :=
  mkCell (content cell) (isRevealed cell) (negb (isFlagged cell)).

(** A board of [rows] rows of [cols] cells. *)
Definition shaped (rows cols : Z) (B : Board) : Prop :=
  length B = Z.to_nat rows ∧ Forall (λ rw, length rw = Z.to_nat cols) B.

(** ** The application component *)

(** The status of a game ([GameStatus] of [App.tsx]). *)
Inductive GameStatus : Type := idle | playing | won | lost.

(** The state of the component [App]: its [useState] cells [board],
    [gameStatus] and [isFirstClick]; the cell [config] is never set.  A
    handler reads the state of the render it was made in and its [set...]
    calls give the state of the next render, the last call for a cell
    winning; handlers run one at a time, each on the state the one before
    has left. *)
Record AppState : Type := mkApp {
  board : Ref;
  gameStatus : GameStatus;
  isFirstClick : bool;
}.

Definition DEFAULT_CONFIG : GameConfig := mkConfig 9 9 10.


Definition resetGame (config : GameConfig) (s : AppState) : M AppState :=
  newBoard ← createEmptyBoard (rows config) (cols config);
  mret (mkApp newBoard idle true).

Definition handleCellReveal (config : GameConfig) (s : AppState) (r c : Z)
    : M AppState :=
  match gameStatus s with
  | won | lost => mret s
  | idle | playing =>
      p ← (if isFirstClick s then
             newBoard ← createBoard config (Some (mkPos r c));
             newBoard ← revealCell newBoard r c;
             mret (newBoard, mkApp (board s) playing false)
           else
             newBoard ← revealCell (board s) r c;
             mret (newBoard, s));
      let newBoard := p.1 in
      let s := p.2 in
      NB ← deref newBoard;
      if checkGameLost NB then
        newBoard ← revealAllMines newBoard;
        mret (mkApp newBoard lost (isFirstClick s))
      else if checkGameWon NB then
        mret (mkApp newBoard won (isFirstClick s))
      else
        mret (mkApp newBoard (gameStatus s) (isFirstClick s))
  end.

Definition handleCellFlag (s : AppState) (r c : Z) : M AppState :=
  match gameStatus s with
  | won | lost | idle => mret s
  | playing =>
      newBoard ← toggleFlag (board s) r c;
      mret (mkApp newBoard (gameStatus s) (isFirstClick s))
  end.

(** [minesRemaining], the counter the component shows. *)
Definition minesRemaining (config : GameConfig) (B : Board) : Z :=
  mineCount config - Z.of_nat (countFlags B).

(** What the player does: a click on a cell, a right click on a cell, a
    click on the reset button. *)
Inductive Event : Type :=
  | Reveal (r c : Z)
  | Flag (r c : Z)
  | NewGame.

Definition dispatch (config : GameConfig) (s : AppState) (e : Event) : M AppState :=
  match e with
  | Reveal r c => handleCellReveal config s r c
  | Flag r c => handleCellFlag s r c
  | NewGame => resetGame config s
  end.


(** The status agrees with the board: what every state of a session
    satisfies. *)
Definition sound (config : GameConfig) (s : AppState) (w : World) : Prop :=
  fair w
  ∧ ∃ B, heap w !! board s = Some B
         ∧ shaped (rows config) (cols config) B ∧ correctCounts B
         ∧ match gameStatus s with
           | idle =>
               isFirstClick s = true
               ∧ B = replicate (Z.to_nat (rows config))
                       (replicate (Z.to_nat (cols config)) createEmptyCell)
           | playing =>
               isFirstClick s = false
               ∧ checkGameLost B = false ∧ checkGameWon B = false
           | won =>
               isFirstClick s = false
               ∧ checkGameLost B = false ∧ checkGameWon B = true
           | lost => isFirstClick s = false ∧ checkGameLost B = true
           end.

(** * Verification *)

(** ** Running the monad *)

Lemma bind_run {A B} (m : M A) (f : A → M B) (w : World) :
  (m ≫= f) w =
  match m w with
  | Ret (a, w') => f a w'
  | TypeError => TypeError
  | OutOfFuel => OutOfFuel
  end.
Proof. reflexivity. Qed.

Lemma bind_ret {A B} (m : M A) (f : A → M B) w a w' :
  m w = Ret (a, w') → (m ≫= f) w = f a w'.
Proof. intros E. rewrite bind_run, E. reflexivity. Qed.

Lemma deref_run w b B : heap w !! b = Some B → deref b w = Ret (B, w).
Proof. intros E. unfold deref. rewrite E. reflexivity. Qed.

Lemma set_heap_same w : set_heap w (heap w) = w.
Proof. destruct w; reflexivity. Qed.

Lemma copyBoard_id B : copyBoard B = B.
Proof.
  unfold copyBoard. rewrite <- (map_id B) at 2. apply map_ext. intros rw.
  rewrite <- (map_id rw) at 2. apply map_ext. intros []; reflexivity.
Qed.

(** ** Win detection *)

Lemma existsb_false_Forall {A} (f : A → bool) l :
  existsb f l = false ↔ Forall (λ x, f x = false) l.
Proof.
  induction l as [|x l IH]; simpl.
  - split; [constructor | reflexivity].
  - rewrite orb_false_iff, IH, Forall_cons. reflexivity.
Qed.

Lemma unwon_false cell :
  unwon cell = false ↔ (content cell ≠ mine → isRevealed cell = true).
Proof.
  unfold unwon. destruct (isRevealed cell); simpl.
  - rewrite andb_false_r. tauto.
  - rewrite andb_true_r, bool_decide_eq_false. split; [tauto|].
    intros H E. specialize (H E). discriminate.
Qed.

Lemma unwon_same x y : same_up_to_mines x y → unwon y = unwon x.
Proof.
  intros [Hc Hs]. destruct (decide (content x = mine)) as [E|E].
  - unfold unwon. rewrite Hc, E. reflexivity.
  - rewrite (Hs E). reflexivity.
Qed.

(** C7 [checkGameWon]: the result is true exactly when the board has a
    row, its first row has a cell, and every cell that is not a mine is
    revealed; changing the reveal or flag state of mine cells does not
    change the result; the empty board is not won. *)
Theorem checkGameWon_spec (B : Board) :
  (checkGameWon B = true ↔
     (0 < length B)%nat ∧ (0 < length (B !!! 0%nat))%nat ∧
     ∀ rw cell, rw ∈ B → cell ∈ rw → content cell ≠ mine → isRevealed cell = true)
  ∧ (∀ B', Forall2 (Forall2 same_up_to_mines) B B' →
           checkGameWon B' = checkGameWon B)
  ∧ checkGameWon [] = false.
Proof.
  split; [|split; [|reflexivity]].
  - unfold checkGameWon.
    destruct (existsb _ B) eqn:E.
    + split; [discriminate|]. intros (_ & _ & H). exfalso.
      apply existsb_exists in E as (rw & Hrw & E).
      apply existsb_exists in E as (cell & Hcell & E).
      apply andb_true_iff in E as [E1 E2].
      apply bool_decide_eq_true in E1. apply negb_true_iff in E2.
      apply list_elem_of_In in Hrw. apply list_elem_of_In in Hcell.
      rewrite (H rw cell Hrw Hcell E1) in E2. discriminate.
    + rewrite andb_true_iff, !bool_decide_eq_true.
      apply existsb_false_Forall in E. rewrite Forall_forall in E.
      split.
      * intros [H1 H2]. split; [exact H1|]. split; [exact H2|].
        intros rw cell Hrw Hcell. specialize (E rw Hrw).
        apply existsb_false_Forall in E. rewrite Forall_forall in E.
        apply unwon_false, E, Hcell.
      * tauto.
  - intros B' HB. unfold checkGameWon.
    assert (Hex : existsb (λ rw, existsb unwon rw) B'
                  = existsb (λ rw, existsb unwon rw) B).
    { induction HB as [|rw rw' B B' Hrw HB IH]; [reflexivity|].
      simpl. rewrite IH. f_equal.
      clear -Hrw. induction Hrw as [|x y l l' Hxy Hl IH]; [reflexivity|].
      simpl. rewrite IH, (unwon_same x y Hxy). reflexivity. }
    unfold unwon in Hex. rewrite Hex.
    rewrite (Forall2_length _ _ _ HB).
    replace (length (B' !!! 0%nat)) with (length (B !!! 0%nat)); [reflexivity|].
    destruct HB as [|rw rw' B B' Hrw HB]; [reflexivity|].
    simpl. apply (Forall2_length _ _ _ Hrw).
Qed.

(** ** Arrays of cells *)

Lemma idx_Some {A} (a : list A) i x :
  idx a i = Some x ↔ 0 ≤ i ∧ a !! Z.to_nat i = Some x.
Proof. unfold idx. case_decide; split; try tauto; try (intros [? ?]; lia); discriminate. Qed.

Lemma idx_of_nat {A} (a : list A) (i : nat) : idx a (Z.of_nat i) = a !! i.
Proof. unfold idx. rewrite decide_True by lia. rewrite Nat2Z.id. reflexivity. Qed.

Lemma cellAt_Some B r c cell :
  cellAt B r c = Some cell ↔ ∃ rw, idx B r = Some rw ∧ idx rw c = Some cell.
Proof.
  unfold cellAt. destruct (idx B r) as [rw|]; simpl.
  - split; [eauto|]. intros (rw' & E & H). congruence.
  - split; [discriminate|]. intros (rw' & E & H). discriminate.
Qed.

Lemma cellAt_of_nat B (r c : nat) :
  cellAt B (Z.of_nat r) (Z.of_nat c) = (B !! r) ≫= (λ rw, rw !! c).
Proof.
  unfold cellAt. rewrite idx_of_nat. destruct (B !! r); simpl; [|reflexivity].
  apply idx_of_nat.
Qed.

Lemma upd_length {A} (a : list A) i x : length (upd a i x) = length a.
Proof. unfold upd. case_decide; [apply length_insert | reflexivity]. Qed.

Lemma idx_upd_eq {A} (a : list A) i x y :
  idx a i = Some y → idx (upd a i x) i = Some x.
Proof.
  intros [H0 H]%idx_Some. apply idx_Some. split; [exact H0|].
  unfold upd. rewrite decide_True by exact H0.
  apply list_lookup_insert_eq. eapply lookup_lt_Some, H.
Qed.

Lemma idx_upd_ne {A} (a : list A) i j x :
  j ≠ i → idx (upd a i x) j = idx a j.
Proof.
  intros Hne. unfold upd, idx. repeat case_decide; try reflexivity.
  apply list_lookup_insert_ne. lia.
Qed.

Lemma setCell_length B r c x : length (setCell B r c x) = length B.
Proof. unfold setCell. destruct (idx B r); [apply upd_length | reflexivity]. Qed.

Lemma cellAt_setCell_eq B r c x cell :
  cellAt B r c = Some cell → cellAt (setCell B r c x) r c = Some x.
Proof.
  intros (rw & Hr & Hc)%cellAt_Some. unfold setCell. rewrite Hr.
  apply cellAt_Some. exists (upd rw c x).
  split; eapply idx_upd_eq; eassumption.
Qed.

Lemma cellAt_setCell_ne B r c x r' c' :
  (r', c') ≠ (r, c) → cellAt (setCell B r c x) r' c' = cellAt B r' c'.
Proof.
  intros Hne. unfold setCell. destruct (idx B r) as [rw|] eqn:Hr; [|reflexivity].
  unfold cellAt. destruct (decide (r' = r)) as [->|Hrr].
  - rewrite (idx_upd_eq B r _ rw Hr), Hr. simpl.
    apply idx_upd_ne. intros ->. apply Hne. reflexivity.
  - rewrite idx_upd_ne by exact Hrr. reflexivity.
Qed.

(** Counting the cells with a property, when one cell is replaced. *)
Lemma filter_length_insert {A} (P : A → Prop) `{!∀ x, Decision (P x)}
    (l : list A) i x y :
  l !! i = Some x →
  (length (filter P (<[i := y]> l)) + (if decide (P x) then 1 else 0) =
   length (filter P l) + (if decide (P y) then 1 else 0))%nat.
Proof.
  intros Hi. rewrite insert_take_drop by (eapply lookup_lt_Some, Hi).
  rewrite <- (take_drop_middle l i x Hi) at 3.
  rewrite !filter_app, !filter_cons, !length_app.
  destruct (decide (P x)), (decide (P y)); simpl; lia.
Qed.

Lemma filter_concat_insert (P : CellState → Prop) `{!∀ x, Decision (P x)}
    (B : Board) i j rw x y :
  B !! i = Some rw → rw !! j = Some x →
  (length (filter P (concat (<[i := <[j := y]> rw]> B)))
     + (if decide (P x) then 1 else 0) =
   length (filter P (concat B)) + (if decide (P y) then 1 else 0))%nat.
Proof.
  intros Hi Hj. rewrite insert_take_drop by (eapply lookup_lt_Some, Hi).
  rewrite <- (take_drop_middle B i rw Hi) at 3.
  rewrite !concat_app, !concat_cons, !filter_app, !length_app.
  pose proof (filter_length_insert P rw j x y Hj). lia.
Qed.

Lemma filter_setCell (P : CellState → Prop) `{!∀ x, Decision (P x)}
    (B : Board) r c x y :
  cellAt B r c = Some x →
  (length (filter P (concat (setCell B r c y)))
     + (if decide (P x) then 1 else 0) =
   length (filter P (concat B)) + (if decide (P y) then 1 else 0))%nat.
Proof.
  intros (rw & Hr & Hc)%cellAt_Some. unfold setCell. rewrite Hr.
  apply idx_Some in Hr as [Hr0 Hr]. apply idx_Some in Hc as [Hc0 Hc].
  unfold upd. rewrite !decide_True by assumption.
  apply filter_concat_insert; assumption.
Qed.

Lemma rectangular_cellAt B r c :
  rectangular B →
  isValidPosition r c (Z.of_nat (length B)) (Z.of_nat (length (B !!! 0%nat))) = true →
  is_Some (cellAt B r c).
Proof.
  intros HB Hv. unfold isValidPosition in Hv.
  apply andb_true_iff in Hv as [Hv Hc2]. apply andb_true_iff in Hv as [Hv Hc1].
  apply andb_true_iff in Hv as [Hr1 Hr2].
  destruct (lookup_lt_is_Some_2 B (Z.to_nat r)) as [rw Hrw]; [lia|].
  unfold rectangular in HB. rewrite Forall_forall in HB.
  assert (Hlen := HB rw (list_elem_of_lookup_2 _ _ _ Hrw)).
  destruct (lookup_lt_is_Some_2 rw (Z.to_nat c)) as [cell Hcell]; [lia|].
  exists cell. apply cellAt_Some. exists rw. split; apply idx_Some; split; auto; lia.
Qed.

Lemma cellAt_valid B r c cell :
  rectangular B → cellAt B r c = Some cell →
  isValidPosition r c (Z.of_nat (length B)) (Z.of_nat (length (B !!! 0%nat))) = true.
Proof.
  intros HB (rw & Hr & Hc)%cellAt_Some.
  apply idx_Some in Hr as [Hr0 Hr]. apply idx_Some in Hc as [Hc0 Hc].
  unfold rectangular in HB. rewrite Forall_forall in HB.
  assert (Hlen := HB rw (list_elem_of_lookup_2 _ _ _ Hr)).
  apply lookup_lt_Some in Hr, Hc. unfold isValidPosition.
  rewrite !andb_true_iff. repeat split; lia.
Qed.

(** ** The reveal on board values *)

Lemma reveal_step_refl x : reveal_step x x.
Proof. left; reflexivity. Qed.

Lemma reveal_step_trans x y z : reveal_step x y → reveal_step y z → reveal_step x z.
Proof.
  intros [->|(Hr & Hf & ->)] [->|(Hr' & Hf' & ->)]; try (left; reflexivity);
    try (right; repeat split; assumption).
Qed.

Lemma grows_refl B : grows B B.
Proof.
  unfold grows. apply Forall2_same_length_lookup_2; [reflexivity|].
  intros i rw rw' E E'. assert (rw' = rw) as -> by congruence.
  apply Forall2_same_length_lookup_2; [reflexivity|].
  intros j x y Ex Ey. assert (y = x) as -> by congruence. apply reveal_step_refl.
Qed.

Lemma grows_trans B1 B2 B3 : grows B1 B2 → grows B2 B3 → grows B1 B3.
Proof.
  unfold grows. revert B2 B3.
  induction B1 as [|rw1 B1 IH]; intros B2 B3 H12 H23.
  - inversion H12; subst. inversion H23; subst. constructor.
  - inversion H12 as [|? rw2 ? B2' Hrw12 HB12]; subst.
    inversion H23 as [|? rw3 ? B3' Hrw23 HB23]; subst.
    constructor; [|eapply IH; eassumption].
    clear -Hrw12 Hrw23. revert rw2 rw3 Hrw12 Hrw23.
    induction rw1 as [|x rw1 IH]; intros rw2 rw3 H12 H23.
    + inversion H12; subst. inversion H23; subst. constructor.
    + inversion H12; subst. inversion H23; subst.
      constructor; [eapply reveal_step_trans; eassumption | eapply IH; eassumption].
Qed.

Lemma grows_length B B' : grows B B' → length B' = length B.
Proof. intros H. symmetry. eapply Forall2_length, H. Qed.

Lemma grows_length0 B B' :
  grows B B' → length (B' !!! 0%nat) = length (B !!! 0%nat).
Proof.
  intros H. destruct H as [|rw rw' B B' Hrw _]; [reflexivity|].
  simpl. symmetry. eapply Forall2_length, Hrw.
Qed.

Lemma grows_idx_l B B' r rw :
  grows B B' → idx B r = Some rw →
  ∃ rw', idx B' r = Some rw' ∧ Forall2 reveal_step rw rw'.
Proof.
  intros H [H0 E]%idx_Some.
  destruct (Forall2_lookup_l _ _ _ _ _ H E) as (rw' & E' & Hrw).
  exists rw'. split; [apply idx_Some; auto | exact Hrw].
Qed.

Lemma grows_idx_r B B' r rw' :
  grows B B' → idx B' r = Some rw' →
  ∃ rw, idx B r = Some rw ∧ Forall2 reveal_step rw rw'.
Proof.
  intros H [H0 E]%idx_Some.
  destruct (Forall2_lookup_r _ _ _ _ _ H E) as (rw & E' & Hrw).
  exists rw. split; [apply idx_Some; auto | exact Hrw].
Qed.

Lemma grows_cellAt_l B B' r c x :
  grows B B' → cellAt B r c = Some x →
  ∃ y, cellAt B' r c = Some y ∧ reveal_step x y.
Proof.
  intros H (rw & Hr & Hc)%cellAt_Some.
  destruct (grows_idx_l _ _ _ _ H Hr) as (rw' & Hr' & Hrw).
  apply idx_Some in Hc as [Hc0 Hc].
  destruct (Forall2_lookup_l _ _ _ _ _ Hrw Hc) as (y & Hy & Hxy).
  exists y. split; [|exact Hxy].
  apply cellAt_Some. exists rw'. split; [exact Hr' | apply idx_Some; auto].
Qed.

Lemma grows_cellAt_r B B' r c y :
  grows B B' → cellAt B' r c = Some y →
  ∃ x, cellAt B r c = Some x ∧ reveal_step x y.
Proof.
  intros H (rw' & Hr' & Hc')%cellAt_Some.
  destruct (grows_idx_r _ _ _ _ H Hr') as (rw & Hr & Hrw).
  apply idx_Some in Hc' as [Hc0 Hc'].
  destruct (Forall2_lookup_r _ _ _ _ _ Hrw Hc') as (x & Hx & Hxy).
  exists x. split; [|exact Hxy].
  apply cellAt_Some. exists rw. split; [exact Hr | apply idx_Some; auto].
Qed.

Lemma grows_rectangular B B' : grows B B' → rectangular B → rectangular B'.
Proof.
  intros H HB. unfold rectangular in *. rewrite (grows_length0 _ _ H).
  rewrite Forall_forall in *. intros rw' Hin.
  apply list_elem_of_lookup in Hin as [i Hi].
  destruct (Forall2_lookup_r _ _ _ _ _ H Hi) as (rw & Hrw & HF).
  rewrite <- (Forall2_length _ _ _ HF).
  apply HB. eapply list_elem_of_lookup_2, Hrw.
Qed.

Lemma grows_setCell B r c cell :
  cellAt B r c = Some cell → isRevealed cell = false → isFlagged cell = false →
  grows B (setCell B r c (mkCell (content cell) true (isFlagged cell))).
Proof.
  intros Hcell Hr Hf. pose proof Hcell as (rw & Hrw & Hc)%cellAt_Some.
  unfold setCell. rewrite Hrw.
  apply idx_Some in Hrw as [Hr0 Hrw]. apply idx_Some in Hc as [Hc0 Hc].
  unfold upd. rewrite !decide_True by assumption. unfold grows.
  rewrite <- (list_insert_id B (Z.to_nat r) rw Hrw) at 1.
  apply Forall2_insert; [apply grows_refl|].
  rewrite <- (list_insert_id rw (Z.to_nat c) cell Hc) at 1.
  apply Forall2_insert.
  - apply Forall2_same_length_lookup_2; [reflexivity|].
    intros j x y Ex Ey. assert (y = x) as -> by congruence. apply reveal_step_refl.
  - right. rewrite Hf. auto.
Qed.

Lemma reveal_step_hidden_le rw rw' :
  Forall2 reveal_step rw rw' →
  (length (filter (λ cell, isRevealed cell = false) rw') ≤
   length (filter (λ cell, isRevealed cell = false) rw))%nat.
Proof.
  induction 1 as [|x y rw rw' Hxy _ IH]; [reflexivity|].
  rewrite !filter_cons.
  destruct Hxy as [->|(Hr & Hf & ->)].
  - destruct (decide (isRevealed x = false)); simpl; lia.
  - destruct (decide (isRevealed x = false)); [|contradiction].
    rewrite decide_False by (simpl; discriminate). simpl. lia.
Qed.

Lemma grows_hidden B B' : grows B B' → (hiddenCells B' ≤ hiddenCells B)%nat.
Proof.
  unfold hiddenCells. induction 1 as [|rw rw' B B' Hrw _ IH]; [reflexivity|].
  simpl. rewrite !filter_app, !length_app.
  pose proof (reveal_step_hidden_le _ _ Hrw). lia.
Qed.

Lemma stays_false B r c :
  stays B r c = false →
  length B ≠ 0%nat ∧ length (B !!! 0%nat) ≠ 0%nat ∧
  isValidPosition r c (Z.of_nat (length B)) (Z.of_nat (length (B !!! 0%nat))) = true ∧
  ∀ cell, cellAt B r c = Some cell → isFlagged cell = false ∧ isRevealed cell = false.
Proof.
  unfold stays. rewrite !orb_false_iff, !bool_decide_eq_false, negb_false_iff.
  intros [[[H1 H2] H3] H4]. repeat split; try assumption;
    rewrite H in H4; apply orb_false_iff in H4; tauto.
Qed.

Lemma foldV_rel {A} (R : Board → Board → Prop) (body : Board → A → outcome Board) :
  (∀ B, R B B) → (∀ B1 B2 B3, R B1 B2 → R B2 B3 → R B1 B3) →
  ∀ xs acc B',
    (∀ B x B'', x ∈ xs → body B x = Ret B'' → R B B'') →
    foldV body acc xs = Ret B' → R acc B'.
Proof.
  intros Hrefl Htrans. induction xs as [|x xs IH]; intros acc B' Hbody E; simpl in E.
  - injection E as <-. apply Hrefl.
  - destruct (body acc x) as [acc'| |] eqn:Ex; try discriminate.
    eapply Htrans.
    + eapply Hbody; [left | exact Ex].
    + apply IH; [|exact E]. intros B x' B'' Hin. apply Hbody. right. exact Hin.
Qed.

Lemma revealV_inv fuel B r c B' :
  revealV fuel B r c = Ret B' →
  (stays B r c = true ∧ B' = B) ∨
  ∃ fuel' cell,
    fuel = S fuel' ∧ stays B r c = false ∧ cellAt B r c = Some cell ∧
    isFlagged cell = false ∧ isRevealed cell = false ∧
    if bool_decide (content cell = mine) || positive (content cell)
    then B' = setCell B r c (mkCell (content cell) true (isFlagged cell))
    else foldV (λ A n, revealV fuel' A (row n) (col n))
           (setCell B r c (mkCell (content cell) true (isFlagged cell)))
           (getNeighbors r c (Z.of_nat (length B))
              (Z.of_nat (length (B !!! 0%nat)))) = Ret B'.
Proof.
  destruct fuel as [|fuel']; simpl; [discriminate|].
  destruct (stays B r c) eqn:Hs.
  - intros [= <-]. left. auto.
  - destruct (cellAt B r c) as [cell|] eqn:Hcell; [|discriminate].
    intros E. right. exists fuel', cell.
    destruct (stays_false _ _ _ Hs) as (_ & _ & _ & H).
    destruct (H cell Hcell) as [Hf Hr].
    repeat split; try assumption; try reflexivity.
    destruct (bool_decide (content cell = mine) || positive (content cell)).
    + injection E as <-. reflexivity.
    + exact E.
Qed.

Lemma revealV_grows fuel : ∀ B r c B', revealV fuel B r c = Ret B' → grows B B'.
Proof.
  induction fuel as [|fuel IH]; intros B r c B' E; [discriminate|].
  apply revealV_inv in E as [[_ ->]|(fuel' & cell & [= <-] & Hs & Hcell & Hf & Hr & E)].
  - apply grows_refl.
  - pose proof (grows_setCell _ _ _ _ Hcell Hr Hf) as Hg.
    destruct (bool_decide (content cell = mine) || positive (content cell)).
    + subst B'. exact Hg.
    + eapply grows_trans; [exact Hg|].
      eapply (foldV_rel grows); [apply grows_refl | apply grows_trans | | exact E].
      intros A x A' _ Ex. eapply IH, Ex.
Qed.

Lemma hidden_setCell B r c cell :
  cellAt B r c = Some cell → isRevealed cell = false →
  S (hiddenCells (setCell B r c (mkCell (content cell) true (isFlagged cell))))
  = hiddenCells B.
Proof.
  intros Hcell Hr. unfold hiddenCells.
  pose proof (filter_setCell (λ x, isRevealed x = false) B r c cell
                (mkCell (content cell) true (isFlagged cell)) Hcell) as H.
  rewrite decide_True in H by exact Hr.
  rewrite decide_False in H by (simpl; discriminate). lia.
Qed.

(** The recursion of [revealCell] ends: every call that goes past the
    guards reveals a cell that was not revealed. *)
Lemma revealV_enough_fuel fuel :
  ∀ B r c, (hiddenCells B < fuel)%nat → revealV fuel B r c ≠ OutOfFuel.
Proof.
  induction fuel as [|fuel IH]; intros B r c Hfuel; [lia|].
  simpl. destruct (stays B r c) eqn:Hs; [discriminate|].
  destruct (cellAt B r c) as [cell|] eqn:Hcell; [|discriminate].
  destruct (stays_false _ _ _ Hs) as (_ & _ & _ & H).
  destruct (H cell Hcell) as [Hf Hr].
  destruct (bool_decide (content cell = mine) || positive (content cell));
    [discriminate|].
  pose proof (hidden_setCell _ _ _ _ Hcell Hr) as Hh.
  set (NB := setCell B r c _) in *.
  assert (HNB : (hiddenCells NB < fuel)%nat) by lia.
  clearbody NB. clear -IH HNB.
  generalize (getNeighbors r c (Z.of_nat (length B)) (Z.of_nat (length (B !!! 0%nat)))).
  intros ns. revert NB HNB. induction ns as [|n ns IHns]; intros A HA; simpl.
  - discriminate.
  - destruct (revealV fuel A (row n) (col n)) as [A'| |] eqn:E.
    + apply IHns. pose proof (grows_hidden _ _ (revealV_grows _ _ _ _ _ E)). lia.
    + discriminate.
    + exfalso. exact (IH _ _ _ HA E).
Qed.

(** On a grid no cell that is asked for is missing. *)
Lemma revealV_no_throw fuel :
  ∀ B r c, rectangular B → revealV fuel B r c ≠ TypeError.
Proof.
  induction fuel as [|fuel IH]; intros B r c HB; [discriminate|].
  simpl. destruct (stays B r c) eqn:Hs; [discriminate|].
  destruct (stays_false _ _ _ Hs) as (_ & _ & Hv & H).
  destruct (rectangular_cellAt B r c HB Hv) as [cell Hcell]. rewrite Hcell.
  destruct (H cell Hcell) as [Hf Hr].
  destruct (bool_decide (content cell = mine) || positive (content cell));
    [discriminate|].
  pose proof (grows_rectangular _ _ (grows_setCell _ _ _ _ Hcell Hr Hf) HB) as HNB.
  set (NB := setCell B r c _) in *. clearbody NB. clear -IH HNB.
  generalize (getNeighbors r c (Z.of_nat (length B)) (Z.of_nat (length (B !!! 0%nat)))).
  intros ns. revert NB HNB. induction ns as [|n ns IHns]; intros A HA; simpl.
  - discriminate.
  - destruct (revealV fuel A (row n) (col n)) as [A'| |] eqn:E.
    + apply IHns. exact (grows_rectangular _ _ (revealV_grows _ _ _ _ _ E) HA).
    + exfalso. exact (IH _ _ _ HA E).
    + discriminate.
Qed.

Lemma stays_of_cell B r c cell :
  cellAt B r c = Some cell → isFlagged cell || isRevealed cell = true →
  stays B r c = true.
Proof. intros E H. unfold stays. rewrite E, H. apply orb_true_r. Qed.

(** After a reveal the target cell is flagged or revealed, unless the
    guards on the shape of the board or on the position held already. *)
Lemma revealV_target fuel B r c B' :
  revealV fuel B r c = Ret B' → stays B' r c = true.
Proof.
  intros E. pose proof (revealV_grows _ _ _ _ _ E) as Hg.
  apply revealV_inv in E as [[Hs ->]|(fuel' & cell & -> & Hs & Hcell & Hf & Hr & E)];
    [exact Hs|].
  set (NB := setCell B r c (mkCell (content cell) true (isFlagged cell))) in *.
  assert (HNB : grows NB B').
  { destruct (bool_decide (content cell = mine) || positive (content cell)).
    - subst B'. apply grows_refl.
    - eapply (foldV_rel grows); [apply grows_refl | apply grows_trans | | exact E].
      intros A x A' _ Ex. eapply revealV_grows, Ex. }
  pose proof (cellAt_setCell_eq B r c (mkCell (content cell) true (isFlagged cell))
                cell Hcell) as HNBc.
  destruct (grows_cellAt_l _ _ _ _ _ HNB HNBc) as (y & Hy & Hstep).
  apply (stays_of_cell _ _ _ y Hy).
  destruct Hstep as [->|(Hrev & _)]; [apply orb_true_r | discriminate].
Qed.

(** ** The reveal in the store *)

Lemma ret_run {A} (a : A) (w : World) : (mret a : M A) w = Ret (a, w).
Proof. reflexivity. Qed.

Lemma set_heap_set_heap w h h' : set_heap (set_heap w h) h' = set_heap w h'.
Proof. reflexivity. Qed.

Lemma alloc_run B w :
  alloc B w = Ret (length (heap w), set_heap w (heap w ++ [B])).
Proof. reflexivity. Qed.

Lemma assign_run b r c f w B cell :
  heap w !! b = Some B → cellAt B r c = Some cell →
  assign b r c f w = Ret (tt, set_heap w (<[b := setCell B r c (f cell)]> (heap w))).
Proof. intros E1 E2. unfold assign. rewrite E1, E2. reflexivity. Qed.

Lemma reads_run {A} b (f : Board → option A) w B x :
  heap w !! b = Some B → f B = Some x → reads b f w = Ret (x, w).
Proof.
  intros E1 E2. unfold reads. rewrite (bind_ret _ _ _ _ _ (deref_run _ _ _ E1)).
  rewrite E2. reflexivity.
Qed.

Lemma insert_fresh (h : list Board) B B' :
  <[length h := B']> (h ++ [B]) = h ++ [B'].
Proof.
  rewrite insert_app_r_alt by lia. rewrite Nat.sub_diag. reflexivity.
Qed.

Lemma lookup_fresh (h : list Board) B : (h ++ [B]) !! length h = Some B.
Proof. rewrite lookup_app_r by lia. rewrite Nat.sub_diag. reflexivity. Qed.

Lemma foldM_refines fuel :
  (∀ w b B r c, heap w !! b = Some B →
     refines (revealV fuel B r c) (revealCell_fuel fuel b r c w) w
       (λ b' hs, if stays B r c then b' = b ∧ hs = []
                 else (length (heap w) ≤ b')%nat)) →
  ∀ ns w a A, heap w !! a = Some A →
    refines (foldV (λ A n, revealV fuel A (row n) (col n)) A ns)
      (foldM (λ rb n, revealCell_fuel fuel rb (row n) (col n)) a ns w) w
      (λ b' hs, b' = a ∨ (length (heap w) ≤ b')%nat).
Proof.
  intros IH. induction ns as [|n ns IHns]; intros w a A Ha; simpl.
  - exists a, []. rewrite app_nil_r, set_heap_same. auto.
  - specialize (IH w a A (row n) (col n) Ha). unfold refines in IH.
    destruct (revealV fuel A (row n) (col n)) as [A1| |].
    + destruct IH as (b1 & hs1 & Erun & Hb1 & Hfresh).
      rewrite (bind_ret _ _ _ _ _ Erun).
      specialize (IHns (set_heap w (heap w ++ hs1)) b1 A1 Hb1).
      unfold refines in IHns |- *. simpl in IHns.
      destruct (foldV _ A1 ns) as [B'| |].
      * destruct IHns as (b' & hs2 & Erun' & Hb' & Hfresh').
        exists b', (hs1 ++ hs2). rewrite app_assoc. split; [exact Erun'|].
        split; [exact Hb'|]. rewrite length_app in Hfresh'.
        destruct (stays A (row n) (col n)); [destruct Hfresh as [-> ->]|]; lia.
      * exact IHns.
      * exact IHns.
    + rewrite bind_run, IH. reflexivity.
    + rewrite bind_run, IH. reflexivity.
Qed.

Lemma revealCell_fuel_refines fuel :
  ∀ w b B r c, heap w !! b = Some B →
    refines (revealV fuel B r c) (revealCell_fuel fuel b r c w) w
      (λ b' hs, if stays B r c then b' = b ∧ hs = []
                else (length (heap w) ≤ b')%nat).
Proof.
  induction fuel as [|fuel IH]; intros w b B r c Hb; [reflexivity|].
  pose proof (foldM_refines fuel IH) as Hfold. clear IH.
  assert (Hnoop : stays B r c = true →
            refines (Ret B) (Ret (b, w)) w
              (λ b' hs, if stays B r c then b' = b ∧ hs = []
                        else (length (heap w) ≤ b')%nat)).
  { intros Hs. exists b, []. rewrite app_nil_r, set_heap_same, Hs. auto. }
  cbn [revealV revealCell_fuel].
  rewrite (bind_ret _ _ _ _ _ (deref_run _ _ _ Hb)).
  destruct (stays B r c) eqn:Hs.
  - specialize (Hnoop eq_refl). unfold stays in Hs.
    case_decide; [exact Hnoop|]. case_decide; [exact Hnoop|].
    destruct (isValidPosition _ _ _ _); [|exact Hnoop].
    rewrite !bool_decide_eq_false_2 in Hs by assumption. simpl in Hs |- *.
    destruct (cellAt B r c) as [cell|]; [|discriminate].
    rewrite bind_run. simpl. rewrite Hs. exact Hnoop.
  - clear Hnoop. destruct (stays_false _ _ _ Hs) as (H1 & H2 & Hv & H).
    rewrite !decide_False by assumption. rewrite Hv. change (negb true) with false. cbv iota.
    destruct (cellAt B r c) as [cell|] eqn:Hcell; [|reflexivity].
    destruct (H cell eq_refl) as [Hf Hr].
    assert (Hfr : isFlagged cell || isRevealed cell = false) by (rewrite Hf, Hr; reflexivity).
    rewrite bind_run. simpl access. rewrite ret_run, Hfr. cbv iota.
    rewrite bind_run, alloc_run, copyBoard_id.
    set (w1 := set_heap w (heap w ++ [B])).
    assert (Hw1 : heap w1 !! length (heap w) = Some B) by apply lookup_fresh.
    rewrite (bind_ret _ _ _ _ _ (assign_run _ _ _ _ _ _ _ Hw1 Hcell)).
    subst w1. simpl heap. rewrite set_heap_set_heap, insert_fresh.
    set (NB := setCell B r c (mkCell (content cell) true (isFlagged cell))).
    set (w2 := set_heap w (heap w ++ [NB])).
    assert (Hw2 : heap w2 !! length (heap w) = Some NB) by apply lookup_fresh.
    assert (HNBc : cellAt NB r c = Some (mkCell (content cell) true (isFlagged cell)))
      by (eapply cellAt_setCell_eq, Hcell).
    rewrite (bind_ret _ _ _ _ _ (reads_run _ (λ NB, cellAt NB r c) _ _ _ Hw2 HNBc)).
    cbv beta. cbn [content].
    destruct (bool_decide (content cell = mine) || positive (content cell)).
    + exists (length (heap w)), [NB]. split; [reflexivity|]. split; [exact Hw2|]. lia.
    + specialize (Hfold (getNeighbors r c (Z.of_nat (length B))
                           (Z.of_nat (length (B !!! 0%nat)))) w2 _ NB Hw2).
      unfold refines in Hfold |- *.
      destruct (foldV _ NB _) as [B'| |]; try exact Hfold.
      destruct Hfold as (b' & hs & Erun & Hb' & Hfresh).
      exists b', ([NB] ++ hs). rewrite app_assoc. split; [exact Erun|].
      split; [exact Hb'|]. simpl in Hfresh. rewrite length_app in Hfresh.
      simpl in Hfresh. lia.
Qed.

(** A call of [revealCell] on a live reference: it never runs out of
    fuel, it raises only on a board that is not a grid, and what it
    returns is the board [revealV] gives, in a store that has only grown. *)
Lemma revealCell_run w b B r c :
  heap w !! b = Some B →
  match revealCell b r c w with
  | Ret (b', w') =>
      ∃ B' hs, w' = set_heap w (heap w ++ hs) ∧ heap w' !! b' = Some B'
               ∧ revealV (S (hiddenCells B)) B r c = Ret B'
               ∧ if stays B r c then b' = b ∧ hs = []
                 else (length (heap w) ≤ b')%nat
  | TypeError => ¬ rectangular B
  | OutOfFuel => False
  end.
Proof.
  intros Hb. unfold revealCell.
  rewrite (bind_ret _ _ _ _ _ (deref_run _ _ _ Hb)).
  pose proof (revealCell_fuel_refines (S (hiddenCells B)) w b B r c Hb) as H.
  unfold refines in H.
  destruct (revealV (S (hiddenCells B)) B r c) as [B'| |] eqn:E.
  - destruct H as (b' & hs & -> & Hb' & Hfresh). exists B', hs. auto.
  - rewrite H. intros HB. exact (revealV_no_throw _ _ _ _ HB E).
  - exfalso. refine (revealV_enough_fuel _ _ _ _ _ E). lia.
Qed.

(** More fuel than a run needs does not change it. *)
Lemma foldM_more_fuel (n m : nat) :
  (∀ b r c w, revealCell_fuel n b r c w ≠ OutOfFuel →
              revealCell_fuel m b r c w = revealCell_fuel n b r c w) →
  ∀ ns a w,
    foldM (λ rb x, revealCell_fuel n rb (row x) (col x)) a ns w ≠ OutOfFuel →
    foldM (λ rb x, revealCell_fuel m rb (row x) (col x)) a ns w
    = foldM (λ rb x, revealCell_fuel n rb (row x) (col x)) a ns w.
Proof.
  intros IH. induction ns as [|x ns IHns]; intros a w H; [reflexivity|].
  cbn [foldM] in *. rewrite !bind_run in *.
  destruct (revealCell_fuel n a (row x) (col x) w) as [[a' w']| |] eqn:E.
  - rewrite IH by (rewrite E; discriminate). rewrite E. apply IHns, H.
  - rewrite IH by (rewrite E; discriminate). rewrite E. reflexivity.
  - exfalso. apply H. reflexivity.
Qed.

Lemma revealCell_fuel_more (n : nat) :
  ∀ m b r c w, (n ≤ m)%nat → revealCell_fuel n b r c w ≠ OutOfFuel →
    revealCell_fuel m b r c w = revealCell_fuel n b r c w.
Proof.
  induction n as [|n IH]; intros m b r c w Hle H.
  - exfalso. apply H. reflexivity.
  - destruct m as [|m]; [lia|].
    pose proof (foldM_more_fuel n m (λ b r c w, IH m b r c w ltac:(lia))) as Hfold.
    cbn [revealCell_fuel] in *. rewrite !bind_run in *.
    destruct (deref b w) as [[B w1]| |]; try reflexivity.
    repeat (case_decide; try reflexivity).
    destruct (negb _); try reflexivity.
    rewrite !bind_run in *.
    destruct (access (cellAt B r c) w1) as [[cell w2]| |]; try reflexivity.
    destruct (isFlagged cell || isRevealed cell); try reflexivity.
    rewrite !bind_run in *.
    destruct (alloc (copyBoard B) w2) as [[nb w3]| |]; try reflexivity.
    rewrite !bind_run in *.
    destruct (assign nb r c _ w3) as [[[] w4]| |]; try reflexivity.
    rewrite !bind_run in *.
    destruct (reads nb _ w4) as [[cell' w5]| |]; try reflexivity.
    destruct (_ || _); try reflexivity.
    apply Hfold, H.
Qed.

(** The fuel [revealCell] is run with is enough, and any larger amount
    gives the same run. *)
Lemma revealCell_any_fuel w b B r c fuel :
  heap w !! b = Some B → (hiddenCells B < fuel)%nat →
  revealCell_fuel fuel b r c w = revealCell b r c w.
Proof.
  intros Hb Hfuel. unfold revealCell.
  rewrite (bind_ret _ _ _ _ _ (deref_run _ _ _ Hb)).
  apply revealCell_fuel_more; [lia|].
  pose proof (revealCell_fuel_refines (S (hiddenCells B)) w b B r c Hb) as H.
  unfold refines in H.
  destruct (revealV (S (hiddenCells B)) B r c) as [B'| |] eqn:E.
  - destruct H as (b' & hs & -> & _). discriminate.
  - rewrite H. discriminate.
  - exfalso. refine (revealV_enough_fuel _ _ _ _ _ E). lia.
Qed.

Lemma revealCell_stays w b B r c :
  heap w !! b = Some B → stays B r c = true → revealCell b r c w = Ret (b, w).
Proof.
  intros Hb Hs. unfold revealCell.
  rewrite (bind_ret _ _ _ _ _ (deref_run _ _ _ Hb)).
  pose proof (revealCell_fuel_refines (S (hiddenCells B)) w b B r c Hb) as H.
  simpl revealV in H. rewrite Hs in H.
  destruct H as (b' & hs & -> & _ & -> & ->).
  rewrite app_nil_r, set_heap_same. reflexivity.
Qed.

(** C5 [revealCell]: on a board without rows or whose first row is empty,
    at a position out of bounds, and at a cell that is flagged or revealed,
    the call returns the reference it was given and leaves the store as
    it was. *)
Theorem revealCell_noop_same_reference (w : World) (b : Ref) (B : Board) (r c : Z) :
  heap w !! b = Some B →
  length B = 0%nat ∨ length (B !!! 0%nat) = 0%nat
  ∨ isValidPosition r c (Z.of_nat (length B)) (Z.of_nat (length (B !!! 0%nat))) = false
  ∨ (∃ cell, cellAt B r c = Some cell
             ∧ (isFlagged cell = true ∨ isRevealed cell = true)) →
  revealCell b r c w = Ret (b, w).
Proof.
  intros Hb H. apply (revealCell_stays w b B r c Hb). unfold stays.
  destruct H as [H|[H|[H|(cell & Hcell & H)]]].
  - rewrite bool_decide_eq_true_2 by exact H. reflexivity.
  - rewrite (bool_decide_eq_true_2 _ H). rewrite orb_true_r. reflexivity.
  - rewrite H. simpl. rewrite orb_true_r. reflexivity.
  - rewrite Hcell. destruct H as [-> | ->]; rewrite ?orb_true_r; reflexivity.
Qed.

Lemma reveal_step_frame x y : reveal_step x y → reveal_frame x y.
Proof.
  intros [->|(Hr & Hf & ->)]; unfold reveal_frame; simpl; auto.
Qed.

Lemma Forall2_Forall2_impl {A} (R S : A → A → Prop) (l k : list (list A)) :
  (∀ x y, R x y → S x y) → Forall2 (Forall2 R) l k → Forall2 (Forall2 S) l k.
Proof.
  intros H HF. eapply Forall2_impl; [exact HF|]. intros rw rw' Hrw.
  eapply Forall2_impl; [exact Hrw | exact H].
Qed.

(** C10 [revealCell]: the returned board has the rows and row lengths of
    the input; cell by cell the content and the flag are those of the
    input, and a cell revealed in the input is revealed in the result.
    The call raises only on a board that is not a grid. *)
Theorem revealCell_frame (w : World) (b : Ref) (B : Board) (r c : Z) :
  heap w !! b = Some B →
  match revealCell b r c w with
  | Ret (b', w') =>
      ∃ B', heap w' !! b' = Some B'
            ∧ length B' = length B
            ∧ Forall2 (λ rw rw', length rw' = length rw) B B'
            ∧ Forall2 (Forall2 reveal_frame) B B'
  | TypeError => ¬ rectangular B
  | OutOfFuel => False
  end.
Proof.
  intros Hb. pose proof (revealCell_run w b B r c Hb) as H.
  destruct (revealCell b r c w) as [[b' w']| |]; [|exact H|exact H].
  destruct H as (B' & hs & _ & Hb' & E & _). exists B'.
  pose proof (revealV_grows _ _ _ _ _ E) as Hg.
  split; [exact Hb'|]. split; [exact (grows_length _ _ Hg)|]. split.
  - eapply Forall2_impl; [exact Hg|]. intros rw rw' Hrw. simpl.
    symmetry. eapply Forall2_length, Hrw.
  - eapply Forall2_Forall2_impl; [|exact Hg]. apply reveal_step_frame.
Qed.

Lemma grows_revealed B B' : grows B B' → (revealedCells B ≤ revealedCells B')%nat.
Proof.
  unfold revealedCells. induction 1 as [|rw rw' B B' Hrw _ IH]; [reflexivity|].
  simpl. rewrite !filter_app, !length_app.
  assert ((length (filter (λ cell, isRevealed cell = true) rw) ≤
           length (filter (λ cell, isRevealed cell = true) rw'))%nat); [|lia].
  clear -Hrw. induction Hrw as [|x y rw rw' Hxy _ IH]; [reflexivity|].
  rewrite !filter_cons. destruct Hxy as [->|(Hr & Hf & ->)].
  - destruct (decide (isRevealed x = true)); simpl; lia.
  - rewrite (decide_True (P := true = true)) by reflexivity.
    destruct (decide (isRevealed x = true)); simpl; lia.
Qed.

(** C6 [revealCell]: at a valid position the returned board has at least
    as many revealed cells as the input, and a second call at the same
    position, on the returned board, returns the reference it is given and
    leaves the store as it is. *)
Theorem revealCell_monotone_idempotent (w : World) (b : Ref) (B : Board) (r c : Z) :
  heap w !! b = Some B →
  isValidPosition r c (Z.of_nat (length B)) (Z.of_nat (length (B !!! 0%nat))) = true →
  match revealCell b r c w with
  | Ret (b', w') =>
      ∃ B', heap w' !! b' = Some B'
            ∧ (revealedCells B ≤ revealedCells B')%nat
            ∧ revealCell b' r c w' = Ret (b', w')
  | TypeError => ¬ rectangular B
  | OutOfFuel => False
  end.
Proof.
  intros Hb _. pose proof (revealCell_run w b B r c Hb) as H.
  destruct (revealCell b r c w) as [[b' w']| |]; [|exact H|exact H].
  destruct H as (B' & hs & _ & Hb' & E & _). exists B'.
  split; [exact Hb'|]. split.
  - exact (grows_revealed _ _ (revealV_grows _ _ _ _ _ E)).
  - apply (revealCell_stays w' b' B' r c Hb'). exact (revealV_target _ _ _ _ _ E).
Qed.

(** ** Revealing the mines, toggling a flag *)

Lemma revealAllMines_run w b B :
  heap w !! b = Some B →
  revealAllMines b w =
  Ret (length (heap w), set_heap w (heap w ++ [map (map revealMine) B])).
Proof.
  intros Hb. unfold revealAllMines.
  rewrite (bind_ret _ _ _ _ _ (deref_run _ _ _ Hb)). reflexivity.
Qed.

Lemma Forall2_map_diag {A B} (P : A → B → Prop) (f : A → B) (l : list A) :
  (∀ x, P x (f x)) → Forall2 P l (map f l).
Proof. intros H. induction l; simpl; constructor; auto. Qed.

(** C9 [revealAllMines]: the call returns a new board, cell by cell with
    the content and the flag of the input; its mine cells are revealed and
    its other cells are revealed exactly when they were.  The input board
    stays in the store as it was. *)
Theorem revealAllMines_spec (w : World) (b : Ref) (B : Board) :
  heap w !! b = Some B →
  ∃ B', revealAllMines b w = Ret (length (heap w), set_heap w (heap w ++ [B']))
        ∧ (heap w ++ [B']) !! b = Some B
        ∧ Forall2 (Forall2 mines_shown) B B'.
Proof.
  intros Hb. exists (map (map revealMine) B).
  split; [exact (revealAllMines_run w b B Hb)|]. split.
  - rewrite lookup_app_l; [exact Hb | eapply lookup_lt_Some, Hb].
  - apply Forall2_map_diag. intros rw. apply Forall2_map_diag. intros x.
    unfold mines_shown, revealMine. simpl.
    destruct (decide (content x = mine)); tauto.
Qed.

Lemma toggleFlag_run w b B r c :
  heap w !! b = Some B →
  toggleFlag b r c w =
  if bool_decide (length B = 0%nat) || bool_decide (length (B !!! 0%nat) = 0%nat)
     || negb (isValidPosition r c (Z.of_nat (length B))
                (Z.of_nat (length (B !!! 0%nat))))
  then Ret (b, w)
  else match cellAt B r c with
       | None => TypeError
       | Some cell =>
           if isRevealed cell then Ret (b, w)
           else Ret (length (heap w),
                     set_heap w (heap w ++
                       [setCell B r c (mkCell (content cell) (isRevealed cell)
                                         (negb (isFlagged cell)))]))
       end.
Proof.
  intros Hb. unfold toggleFlag.
  rewrite (bind_ret _ _ _ _ _ (deref_run _ _ _ Hb)).
  case_decide as H1; [rewrite (bool_decide_eq_true_2 _ H1); reflexivity|].
  rewrite (bool_decide_eq_false_2 _ H1).
  case_decide as H2; [rewrite (bool_decide_eq_true_2 _ H2); reflexivity|].
  rewrite (bool_decide_eq_false_2 _ H2).
  destruct (isValidPosition _ _ _ _); [|reflexivity]. simpl.
  destruct (cellAt B r c) as [cell|] eqn:Hcell; [|reflexivity].
  rewrite bind_run. simpl access. rewrite ret_run.
  destruct (isRevealed cell) eqn:Hr; [reflexivity|].
  rewrite bind_run, alloc_run, copyBoard_id.
  assert (Hw1 : heap (set_heap w (heap w ++ [B])) !! length (heap w) = Some B)
    by apply lookup_fresh.
  rewrite (bind_ret _ _ _ _ _ (assign_run _ _ _ _ _ _ _ Hw1 Hcell)).
  rewrite ret_run. simpl heap. rewrite set_heap_set_heap, insert_fresh.
  cbv beta. rewrite Hr. reflexivity.
Qed.

(** ** Flagged and revealed at once *)

Lemma Forall_Forall2_step {A} (P : A → Prop) (R : A → A → Prop) (l k : list A) :
  (∀ x y, P x → R x y → P y) → Forall P l → Forall2 R l k → Forall P k.
Proof.
  intros H Hl HR. induction HR as [|x y l k Hxy _ IH]; [constructor|].
  inversion Hl; subst. constructor; eauto.
Qed.

Lemma grows_exclusive B B' : grows B B' → exclusiveBoard B → exclusiveBoard B'.
Proof.
  intros Hg HB. eapply (Forall_Forall2_step _ (Forall2 reveal_step)); [|exact HB|exact Hg].
  intros rw rw' Hrw. apply Forall_Forall2_step; [|exact Hrw].
  intros x y Hx [->|(_ & _ & ->)]; [exact Hx|].
  unfold exclusive. simpl. intros [? _]. discriminate.
Qed.

Lemma Forall_upd {A} (P : A → Prop) (a : list A) i x :
  Forall P a → P x → Forall P (upd a i x).
Proof. intros Ha Hx. unfold upd. case_decide; [apply Forall_insert|]; assumption. Qed.

Lemma Forall_setCell (P : CellState → Prop) (B : Board) r c x :
  Forall (Forall P) B → P x → Forall (Forall P) (setCell B r c x).
Proof.
  intros HB Hx. unfold setCell. destruct (idx B r) as [rw|] eqn:Hr; [|exact HB].
  apply Forall_upd; [exact HB|]. apply Forall_upd; [|exact Hx].
  apply idx_Some in Hr as [_ Hr]. rewrite Forall_forall in HB.
  apply HB. eapply list_elem_of_lookup_2, Hr.
Qed.

Lemma Forall_map_Forall {A B} (P : A → Prop) (Q : B → Prop) (f : A → B) l :
  (∀ x, P x → Q (f x)) → Forall P l → Forall Q (map f l).
Proof. intros H. induction 1; simpl; constructor; auto. Qed.

(** C1, as the code has it: [revealCell] and [toggleFlag] keep a board
    free of cells that are flagged and revealed at once; [revealAllMines]
    keeps every cell that is not a mine so, and the whole board when no
    mine of the input is flagged. *)
Theorem flag_reveal_exclusion (w : World) (b : Ref) (B : Board) (r c : Z) :
  heap w !! b = Some B → exclusiveBoard B →
  match revealCell b r c w with
  | Ret (b', w') => ∃ B', heap w' !! b' = Some B' ∧ exclusiveBoard B'
  | TypeError => ¬ rectangular B
  | OutOfFuel => False
  end
  ∧ match toggleFlag b r c w with
    | Ret (b', w') => ∃ B', heap w' !! b' = Some B' ∧ exclusiveBoard B'
    | TypeError => ¬ rectangular B
    | OutOfFuel => False
    end
  ∧ ∃ b' w' B',
      revealAllMines b w = Ret (b', w') ∧ heap w' !! b' = Some B'
      ∧ Forall (Forall (λ cell, content cell ≠ mine → exclusive cell)) B'
      ∧ (Forall (Forall (λ cell, content cell = mine → isFlagged cell = false)) B →
         exclusiveBoard B').
Proof.
  intros Hb HB. split; [|split].
  - pose proof (revealCell_run w b B r c Hb) as H.
    destruct (revealCell b r c w) as [[b' w']| |]; [|exact H|exact H].
    destruct H as (B' & hs & _ & Hb' & E & _). exists B'. split; [exact Hb'|].
    exact (grows_exclusive _ _ (revealV_grows _ _ _ _ _ E) HB).
  - rewrite (toggleFlag_run w b B r c Hb).
    destruct (_ || _ || _) eqn:Hguard; [exists B; auto|].
    apply orb_false_iff in Hguard as [_ Hv]. apply negb_false_iff in Hv.
    destruct (cellAt B r c) as [cell|] eqn:Hcell.
    + destruct (isRevealed cell) eqn:Hr; [exists B; auto|].
      eexists. split; [apply lookup_fresh|].
      apply Forall_setCell; [exact HB|].
      unfold exclusive. simpl. intros [_ ?]. discriminate.
    + intros Hrect. destruct (rectangular_cellAt B r c Hrect Hv) as [? ?]. congruence.
  - eexists _, _, _. split; [exact (revealAllMines_run w b B Hb)|].
    split; [apply lookup_fresh|]. split.
    + eapply Forall_map_Forall; [|exact HB]. intros rw Hrw.
      eapply Forall_map_Forall; [|exact Hrw]. intros x Hx Hm.
      unfold exclusive, revealMine in *. simpl in *.
      rewrite decide_False by exact Hm. exact Hx.
    + intros Hnf. unfold exclusiveBoard.
      assert (HB2 : Forall (Forall (λ cell, exclusive cell
                      ∧ (content cell = mine → isFlagged cell = false))) B).
      { clear -HB Hnf. unfold exclusiveBoard in HB.
        rewrite Forall_forall in *. intros rw Hrw.
        specialize (HB rw Hrw). specialize (Hnf rw Hrw).
        rewrite Forall_forall in *. intros x Hx. split; auto. }
      eapply Forall_map_Forall; [|exact HB2]. intros rw Hrw.
      eapply Forall_map_Forall; [|exact Hrw]. intros x [Hx Hm].
      unfold exclusive, revealMine in *. simpl.
      destruct (decide (content x = mine)) as [E|E]; [|exact Hx].
      rewrite (Hm E). intros [? _]. discriminate.
Qed.

(** C1, as the specification has it, fails for [revealAllMines]: a flagged
    mine comes out flagged and revealed. *)
Lemma revealAllMines_breaks_exclusion :
  exclusiveBoard flagged_mine
  ∧ ∃ b' w' B', revealAllMines 0%nat flagged_mine_world = Ret (b', w')
                ∧ heap w' !! b' = Some B' ∧ ¬ exclusiveBoard B'.
Proof.
  split.
  - repeat constructor. intros [_ ?]. discriminate.
  - eexists _, _, _. split; [reflexivity|]. split; [reflexivity|].
    intros H. inversion H as [|? ? Hrw _]; subst.
    inversion Hrw as [|? ? Hx _]; subst. apply Hx. split; reflexivity.
Qed.

(** ** Adjacency numbers *)

Lemma isValidPosition_spec r c rows cols :
  isValidPosition r c rows cols = true ↔ 0 ≤ r < rows ∧ 0 ≤ c < cols.
Proof. unfold isValidPosition. rewrite !andb_true_iff. lia. Qed.

Lemma getNeighbors_spec r c rows cols n :
  n ∈ getNeighbors r c rows cols ↔
  isValidPosition (row n) (col n) rows cols = true
  ∧ (row n - r, col n - c) ∈ directions.
Proof.
  unfold getNeighbors. rewrite list_elem_of_In, in_flat_map. split.
  - intros ([dr dc] & Hd & Hn).
    destruct (isValidPosition (r + dr) (c + dc) rows cols) eqn:Hv; [|destruct Hn].
    destruct Hn as [<-|[]]. simpl. split; [exact Hv|].
    replace (r + dr - r) with dr by lia. replace (c + dc - c) with dc by lia.
    apply list_elem_of_In, Hd.
  - intros [Hv Hd]. exists (row n - r, col n - c).
    split; [apply list_elem_of_In, Hd|].
    replace (r + (row n - r)) with (row n) by lia.
    replace (c + (col n - c)) with (col n) by lia.
    rewrite Hv. left. destruct n; reflexivity.
Qed.

Lemma getNeighbors_valid r c rows cols n :
  n ∈ getNeighbors r c rows cols →
  isValidPosition (row n) (col n) rows cols = true.
Proof. intros H. apply getNeighbors_spec in H. tauto. Qed.

Lemma countAdjacentMines_total B r c :
  rectangular B → is_Some (countAdjacentMines B r c).
Proof.
  intros HB. unfold countAdjacentMines.
  case_decide; [eauto|]. case_decide; [eauto|].
  destruct (negb _); [eauto|].
  match goal with |- is_Some (mapM ?f ?l ≫= _) =>
    assert (Hm : is_Some (mapM f l)) end.
  { apply mapM_is_Some, Forall_forall. intros n Hn. simpl.
    destruct (rectangular_cellAt B (row n) (col n) HB
                (getNeighbors_valid _ _ _ _ _ Hn)) as [cell ->].
    simpl. eauto. }
  destruct Hm as [hits ->]. simpl. eauto.
Qed.

Lemma same_shape_refl B : same_shape B B.
Proof. unfold same_shape. induction B; constructor; auto. Qed.

Lemma Forall2_map_diag_Forall {A B} (P : A → B → Prop) (f : A → B) (l : list A) :
  Forall (λ x, P x (f x)) l → Forall2 P l (map f l).
Proof. induction 1; simpl; constructor; auto. Qed.

Lemma same_shape_upd B NB r rw x c :
  same_shape B NB → idx NB r = Some rw → same_shape B (upd NB r (upd rw c x)).
Proof.
  intros HS [H0 Hr]%idx_Some. unfold upd at 1. rewrite decide_True by exact H0.
  unfold same_shape in *.
  destruct (Forall2_lookup_r _ _ _ _ _ HS Hr) as (rw0 & Hrw0 & Hlen).
  rewrite <- (list_insert_id B (Z.to_nat r) rw0 Hrw0).
  apply Forall2_insert; [exact HS|]. rewrite upd_length. exact Hlen.
Qed.

Lemma same_shape_setCell B NB r c x : same_shape B NB → same_shape B (setCell NB r c x).
Proof.
  intros HS. unfold setCell. destruct (idx NB r) as [rw|] eqn:Hr; [|exact HS].
  eapply same_shape_upd; eassumption.
Qed.

(** Loops that keep an invariant and do not raise. *)
Lemma forM__invariant {A} (body : A → M unit) (I : nat → World → Prop) :
  ∀ (xs : list A) (k : nat) (w : World),
    I k w →
    (∀ i x w, xs !! i = Some x → I (k + i)%nat w →
              ∃ w', body x w = Ret (tt, w') ∧ I (S (k + i)) w') →
    ∃ w', forM_ xs body w = Ret (tt, w') ∧ I (k + length xs)%nat w'.
Proof.
  induction xs as [|x xs IH]; intros k w Hk Hbody.
  - exists w. rewrite Nat.add_0_r. auto.
  - destruct (Hbody 0%nat x w eq_refl) as (w1 & E1 & H1);
      [rewrite Nat.add_0_r; exact Hk|].
    rewrite Nat.add_0_r in H1.
    destruct (IH (S k) w1 H1) as (w' & E' & H').
    { intros i y w2 Hy Hi. replace (S k + i)%nat with (k + S i)%nat in * by lia.
      apply (Hbody (S i) y w2 Hy Hi). }
    exists w'. split.
    + unfold forM_ in *. simpl. rewrite (bind_ret _ _ _ _ _ E1). exact E'.
    + simpl. replace (k + S (length xs))%nat with (S k + length xs)%nat by lia.
      exact H'.
Qed.

Lemma numbering_cell w b B NB (r c : nat) :
  rectangular B → heap w !! b = Some B → (b < length (heap w))%nat →
  (r < length B)%nat → (c < length (B !!! 0%nat))%nat →
  numbering B (Z.of_nat r) (Z.of_nat c) NB →
  ∃ NB',
    (cell ← reads (length (heap w)) (λ NB, cellAt NB (Z.of_nat r) (Z.of_nat c));
     if decide (content cell ≠ mine) then
       n ← reads b (λ B, countAdjacentMines B (Z.of_nat r) (Z.of_nat c));
       assign (length (heap w)) (Z.of_nat r) (Z.of_nat c)
         (λ cell, mkCell (num n) (isRevealed cell) (isFlagged cell))
     else mret tt) (set_heap w (heap w ++ [NB]))
    = Ret (tt, set_heap w (heap w ++ [NB']))
    ∧ numbering B (Z.of_nat r) (Z.of_nat (S c)) NB'.
Proof.
  intros HB Hb Hlt Hr Hc [HS HN].
  assert (Hv : isValidPosition (Z.of_nat r) (Z.of_nat c) (Z.of_nat (length B))
                 (Z.of_nat (length (B !!! 0%nat))) = true)
    by (apply isValidPosition_spec; lia).
  destruct (rectangular_cellAt B _ _ HB Hv) as [cell Hcell].
  pose proof (HN _ _ _ Hcell) as HNB.
  rewrite decide_False in HNB by (unfold before; lia).
  set (w1 := set_heap w (heap w ++ [NB])).
  assert (Hw1 : heap w1 !! length (heap w) = Some NB) by apply lookup_fresh.
  assert (Hb1 : heap w1 !! b = Some B)
    by (simpl; rewrite lookup_app_l by exact Hlt; exact Hb).
  rewrite (bind_ret _ _ _ _ _ (reads_run _ (λ NB, cellAt NB _ _) _ _ _ Hw1 HNB)).
  assert (Hstep : ∀ NB',
    same_shape B NB' →
    cellAt NB' (Z.of_nat r) (Z.of_nat c)
      = Some (numbered B (Z.of_nat r) (Z.of_nat c) cell) →
    (∀ r' c', (r', c') ≠ (Z.of_nat r, Z.of_nat c) →
              cellAt NB' r' c' = cellAt NB r' c') →
    numbering B (Z.of_nat r) (Z.of_nat (S c)) NB').
  { intros NB' HS' Hat Hother. split; [exact HS'|]. intros r' c' cell' Hcell'.
    destruct (decide ((r', c') = (Z.of_nat r, Z.of_nat c))) as [[= -> ->]|Hne].
    - rewrite decide_True by (unfold before; lia).
      assert (cell' = cell) as -> by congruence. exact Hat.
    - rewrite (Hother _ _ Hne), (HN _ _ _ Hcell').
      f_equal. destruct (decide (before (Z.of_nat r) (Z.of_nat c) r' c')) as [Hd|Hd].
      + rewrite decide_True; [reflexivity|]. unfold before in *. lia.
      + rewrite decide_False; [reflexivity|]. unfold before in *.
        intros H. apply Hd.
        assert (¬ (r' = Z.of_nat r ∧ c' = Z.of_nat c))
          by (intros [-> ->]; apply Hne; reflexivity). lia. }
  case_decide as Hm.
  - destruct (countAdjacentMines_total B (Z.of_nat r) (Z.of_nat c) HB) as [n Hn].
    rewrite (bind_ret _ _ _ _ _
               (reads_run _ (λ B, countAdjacentMines B _ _) _ _ _ Hb1 Hn)).
    rewrite (assign_run _ _ _ _ _ _ _ Hw1 HNB).
    subst w1. simpl heap. rewrite set_heap_set_heap, insert_fresh.
    eexists. split; [reflexivity|]. apply Hstep.
    + apply same_shape_setCell, HS.
    + rewrite (cellAt_setCell_eq _ _ _ _ _ HNB). unfold numbered.
      rewrite decide_False by exact Hm. rewrite Hn. reflexivity.
    + intros r' c' Hne. apply cellAt_setCell_ne, Hne.
  - exists NB. split; [reflexivity|]. apply Hstep; [exact HS| |reflexivity].
    rewrite HNB. unfold numbered. rewrite decide_True; [reflexivity|].
    destruct (decide (content cell = mine)); [assumption|]. exfalso. auto.
Qed.

Lemma numbering_next_row B (r : nat) NB :
  rectangular B →
  numbering B (Z.of_nat r) (Z.of_nat (length (B !!! 0%nat))) NB →
  numbering B (Z.of_nat (S r)) 0 NB.
Proof.
  intros HB [HS HN]. split; [exact HS|]. intros r' c' cell Hcell.
  rewrite (HN _ _ _ Hcell). f_equal.
  apply (cellAt_valid B r' c' cell HB), isValidPosition_spec in Hcell.
  destruct (decide (before (Z.of_nat r) _ r' c')) as [Hd|Hd].
  - rewrite decide_True; [reflexivity|]. unfold before in *. lia.
  - rewrite decide_False; [reflexivity|]. unfold before in *. lia.
Qed.

Lemma numbering_row w b B NB (r : nat) :
  rectangular B → heap w !! b = Some B → (b < length (heap w))%nat →
  (r < length B)%nat →
  numbering B (Z.of_nat r) 0 NB →
  ∃ NB',
    forM_ (seq 0 (length (B !!! 0%nat))) (λ c,
      cell ← reads (length (heap w)) (λ NB, cellAt NB (Z.of_nat r) (Z.of_nat c));
      if decide (content cell ≠ mine) then
        n ← reads b (λ B, countAdjacentMines B (Z.of_nat r) (Z.of_nat c));
        assign (length (heap w)) (Z.of_nat r) (Z.of_nat c)
          (λ cell, mkCell (num n) (isRevealed cell) (isFlagged cell))
      else mret tt) (set_heap w (heap w ++ [NB]))
    = Ret (tt, set_heap w (heap w ++ [NB']))
    ∧ numbering B (Z.of_nat (S r)) 0 NB'.
Proof.
  intros HB Hb Hlt Hr HN.
  match goal with |- ∃ NB', forM_ ?xs ?body ?w1 = _ ∧ _ =>
    destruct (forM__invariant body
      (λ k w', ∃ NB', w' = set_heap w (heap w ++ [NB'])
                      ∧ numbering B (Z.of_nat r) (Z.of_nat k) NB')
      xs 0%nat w1) as (w' & E & NB' & -> & HN')
  end.
  - exists NB. auto.
  - intros i x w' Hx (NB1 & -> & HN1). simpl in HN1 |- *.
    apply lookup_seq in Hx as [-> Hi]. simpl.
    destruct (numbering_cell w b B NB1 r i HB Hb Hlt Hr Hi HN1) as (NB2 & E2 & HN2).
    eauto.
  - exists NB'. split; [exact E|]. simpl in HN'. rewrite length_seq in HN'.
    apply numbering_next_row; assumption.
Qed.

Lemma numbering_all w b B :
  rectangular B → heap w !! b = Some B →
  ∃ NB',
    forM_ (seq 0 (length B)) (λ r,
      forM_ (seq 0 (length (B !!! 0%nat))) (λ c,
        cell ← reads (length (heap w)) (λ NB, cellAt NB (Z.of_nat r) (Z.of_nat c));
        if decide (content cell ≠ mine) then
          n ← reads b (λ B, countAdjacentMines B (Z.of_nat r) (Z.of_nat c));
          assign (length (heap w)) (Z.of_nat r) (Z.of_nat c)
            (λ cell, mkCell (num n) (isRevealed cell) (isFlagged cell))
        else mret tt)) (set_heap w (heap w ++ [B]))
    = Ret (tt, set_heap w (heap w ++ [NB']))
    ∧ numbering B (Z.of_nat (length B)) 0 NB'.
Proof.
  intros HB Hb. pose proof (lookup_lt_Some _ _ _ Hb) as Hlt.
  match goal with |- ∃ NB', forM_ ?xs ?body ?w1 = _ ∧ _ =>
    destruct (forM__invariant body
      (λ k w', ∃ NB', w' = set_heap w (heap w ++ [NB'])
                      ∧ numbering B (Z.of_nat k) 0 NB')
      xs 0%nat w1) as (w' & E & NB' & -> & HN')
  end.
  - exists B. split; [reflexivity|]. split; [apply same_shape_refl|].
    intros r c cell Hcell. rewrite Hcell. f_equal.
    rewrite decide_False; [reflexivity|].
    unfold before.
    apply cellAt_Some in Hcell as (rw & [H0 _]%idx_Some & [H1 _]%idx_Some).
    simpl. lia.
  - intros i x w' Hx (NB1 & -> & HN1). simpl in HN1 |- *.
    apply lookup_seq in Hx as [-> Hi]. simpl.
    destruct (numbering_row w b B NB1 i HB Hb Hlt Hi HN1) as (NB2 & E2 & HN2).
    eauto.
  - exists NB'. split; [exact E|]. simpl in HN'. rewrite length_seq in HN'. exact HN'.
Qed.

(** The count at a position only looks at where the mines are. *)
Lemma countAdjacentMines_same_mines B B' r c :
  length B' = length B → length (B' !!! 0%nat) = length (B !!! 0%nat) →
  (∀ r c, (λ cell, bool_decide (content cell = mine)) <$> cellAt B' r c
          = (λ cell, bool_decide (content cell = mine)) <$> cellAt B r c) →
  countAdjacentMines B' r c = countAdjacentMines B r c.
Proof.
  intros H1 H2 Hm. unfold countAdjacentMines. rewrite H1, H2.
  repeat case_decide; try reflexivity.
  destruct (negb _); [reflexivity|].
  f_equal. generalize (getNeighbors r c (Z.of_nat (length B))
                         (Z.of_nat (length (B !!! 0%nat)))).
  intros ns. induction ns as [|n ns IH]; [reflexivity|].
  simpl. rewrite IH. f_equal.
  specialize (Hm (row n) (col n)).
  destruct (cellAt B' (row n) (col n)), (cellAt B (row n) (col n));
    simpl in *; congruence.
Qed.

(** The run of [calculateNumbers] on a grid: one new board, numbered. *)
Lemma calculateNumbers_run w b B :
  heap w !! b = Some B → rectangular B →
  ∃ NB, calculateNumbers b w = Ret (length (heap w), set_heap w (heap w ++ [NB]))
        ∧ same_shape B NB
        ∧ ∀ r c cell, cellAt B r c = Some cell →
            cellAt NB r c = Some (numbered B r c cell).
Proof.
  intros Hb HB. unfold calculateNumbers.
  rewrite (bind_ret _ _ _ _ _ (deref_run _ _ _ Hb)).
  case_decide as H1; [|case_decide as H2].
  - exists []. split; [reflexivity|].
    destruct B; [|discriminate]. split; [constructor|].
    intros r c cell Hcell. apply cellAt_Some in Hcell as (rw & [_ E]%idx_Some & _).
    rewrite lookup_nil in E. discriminate.
  - exists (map (λ _, []) B). split; [reflexivity|].
    unfold rectangular in HB. rewrite H2 in HB. split.
    + apply Forall2_map_diag_Forall. eapply Forall_impl; [exact HB|].
      intros rw Hrw. simpl. symmetry. exact Hrw.
    + intros r c cell Hcell. exfalso.
      apply cellAt_Some in Hcell as (rw & [_ E]%idx_Some & [_ E']%idx_Some).
      rewrite Forall_forall in HB.
      pose proof (HB rw (list_elem_of_lookup_2 _ _ _ E)) as Hlen.
      apply lookup_lt_Some in E'. lia.
  - rewrite bind_run, alloc_run, copyBoard_id.
    destruct (numbering_all w b B HB Hb) as (NB' & E & HS & HN).
    rewrite (bind_ret _ _ _ _ _ E). exists NB'.
    split; [reflexivity|]. split; [exact HS|].
    intros r c cell Hcell. rewrite (HN _ _ _ Hcell). f_equal.
    rewrite decide_True; [reflexivity|].
    apply (cellAt_valid B r c cell HB), isValidPosition_spec in Hcell.
    unfold before. lia.
Qed.

Lemma same_shape_cellAt B B' r c cell' :
  same_shape B B' → cellAt B' r c = Some cell' → is_Some (cellAt B r c).
Proof.
  intros HS (rw' & [? Er]%idx_Some & [? Ec]%idx_Some)%cellAt_Some.
  destruct (Forall2_lookup_r _ _ _ _ _ HS Er) as (rw & Erw & Hlen).
  simpl in Hlen. destruct (lookup_lt_is_Some_2 rw (Z.to_nat c)) as [x Hx].
  { apply lookup_lt_Some in Ec. lia. }
  exists x. apply cellAt_Some. exists rw. split; apply idx_Some; auto.
Qed.

(** C8 [calculateNumbers]: on a grid the call returns a new board with
    the shape of the input; a mine cell is as it was, and every other cell
    has as content the count of [countAdjacentMines] at its position, on
    the input and on the returned board alike.  Boards without rows or
    with empty rows come back empty in the same shape.  The input board
    stays in the store as it was. *)
Theorem calculateNumbers_spec (w : World) (b : Ref) (B : Board) :
  heap w !! b = Some B → rectangular B →
  ∃ B', calculateNumbers b w = Ret (length (heap w), set_heap w (heap w ++ [B']))
        ∧ (heap w ++ [B']) !! b = Some B
        ∧ same_shape B B'
        ∧ ∀ r c cell, cellAt B r c = Some cell →
            ∃ cell', cellAt B' r c = Some cell'
              ∧ (content cell = mine → cell' = cell)
              ∧ (content cell ≠ mine →
                 ∃ n, countAdjacentMines B r c = Some n
                      ∧ countAdjacentMines B' r c = Some n
                      ∧ cell' = mkCell (num n) (isRevealed cell) (isFlagged cell)).
Proof.
  intros Hb HB.
  destruct (calculateNumbers_run w b B Hb HB) as (NB & E & HS & Hcells).
  exists NB. split; [exact E|]. split.
  { rewrite lookup_app_l; [exact Hb | eapply lookup_lt_Some, Hb]. }
  split; [exact HS|].
  assert (Hsame : ∀ r c, countAdjacentMines NB r c = countAdjacentMines B r c).
  { intros r c. apply countAdjacentMines_same_mines.
    - symmetry. eapply Forall2_length, HS.
    - destruct HS as [|rw rw' B0 NB0 Hrw _]; [reflexivity | exact Hrw].
    - intros r' c'. destruct (cellAt B r' c') as [cell|] eqn:Hcell.
      + rewrite (Hcells _ _ _ Hcell). simpl. f_equal. unfold numbered.
        destruct (decide (content cell = mine)) as [Hm|Hm]; [reflexivity|].
        simpl. rewrite (bool_decide_eq_false_2 _ Hm). reflexivity.
      + destruct (cellAt NB r' c') as [cell'|] eqn:Hcell'; [|reflexivity].
        destruct (same_shape_cellAt _ _ _ _ _ HS Hcell') as [x Hx]. congruence. }
  intros r c cell Hcell. exists (numbered B r c cell).
  split; [exact (Hcells _ _ _ Hcell)|]. unfold numbered. split.
  - intros Hm. rewrite decide_True by exact Hm. reflexivity.
  - intros Hm. rewrite decide_False by exact Hm.
    destruct (countAdjacentMines_total B r c HB) as [n Hn].
    exists n. rewrite Hsame, Hn. auto.
Qed.

(** ** Mine placement *)

Lemma excludedSet_fold (ns : list Position) (s : gset (Z * Z)) :
  foldl (λ s n, add (key n) s) s ns = s ∪ list_to_set (key <$> ns).
Proof.
  revert s. induction ns as [|n ns IH]; intros s; simpl.
  - rewrite union_empty_r_L. reflexivity.
  - rewrite IH. unfold add. rewrite (union_comm_L {[key n]} s).
    rewrite <- union_assoc_L. reflexivity.
Qed.

Lemma elem_of_freeCells excluded rows cols p :
  p ∈ freeCells excluded rows cols ↔
  isValidPosition (row p) (col p) rows cols = true ∧ key p ∉ excluded.
Proof.
  unfold freeCells. rewrite list_elem_of_In, in_flat_map, isValidPosition_spec.
  split.
  - intros (r & Hr & Hp). apply in_flat_map in Hp as (c & Hc & Hp).
    apply list_elem_of_In, elem_of_seqZ in Hr. apply list_elem_of_In, elem_of_seqZ in Hc.
    case_decide as Hex; [destruct Hp|]. destruct Hp as [<-|[]]. simpl.
    split; [lia | exact Hex].
  - intros [[Hr Hc] Hex]. exists (row p). split.
    + apply list_elem_of_In, elem_of_seqZ. lia.
    + apply in_flat_map. exists (col p). split.
      * apply list_elem_of_In, elem_of_seqZ. lia.
      * rewrite decide_False by exact Hex. left. destruct p; reflexivity.
Qed.

Lemma NoDup_freeCells excluded rows cols : NoDup (freeCells excluded rows cols).
Proof.
  unfold freeCells.
  assert (Hrow : ∀ r cs p,
            p ∈ flat_map (λ c, if decide ((r, c) ∈ excluded) then []
                               else [mkPos r c]) cs → row p = r ∧ col p ∈ cs).
  { intros r cs p Hp. apply list_elem_of_In, in_flat_map in Hp as (c & Hc & Hp).
    case_decide; [destruct Hp|]. destruct Hp as [<-|[]].
    split; [reflexivity | apply list_elem_of_In, Hc]. }
  assert (Hinner : ∀ r cs, NoDup cs →
            NoDup (flat_map (λ c, if decide ((r, c) ∈ excluded) then []
                                  else [mkPos r c]) cs)).
  { intros r cs Hcs. induction Hcs as [|c cs Hc Hcs IH]; simpl; [constructor|].
    apply NoDup_app. split; [|split; [|exact IH]].
    - case_decide; [constructor | apply NoDup_singleton].
    - intros p Hp Hp'. apply Hrow in Hp' as [_ Hin].
      case_decide; [inversion Hp|]. apply list_elem_of_singleton in Hp as ->.
      exact (Hc Hin). }
  generalize (NoDup_seqZ 0 rows). generalize (seqZ 0 rows). intros rs Hrs.
  induction Hrs as [|r rs Hr Hrs IH]; simpl; [constructor|].
  apply NoDup_app. split; [apply Hinner, NoDup_seqZ|]. split; [|exact IH].
  intros p Hp Hp'. apply Hrow in Hp as [Hp _].
  apply list_elem_of_In, in_flat_map in Hp' as (r' & Hr' & Hp').
  apply list_elem_of_In, Hrow in Hp' as [Hp' _].
  apply Hr. apply list_elem_of_In. congruence.
Qed.

Lemma length_freeCells_none (X : gset (Z * Z)) rows cols :
  (∀ k, k ∉ X) →
  length (freeCells X rows cols) = (Z.to_nat rows * Z.to_nat cols)%nat.
Proof.
  intros HX. unfold freeCells.
  rewrite <- (length_seqZ 0 rows), <- (length_seqZ 0 cols).
  generalize (seqZ 0 rows) (seqZ 0 cols). intros rs cs.
  assert (Hinner : ∀ r,
            length (flat_map (λ c, if decide ((r, c) ∈ X) then []
                                   else [mkPos r c]) cs) = length cs).
  { intros r. induction cs as [|c cs IHc]; [reflexivity|].
    cbn [flat_map]. rewrite decide_False by apply HX.
    cbn [app length]. rewrite IHc. reflexivity. }
  induction rs as [|r rs IH]; [reflexivity|].
  cbn [flat_map]. rewrite length_app, IH, Hinner. reflexivity.
Qed.

Lemma elem_of_gridSet rows cols k :
  k ∈ gridSet rows cols ↔ isValidPosition k.1 k.2 rows cols = true.
Proof.
  unfold gridSet. rewrite elem_of_list_to_set, list_elem_of_fmap. split.
  - intros (p & -> & Hp). apply elem_of_freeCells in Hp as [Hp _]. exact Hp.
  - intros Hv. exists (mkPos k.1 k.2). split; [destruct k; reflexivity|].
    apply elem_of_freeCells. split; [exact Hv | apply not_elem_of_empty].
Qed.

Lemma size_gridSet rows cols :
  size (gridSet rows cols) = (Z.to_nat rows * Z.to_nat cols)%nat.
Proof.
  unfold gridSet. rewrite size_list_to_set.
  - rewrite length_fmap. apply length_freeCells_none, not_elem_of_empty.
  - apply NoDup_fmap_2; [apply _ | apply NoDup_freeCells].
Qed.

Lemma length_freeCells excluded rows cols :
  length (freeCells excluded rows cols) = size (gridSet rows cols ∖ excluded).
Proof.
  assert (E : gridSet rows cols ∖ excluded
              = list_to_set (key <$> freeCells excluded rows cols)).
  { apply set_eq. intros k.
    rewrite elem_of_list_to_set, list_elem_of_fmap, elem_of_difference, elem_of_gridSet.
    split.
    - intros [Hv Hex]. exists (mkPos k.1 k.2). split; [destruct k; reflexivity|].
      apply elem_of_freeCells. split; [exact Hv|]. destruct k; exact Hex.
    - intros (p & -> & Hp). apply elem_of_freeCells in Hp. exact Hp. }
  rewrite E, size_list_to_set.
  - rewrite length_fmap. reflexivity.
  - apply NoDup_fmap_2; [apply _ | apply NoDup_freeCells].
Qed.

(** The count [availableCells] is at most the number of free cells, and
    there is no free cell when it is negative. *)
Lemma available_le_free excl rows cols :
  0 ≤ rows → 0 ≤ cols →
  rows * cols - Z.of_nat (size (exclusionSet excl rows cols))
    ≤ Z.of_nat (length (freeCells (exclusionSet excl rows cols) rows cols))
  ∧ (rows * cols - Z.of_nat (size (exclusionSet excl rows cols)) < 0 →
     freeCells (exclusionSet excl rows cols) rows cols = []).
Proof.
  intros Hrows Hcols. rewrite length_freeCells.
  set (G := gridSet rows cols). set (X := exclusionSet excl rows cols).
  assert (HG : Z.of_nat (size G) = rows * cols).
  { subst G. rewrite size_gridSet. lia. }
  pose proof (size_difference_alt G X) as Hd.
  assert (Hle : (size (G ∩ X) ≤ size X)%nat)
    by apply subseteq_size, intersection_subseteq_r.
  assert (Hle' : (size (G ∩ X) ≤ size G)%nat)
    by apply subseteq_size, intersection_subseteq_l.
  assert (Hone : (size X ≤ size (G ∩ X) + 1)%nat).
  { subst X. destruct excl as [p|]; unfold exclusionSet; [|rewrite size_empty; lia].
    set (N := list_to_set (key <$> getNeighbors (row p) (col p) rows cols) : gset (Z * Z)).
    assert (HN : N ⊆ G ∩ ({[key p]} ∪ N)).
    { intros k Hk. apply elem_of_intersection.
      split; [|apply elem_of_union; right; exact Hk].
      subst N. apply elem_of_list_to_set, list_elem_of_fmap in Hk as (n & -> & Hn).
      apply elem_of_gridSet. simpl. exact (getNeighbors_valid _ _ _ _ _ Hn). }
    apply subseteq_size in HN.
    pose proof (size_union_alt ({[key p]} : gset (Z * Z)) N) as Hu.
    rewrite size_singleton in Hu.
    assert ((size (N ∖ {[key p]}) ≤ size N)%nat)
      by (apply subseteq_size, subseteq_difference_l; reflexivity).
    lia. }
  split; [lia|]. intros Hneg.
  assert (Hz : size (G ∖ X) = 0%nat) by lia.
  subst G X. rewrite <- length_freeCells in Hz.
  destruct (freeCells _ rows cols); [reflexivity | discriminate].
Qed.

(** The index drawn for the swap at [i] lies in [0, i]. *)
Lemma draw_in_range (u : Q) (n : Z) :
  (0 <= u)%Q → (u < 1)%Q → 0 < n → 0 ≤ Qfloor (u * inject_Z n) < n.
Proof.
  intros H0 H1 Hn.
  assert (Hn' : (inject_Z 0 < inject_Z n)%Q) by (rewrite <- Zlt_Qlt; exact Hn).
  split.
  - change 0 with (Qfloor (inject_Z 0)). apply Qfloor_resp_le.
    apply Qmult_le_0_compat; [exact H0 | apply Qlt_le_weak, Hn'].
  - rewrite Zlt_Qlt. eapply Qle_lt_trans; [apply Qfloor_le|].
    rewrite <- (Qmult_1_l (inject_Z n)) at 2.
    apply Qmult_lt_compat_r; assumption.
Qed.

Lemma insert_swap_Permutation {A} (t : list A) j h y :
  t !! j = Some y → y :: <[j := h]> t ≡ₚ h :: t.
Proof.
  revert j. induction t as [|z t IH]; intros [|j] Hj; simpl in *; try discriminate.
  - injection Hj as ->. apply perm_swap.
  - rewrite perm_swap. rewrite (IH j Hj). apply perm_swap.
Qed.

Lemma swap_Permutation {A} `{!Inhabited A} (a : list A) i j :
  (i < length a)%nat → (j < length a)%nat → swap a i j ≡ₚ a.
Proof.
  intros Hi Hj. unfold swap.
  destruct (lookup_lt_is_Some_2 a i Hi) as [x Hx].
  destruct (lookup_lt_is_Some_2 a j Hj) as [y Hy].
  rewrite (list_lookup_total_correct _ _ _ Hx), (list_lookup_total_correct _ _ _ Hy).
  clear Hi Hj. revert i j Hx Hy.
  induction a as [|h t IH]; intros [|i] [|j] Hx Hy; simpl in *; try discriminate.
  - injection Hx as ->. injection Hy as ->. reflexivity.
  - injection Hx as ->. apply insert_swap_Permutation, Hy.
  - injection Hy as ->. apply insert_swap_Permutation, Hx.
  - constructor. apply IH; assumption.
Qed.

Lemma swap_length {A} `{!Inhabited A} (a : list A) i j :
  length (swap a i j) = length a.
Proof. unfold swap. rewrite !length_insert. reflexivity. Qed.

Lemma fair_tail w : fair w → fair (mkWorld (heap w) (λ k, entropy w (S k))).
Proof. intros H k. apply (H (S k)). Qed.

(** With a fair source the shuffle returns a permutation of the array
    and leaves the store alone. *)
Lemma shuffle_run (i : nat) :
  ∀ a w, fair w → (i = 0 ∨ i < length a)%nat →
    ∃ a' w', shuffle i a w = Ret (a', w') ∧ a' ≡ₚ a
             ∧ heap w' = heap w ∧ fair w'.
Proof.
  induction i as [|i IH]; intros a w Hfair Hi.
  - exists a, w. auto.
  - assert (Hlt : (S i < length a)%nat) by lia. clear Hi.
    cbn [shuffle]. rewrite bind_run. unfold Math_random at 1.
    destruct (Hfair 0%nat) as [Hu0 Hu1].
    pose proof (draw_in_range (entropy w 0%nat) (Z.of_nat (S i) + 1) Hu0 Hu1
                  ltac:(lia)) as Hj.
    set (j := Z.to_nat (Qfloor (entropy w 0%nat * inject_Z (Z.of_nat (S i) + 1)))) in *.
    destruct (IH (swap a (S i) j) (mkWorld (heap w) (λ k, entropy w (S k))))
      as (a' & w' & E & Hperm & Hheap & Hfair').
    + apply fair_tail, Hfair.
    + rewrite swap_length. lia.
    + exists a', w'. split; [exact E|]. split; [|split; assumption].
      rewrite Hperm. apply swap_Permutation; [exact Hlt | lia].
Qed.

Lemma slice0_length {A} (a : list A) (n : Z) :
  n ≤ Z.of_nat (length a) → (n < 0 → a = []) →
  Z.of_nat (length (slice0 a n)) = Z.max 0 n.
Proof.
  intros Hle Hneg. unfold slice0. rewrite length_take.
  destruct (n <? 0) eqn:Hn.
  - apply Z.ltb_lt in Hn. rewrite (Hneg Hn). simpl. lia.
  - apply Z.ltb_ge in Hn. lia.
Qed.

Lemma slice0_sublist {A} (a : list A) (n : Z) : slice0 a n `sublist_of` a.
Proof. unfold slice0. apply sublist_take. Qed.

Lemma generateMinePositions_excluded rows cols mineCount excl w :
  generateMinePositions rows cols mineCount excl w =
  (shuffled ← shuffle (length (freeCells (exclusionSet excl rows cols) rows cols) - 1)%nat
                 (freeCells (exclusionSet excl rows cols) rows cols);
   mret (slice0 shuffled
           (Z.min mineCount
              (rows * cols - Z.of_nat (size (exclusionSet excl rows cols)))))) w.
Proof.
  unfold generateMinePositions.
  assert (E : match excl with
              | Some p => foldl (λ s neighbor, add (key neighbor) s) (add (key p) ∅)
                            (getNeighbors (row p) (col p) rows cols)
              | None => ∅
              end = exclusionSet excl rows cols).
  { destruct excl as [p|]; [|reflexivity]. unfold exclusionSet.
    rewrite excludedSet_fold. unfold add. rewrite union_empty_r_L. reflexivity. }
  rewrite E. reflexivity.
Qed.

(** The run of [generateMinePositions] with a fair source: the first
    cells of a permutation of the free cells; the store is not touched. *)
Lemma generateMinePositions_run w rows cols mineCount excl :
  fair w → 0 ≤ rows → 0 ≤ cols → 0 ≤ mineCount →
  ∃ a w',
    generateMinePositions rows cols mineCount excl w
    = Ret (slice0 a (Z.min mineCount
                       (rows * cols - Z.of_nat (size (exclusionSet excl rows cols)))),
           w')
    ∧ heap w' = heap w
    ∧ a ≡ₚ freeCells (exclusionSet excl rows cols) rows cols
    ∧ Z.of_nat (length (slice0 a
          (Z.min mineCount
             (rows * cols - Z.of_nat (size (exclusionSet excl rows cols))))))
      = Z.max 0 (Z.min mineCount
                   (rows * cols - Z.of_nat (size (exclusionSet excl rows cols)))).
Proof.
  intros Hfair Hrows Hcols Hmines.
  rewrite generateMinePositions_excluded.
  set (X := exclusionSet excl rows cols).
  destruct (shuffle_run (length (freeCells X rows cols) - 1) (freeCells X rows cols)
              w Hfair ltac:(lia)) as (a' & w' & E & Hperm & Hheap & _).
  rewrite (bind_ret _ _ _ _ _ E), ret_run.
  destruct (available_le_free excl rows cols Hrows Hcols) as [Hle Hneg].
  fold X in Hle, Hneg.
  exists a', w'. split; [reflexivity|]. split; [exact Hheap|]. split; [exact Hperm|].
  apply slice0_length.
  - rewrite (Permutation_length Hperm). lia.
  - intros Hn. apply Permutation_nil_r. rewrite Hperm. rewrite Hneg; [reflexivity|lia].
Qed.

Lemma drawn_positions (a : list Position) (n : Z) excluded rows cols :
  a ≡ₚ freeCells excluded rows cols →
  NoDup (slice0 a n)
  ∧ ∀ p, p ∈ slice0 a n →
      isValidPosition (row p) (col p) rows cols = true ∧ key p ∉ excluded.
Proof.
  intros Hperm. split.
  - eapply sublist_NoDup; [|apply slice0_sublist].
    rewrite Hperm. apply NoDup_freeCells.
  - intros p Hp. apply elem_of_freeCells. rewrite <- Hperm.
    eapply elem_of_sublist; [exact Hp | apply slice0_sublist].
Qed.

(** C4 [generateMinePositions], as the code has it: for non-negative
    [rows], [cols] and [mineCount] and a fair random source the call
    returns, without raising and without touching the store, a sequence of
    pairwise distinct in-bounds positions outside the exclusion set; its
    length is [min(mineCount, rows*cols - |exclusionSet|)], or 0 when that
    number is negative. *)
Theorem generateMinePositions_spec (w : World) (rows cols mineCount : Z)
    (excludePosition : option Position) :
  fair w → 0 ≤ rows → 0 ≤ cols → 0 ≤ mineCount →
  ∃ ps w',
    generateMinePositions rows cols mineCount excludePosition w = Ret (ps, w')
    ∧ heap w' = heap w
    ∧ Z.of_nat (length ps)
      = Z.max 0 (Z.min mineCount
                   (rows * cols
                    - Z.of_nat (size (exclusionSet excludePosition rows cols))))
    ∧ NoDup ps
    ∧ ∀ p, p ∈ ps →
        isValidPosition (row p) (col p) rows cols = true
        ∧ key p ∉ exclusionSet excludePosition rows cols.
Proof.
  intros Hfair Hrows Hcols Hmines.
  destruct (generateMinePositions_run w rows cols mineCount excludePosition
              Hfair Hrows Hcols Hmines) as (a & w' & E & Hheap & Hperm & Hlen).
  destruct (drawn_positions a
              (Z.min mineCount
                 (rows * cols
                  - Z.of_nat (size (exclusionSet excludePosition rows cols))))
              _ _ _ Hperm) as [Hnd Hin].
  eexists _, w'. split; [exact E|]. auto.
Qed.

Lemma fair_still_world : fair still_world.
Proof. intros k. split; [apply Qle_refl | reflexivity]. Defined.

Lemma generateMinePositions_spec_witness :
  fair still_world ∧ 0 ≤ 3 ∧ 0 ≤ 3 ∧ 0 ≤ 10
  ∧ ∃ ps w',
      generateMinePositions 3 3 10 (Some (mkPos 1 1)) still_world = Ret (ps, w')
      ∧ heap w' = heap still_world
      ∧ Z.of_nat (length ps)
        = Z.max 0 (Z.min 10
                     (3 * 3 - Z.of_nat (size (exclusionSet (Some (mkPos 1 1)) 3 3))))
      ∧ NoDup ps
      ∧ ∀ p, p ∈ ps →
          isValidPosition (row p) (col p) 3 3 = true
          ∧ key p ∉ exclusionSet (Some (mkPos 1 1)) 3 3.
Proof.
  split; [exact fair_still_world|]. split; [lia|]. split; [lia|]. split; [lia|].
  apply (generateMinePositions_spec still_world 3 3 10 (Some (mkPos 1 1)));
    [exact fair_still_world | lia | lia | lia].
Defined.

(** C4, as the specification has it, fails where the exclusion set is
    larger than the board: on the board without cells, with a position to
    exclude, the formula of the count gives -1 and the call returns the
    empty sequence. *)
Lemma generateMinePositions_count_below_zero :
  fair still_world
  ∧ ∃ ps w',
      generateMinePositions 0 0 0 (Some (mkPos 0 0)) still_world = Ret (ps, w')
      ∧ Z.of_nat (length ps)
        ≠ Z.min 0 (0 * 0 - Z.of_nat (size (exclusionSet (Some (mkPos 0 0)) 0 0))).
Proof.
  split; [exact fair_still_world|].
  eexists _, _. split; [reflexivity|]. vm_compute. discriminate.
Qed.

(** ** Placing the mines *)

Lemma cellAt_elem_of B r c cell :
  cellAt B r c = Some cell → ∃ rw, rw ∈ B ∧ cell ∈ rw.
Proof.
  intros (rw & [_ Hr]%idx_Some & [_ Hc]%idx_Some)%cellAt_Some.
  exists rw. split; eapply list_elem_of_lookup_2; eassumption.
Qed.

Lemma mineCells_zero B :
  mineCells B = 0%nat ↔ ∀ rw cell, rw ∈ B → cell ∈ rw → content cell ≠ mine.
Proof.
  unfold mineCells. split.
  - intros Hz rw cell Hrw Hcell Hm.
    assert (Hin : cell ∈ filter (λ cell, content cell = mine) (concat B)).
    { apply list_elem_of_filter. split; [exact Hm|].
      apply list_elem_of_In, in_concat. exists rw.
      split; apply list_elem_of_In; assumption. }
    destruct (filter _ (concat B)); [inversion Hin | discriminate].
  - intros H. destruct (filter _ (concat B)) as [|x l] eqn:E; [reflexivity|].
    exfalso. assert (Hx : x ∈ filter (λ cell, content cell = mine) (concat B))
      by (rewrite E; left).
    apply list_elem_of_filter in Hx as [Hm Hx].
    apply list_elem_of_In, in_concat in Hx as (rw & Hrw & Hx).
    apply (H rw x); [apply list_elem_of_In, Hrw | apply list_elem_of_In, Hx | exact Hm].
Qed.

Lemma placeMines_run w b B ps :
  heap w !! b = Some B →
  (∀ p, p ∈ ps → is_Some (cellAt B (row p) (col p))) →
  ∃ PB, placeMines b ps w = Ret (length (heap w), set_heap w (heap w ++ [PB]))
        ∧ placed B ps PB
        ∧ (NoDup ps → mineCells B = 0%nat → mineCells PB = length ps).
Proof.
  intros Hb Hps. unfold placeMines.
  rewrite (bind_ret _ _ _ _ _ (deref_run _ _ _ Hb)).
  rewrite bind_run, alloc_run, copyBoard_id.
  match goal with |- context [forM_ ps ?body] =>
    destruct (forM__invariant body
      (λ k w', ∃ PB, w' = set_heap w (heap w ++ [PB])
                     ∧ placed B (take k ps) PB
                     ∧ (NoDup ps → mineCells B = 0%nat → mineCells PB = k))
      ps 0%nat (set_heap w (heap w ++ [B]))) as (w' & E & PB & -> & HP & HC)
  end.
  - exists B. split; [reflexivity|]. split; [|intros _ Hz; exact Hz].
    split; [apply same_shape_refl|]. intros r c cell Hcell.
    rewrite decide_False by (rewrite take_0; apply not_elem_of_nil). exact Hcell.
  - intros i p w' Hp (PB & -> & [HS HP] & HC). simpl in HP, HC |- *.
    destruct (Hps p (list_elem_of_lookup_2 _ _ _ Hp)) as [cell Hcell].
    pose proof (HP _ _ _ Hcell) as Hcur.
    assert (Hw1 : heap (set_heap w (heap w ++ [PB])) !! length (heap w) = Some PB)
      by apply lookup_fresh.
    rewrite (assign_run _ _ _ _ _ _ _ Hw1 Hcur).
    simpl heap. rewrite set_heap_set_heap, insert_fresh.
    eexists. split; [reflexivity|]. eexists. split; [reflexivity|].
    set (cur := if decide (mkPos (row p) (col p) ∈ take i ps)
                then mkCell mine (isRevealed cell) (isFlagged cell) else cell) in *.
    assert (Hnew : mkCell mine (isRevealed cur) (isFlagged cur)
                   = mkCell mine (isRevealed cell) (isFlagged cell))
      by (subst cur; case_decide; reflexivity).
    rewrite Hnew. rewrite (take_S_r _ _ _ Hp). split; [split|].
    + apply same_shape_setCell, HS.
    + intros r c cell' Hcell'.
      destruct (decide ((r, c) = (row p, col p))) as [[= -> ->]|Hne].
      * rewrite (cellAt_setCell_eq _ _ _ _ _ Hcur).
        assert (cell' = cell) as -> by congruence.
        rewrite decide_True; [reflexivity|].
        apply elem_of_app. right. destruct p; left.
      * rewrite (cellAt_setCell_ne _ _ _ _ _ _ Hne), (HP _ _ _ Hcell').
        f_equal. destruct (decide (mkPos r c ∈ take i ps)) as [Hin|Hin].
        -- rewrite decide_True; [reflexivity|]. apply elem_of_app. left. exact Hin.
        -- rewrite decide_False; [reflexivity|]. intros [Hin'|Hin']%elem_of_app.
           ++ exact (Hin Hin').
           ++ apply list_elem_of_singleton in Hin'. apply Hne.
              rewrite <- Hin'. reflexivity.
    + intros Hnd Hz. specialize (HC Hnd Hz).
      assert (Hfresh : mkPos (row p) (col p) ∉ take i ps).
      { intros (j & Hj & Hlt)%elem_of_take. destruct p as [pr pc]. simpl in Hj.
        pose proof (NoDup_lookup _ _ _ _ Hnd Hj Hp). lia. }
      subst cur. rewrite decide_False in Hcur by exact Hfresh.
      destruct (cellAt_elem_of _ _ _ _ Hcell) as (rw & Hrw & Hin).
      pose proof (proj1 (mineCells_zero B) Hz rw cell Hrw Hin) as Hm.
      pose proof (filter_setCell (λ x, content x = mine) PB (row p) (col p) cell
                    (mkCell mine (isRevealed cell) (isFlagged cell)) Hcur) as Hf.
      rewrite decide_False in Hf by exact Hm.
      rewrite decide_True in Hf by reflexivity.
      unfold mineCells in *. lia.
  - exists PB. rewrite (bind_ret _ _ _ _ _ E), ret_run. split; [reflexivity|].
    simpl in HP, HC. rewrite firstn_all in HP. split; [exact HP | exact HC].
Qed.

Lemma same_shape_rectangular B B' : same_shape B B' → rectangular B → rectangular B'.
Proof.
  intros HS HB. unfold rectangular in *.
  assert (H0 : length (B' !!! 0%nat) = length (B !!! 0%nat))
    by (destruct HS as [|rw rw' ? ? Hrw _]; [reflexivity | exact Hrw]).
  rewrite H0. rewrite Forall_forall in *. intros rw' Hin.
  apply list_elem_of_lookup in Hin as [i Hi].
  destruct (Forall2_lookup_r _ _ _ _ _ HS Hi) as (rw & Hrw & Hlen).
  simpl in Hlen. rewrite Hlen. apply HB. eapply list_elem_of_lookup_2, Hrw.
Qed.

(** From a statement cell by cell to one on the rows. *)
Lemma cellwise_Forall2 (R : CellState → CellState → Prop) (B B' : Board) :
  same_shape B B' →
  (∀ r c cell, cellAt B r c = Some cell →
     ∃ cell', cellAt B' r c = Some cell' ∧ R cell cell') →
  Forall2 (Forall2 R) B B'.
Proof.
  intros HS H. apply Forall2_same_length_lookup_2; [eapply Forall2_length, HS|].
  intros i rw rw' Hrw Hrw'.
  pose proof (Forall2_lookup_lr _ _ _ _ _ _ HS Hrw Hrw') as Hlen. simpl in Hlen.
  apply Forall2_same_length_lookup_2; [symmetry; exact Hlen|].
  intros j x y Hx Hy.
  destruct (H (Z.of_nat i) (Z.of_nat j) x) as (y' & Hy' & HR).
  - rewrite cellAt_of_nat, Hrw. exact Hx.
  - rewrite cellAt_of_nat, Hrw' in Hy'. simpl in Hy'.
    assert (y' = y) as -> by congruence. exact HR.
Qed.

Lemma mineCells_same B B' :
  Forall2 (Forall2 (λ x y, content y = mine ↔ content x = mine)) B B' →
  mineCells B' = mineCells B.
Proof.
  unfold mineCells. induction 1 as [|rw rw' B B' Hrw _ IH]; [reflexivity|].
  simpl. rewrite !filter_app, !length_app, IH. f_equal.
  clear -Hrw. induction Hrw as [|x y rw rw' Hxy _ IH]; [reflexivity|].
  rewrite !filter_cons.
  destruct (decide (content y = mine)), (decide (content x = mine));
    simpl; try rewrite IH; try reflexivity; tauto.
Qed.

Lemma replicate_rectangular (n m : nat) (x : CellState) :
  rectangular (replicate n (replicate m x)).
Proof.
  unfold rectangular. destruct n as [|n]; [constructor|].
  apply Forall_forall. intros rw Hrw. apply elem_of_replicate in Hrw as [-> _].
  reflexivity.
Qed.

Lemma fair_set_heap w h : fair w → fair (set_heap w h).
Proof. intros H. exact H. Qed.

(** C3 [createBoard]: for positive [rows] and [cols], a non-negative
    [mineCount], a valid position to exclude and a fair random source, the
    call returns a board with exactly
    [min(mineCount, rows*cols - |{excludePosition} ∪ neighbors|)] mine
    cells, none of them at the excluded position or at a neighbor of it. *)
Theorem createBoard_spec (w : World) (config : GameConfig) (p : Position) :
  fair w → 0 < rows config → 0 < cols config → 0 ≤ mineCount config →
  isValidPosition (row p) (col p) (rows config) (cols config) = true →
  ∃ b w' B,
    createBoard config (Some p) w = Ret (b, w') ∧ heap w' !! b = Some B
    ∧ Z.of_nat (mineCells B)
      = Z.min (mineCount config)
          (rows config * cols config
           - Z.of_nat (size ({[key p]} ∪ list_to_set
               (key <$> getNeighbors (row p) (col p) (rows config) (cols config))
               : gset (Z * Z))))
    ∧ ∀ q, q = p ∨ q ∈ getNeighbors (row p) (col p) (rows config) (cols config) →
        ∃ cell, cellAt B (row q) (col q) = Some cell ∧ content cell ≠ mine.
Proof.
  destruct config as [R C mc]. simpl. intros Hfair HR HC Hmc Hp.
  unfold createBoard. rewrite bind_run. unfold createEmptyBoard. rewrite alloc_run.
  set (E := replicate (Z.to_nat R) (replicate (Z.to_nat C) createEmptyCell)).
  set (w1 := set_heap w (heap w ++ [E])).
  destruct (generateMinePositions_run w1 R C mc (Some p))
    as (a & w2 & Egen & Hheap2 & Hperm & Hlen); try lia.
  { apply fair_set_heap, Hfair. }
  destruct (drawn_positions a
              (Z.min mc (R * C - Z.of_nat (size (exclusionSet (Some p) R C))))
              _ _ _ Hperm) as [Hnd Hps].
  set (ps := slice0 a _) in *.
  rewrite (bind_ret _ _ _ _ _ Egen).
  assert (HE : rectangular E) by apply replicate_rectangular.
  assert (HlenE : length E = Z.to_nat R) by apply length_replicate.
  assert (Hlen0 : length (E !!! 0%nat) = Z.to_nat C).
  { subst E. destruct (Z.to_nat R) eqn:HRn; [lia|]. simpl. apply length_replicate. }
  assert (Hcell : ∀ r c, isValidPosition r c R C = true →
            cellAt E r c = Some createEmptyCell).
  { intros r c Hv. destruct (rectangular_cellAt E r c HE) as [cell Hcell].
    - rewrite HlenE, Hlen0, !Z2Nat.id by lia. exact Hv.
    - rewrite Hcell. f_equal.
      destruct (cellAt_elem_of _ _ _ _ Hcell) as (rw & Hrw & Hin).
      apply elem_of_replicate in Hrw as [-> _].
      apply elem_of_replicate in Hin as [-> _]. reflexivity. }
  assert (HzE : mineCells E = 0%nat).
  { apply mineCells_zero. intros rw cell Hrw Hin.
    apply elem_of_replicate in Hrw as [-> _].
    apply elem_of_replicate in Hin as [-> _]. discriminate. }
  assert (HbE : heap w2 !! length (heap w) = Some E)
    by (rewrite Hheap2; apply lookup_fresh).
  destruct (placeMines_run w2 (length (heap w)) E ps HbE)
    as (PB & Eplace & [HS HP] & Hcount).
  { intros q Hq. rewrite (Hcell _ _ (proj1 (Hps q Hq))). eauto. }
  rewrite (bind_ret _ _ _ _ _ Eplace).
  set (w3 := set_heap w2 (heap w2 ++ [PB])).
  assert (HbP : heap w3 !! length (heap w2) = Some PB) by apply lookup_fresh.
  destruct (calculateNumbers_run w3 (length (heap w2)) PB HbP
              (same_shape_rectangular _ _ HS HE))
    as (FB & Ecalc & HS' & HF).
  rewrite (bind_ret _ _ _ _ _ Ecalc), ret_run.
  eexists _, _, FB. split; [reflexivity|]. split; [apply lookup_fresh|]. split.
  - rewrite (mineCells_same PB FB), (Hcount Hnd HzE), Hlen.
    + unfold exclusionSet.
      set (X := ({[key p]} ∪ list_to_set (key <$> getNeighbors (row p) (col p) R C)
                 : gset (Z * Z))).
      assert (HX : (size X ≤ size (gridSet R C))%nat).
      { apply subseteq_size. intros k Hk. apply elem_of_gridSet.
        apply elem_of_union in Hk as [Hk|Hk].
        - apply elem_of_singleton in Hk as ->. exact Hp.
        - apply elem_of_list_to_set, list_elem_of_fmap in Hk as (n & -> & Hn).
          exact (getNeighbors_valid _ _ _ _ _ Hn). }
      rewrite size_gridSet in HX. nia.
    + apply cellwise_Forall2; [exact HS'|]. intros r c cell Hcl.
      exists (numbered PB r c cell). split; [exact (HF r c cell Hcl)|].
      unfold numbered. destruct (decide (content cell = mine)) as [Hm|Hm]; [tauto|].
      simpl. split; [discriminate | tauto].
  - intros q Hq.
    assert (Hqv : isValidPosition (row q) (col q) R C = true)
      by (destruct Hq as [->|Hq]; [exact Hp | exact (getNeighbors_valid _ _ _ _ _ Hq)]).
    assert (Hqx : key q ∈ exclusionSet (Some p) R C).
    { unfold exclusionSet. apply elem_of_union. destruct Hq as [->|Hq].
      - left. apply elem_of_singleton. reflexivity.
      - right. apply elem_of_list_to_set, list_elem_of_fmap. eauto. }
    assert (Hqps : mkPos (row q) (col q) ∉ ps).
    { intros Hin. destruct (Hps _ Hin) as [_ Hout]. apply Hout.
      destruct q; exact Hqx. }
    pose proof (HP _ _ _ (Hcell _ _ Hqv)) as HPq.
    rewrite decide_False in HPq by exact Hqps.
    eexists. split; [exact (HF _ _ _ HPq)|]. discriminate.
Qed.

Lemma createBoard_spec_witness :
  fair still_world ∧ 0 < 10 ∧ 0 < 10 ∧ 0 ≤ 15
  ∧ isValidPosition 2 2 10 10 = true
  ∧ ∃ b w' B,
      createBoard (mkConfig 10 10 15) (Some (mkPos 2 2)) still_world = Ret (b, w')
      ∧ heap w' !! b = Some B
      ∧ Z.of_nat (mineCells B)
        = Z.min 15
            (10 * 10
             - Z.of_nat (size ({[key (mkPos 2 2)]} ∪ list_to_set
                 (key <$> getNeighbors 2 2 10 10) : gset (Z * Z))))
      ∧ ∀ q, q = mkPos 2 2 ∨ q ∈ getNeighbors 2 2 10 10 →
          ∃ cell, cellAt B (row q) (col q) = Some cell ∧ content cell ≠ mine.
Proof.
  split; [exact fair_still_world|]. split; [lia|]. split; [lia|]. split; [lia|].
  split; [reflexivity|].
  apply (createBoard_spec still_world (mkConfig 10 10 15) (mkPos 2 2));
    [exact fair_still_world | simpl; lia | simpl; lia | simpl; lia | reflexivity].
Defined.

(** ** Flood fill *)

Lemma reach_open B p q : reach B p q → openAt B q.
Proof. destruct 1; assumption. Qed.

Lemma reach_start B p q : reach B p q → validIn B p ∧ openAt B p.
Proof. induction 1; auto. Qed.

Lemma reach_no_spread B p q : reach B p q → ¬ spreadsAt B p → q = p.
Proof.
  induction 1 as [|x y Hx IHx Hsx]; intros Hns; [reflexivity|].
  specialize (IHx Hns). subst x. contradiction.
Qed.

Lemma open_not_revealed B q : openAt B q → ¬ revealedAt B q.
Proof. intros (x & Hx & Hr & _) (y & Hy & Hr'). congruence. Qed.

Section frame.
Context (B A : Board) (Hg : grows B A).

Lemma grows_neighborsIn q : neighborsIn A q = neighborsIn B q.
Proof.
  unfold neighborsIn. rewrite (grows_length _ _ Hg), (grows_length0 _ _ Hg).
  reflexivity.
Qed.

Lemma grows_validIn q : validIn A q ↔ validIn B q.
Proof.
  unfold validIn. rewrite (grows_length _ _ Hg), (grows_length0 _ _ Hg).
  reflexivity.
Qed.

Lemma grows_spreadsAt q : spreadsAt A q ↔ spreadsAt B q.
Proof.
  unfold spreadsAt, cellOf. split.
  - intros (y & Hy & Hs).
    destruct (grows_cellAt_r _ _ _ _ _ Hg Hy) as (x & Hx & Hxy).
    exists x. split; [exact Hx|].
    destruct (reveal_step_frame _ _ Hxy) as (<- & _). exact Hs.
  - intros (x & Hx & Hs).
    destruct (grows_cellAt_l _ _ _ _ _ Hg Hx) as (y & Hy & Hxy).
    exists y. split; [exact Hy|].
    destruct (reveal_step_frame _ _ Hxy) as (-> & _). exact Hs.
Qed.

Lemma grows_revealedAt q : revealedAt B q → revealedAt A q.
Proof.
  intros (x & Hx & Hr).
  destruct (grows_cellAt_l _ _ _ _ _ Hg Hx) as (y & Hy & Hxy).
  exists y. split; [exact Hy|].
  destruct (reveal_step_frame _ _ Hxy) as (_ & _ & H). exact (H Hr).
Qed.

Lemma grows_openAt q : openAt A q → openAt B q.
Proof.
  intros (y & Hy & Hr & Hf).
  destruct (grows_cellAt_r _ _ _ _ _ Hg Hy) as (x & Hx & Hxy).
  exists x. split; [exact Hx|].
  destruct Hxy as [->|(_ & _ & ->)]; [auto | discriminate].
Qed.

Lemma grows_open_or_revealed q : openAt B q → openAt A q ∨ revealedAt A q.
Proof.
  intros (x & Hx & Hr & Hf).
  destruct (grows_cellAt_l _ _ _ _ _ Hg Hx) as (y & Hy & Hxy).
  destruct Hxy as [->|(_ & _ & ->)].
  - left. exists x. auto.
  - right. eexists. split; [exact Hy | reflexivity].
Qed.

(** What a later reveal at a neighbor of [p] gets to, the reveal at [p]
    gets to. *)
Lemma reach_transfer p n q :
  reach B p p → spreadsAt B p → n ∈ neighborsIn B p →
  reach A n q → reach B p q.
Proof.
  intros Hp Hs Hn. induction 1 as [Hv Ho|q q' _ IH Hsq Hq' Ho].
  - eapply reach_step; [exact Hp | exact Hs | exact Hn | apply grows_openAt, Ho].
  - eapply reach_step; [exact IH | | |].
    + apply grows_spreadsAt, Hsq.
    + rewrite <- grows_neighborsIn. exact Hq'.
    + apply grows_openAt, Ho.
Qed.
End frame.

Lemma neighborsIn_valid B q n : n ∈ neighborsIn B q → validIn B n.
Proof. apply getNeighbors_valid. Qed.

(** The loop over the neighbors of a spreading cell [p], given what the
    calls in it do. *)
Lemma flood_fold fuel (B : Board) (p : Position) :
  (∀ A r c A', revealV fuel A r c = Ret A' →
     ∀ q, revealedAt A' q ↔ revealedAt A q ∨ reach A (mkPos r c) q) →
  reach B p p → spreadsAt B p →
  ∀ ns A B',
    (∀ n, n ∈ ns → n ∈ neighborsIn B p) →
    grows B A →
    (∀ q, revealedAt A q → revealedAt B q ∨ reach B p q) →
    (∀ x y, revealedAt A x → ¬ revealedAt B x → x ≠ p → spreadsAt B x →
            y ∈ neighborsIn B x → openAt B y → revealedAt A y) →
    foldV (λ A n, revealV fuel A (row n) (col n)) A ns = Ret B' →
    grows A B'
    ∧ (∀ q, revealedAt B' q → revealedAt B q ∨ reach B p q)
    ∧ (∀ x y, revealedAt B' x → ¬ revealedAt B x → x ≠ p → spreadsAt B x →
              y ∈ neighborsIn B x → openAt B y → revealedAt B' y)
    ∧ (∀ n, n ∈ ns → openAt B n → revealedAt B' n).
Proof.
  intros IH Hp Hs. induction ns as [|n ns IHns]; intros A B' Hns Hg I2 I3 E.
  - simpl in E. injection E as <-. split; [apply grows_refl|].
    split; [exact I2|]. split; [exact I3|]. intros n Hn. inversion Hn.
  - simpl in E. destruct (revealV fuel A (row n) (col n)) as [A1| |] eqn:E1;
      try discriminate.
    pose proof (revealV_grows _ _ _ _ _ E1) as Hg1.
    pose proof (IH _ _ _ _ E1) as Hrev. replace (mkPos (row n) (col n)) with n in Hrev
      by (destruct n; reflexivity).
    assert (Hnb : n ∈ neighborsIn B p) by (apply Hns; left).
    destruct (IHns A1 B') as (Hg' & I2' & I3' & Hdone).
    + intros n' Hn'. apply Hns. right. exact Hn'.
    + eapply grows_trans; eassumption.
    + intros q [Hq|Hq]%Hrev; [exact (I2 q Hq)|]. right.
      eapply reach_transfer; eassumption.
    + intros x y [Hx|Hx]%Hrev Hnx Hxp Hsx Hy Hoy.
      * apply (grows_revealedAt _ _ Hg1). eapply I3; eassumption.
      * destruct (grows_open_or_revealed _ _ Hg y Hoy) as [Ho|Hr].
        -- apply Hrev. right. eapply reach_step; [exact Hx | | | exact Ho].
           ++ apply (grows_spreadsAt _ _ Hg), Hsx.
           ++ rewrite (grows_neighborsIn _ _ Hg). exact Hy.
        -- apply (grows_revealedAt _ _ Hg1), Hr.
    + exact E.
    + split; [eapply grows_trans; eassumption|]. split; [exact I2'|].
      split; [exact I3'|]. intros n' Hn' Ho.
      apply elem_of_cons in Hn' as [->|Hn']; [|exact (Hdone n' Hn' Ho)].
      apply (grows_revealedAt _ _ Hg'), Hrev.
      destruct (grows_open_or_revealed _ _ Hg n Ho) as [Ho'|Hr]; [|left; exact Hr].
      right. apply reach_here; [|exact Ho'].
      apply (grows_validIn _ _ Hg). eapply neighborsIn_valid, Hnb.
Qed.

Lemma revealedAt_setCell B r c cell q :
  cellAt B r c = Some cell →
  revealedAt (setCell B r c (mkCell (content cell) true (isFlagged cell))) q
  ↔ revealedAt B q ∨ q = mkPos r c.
Proof.
  intros Hcell. unfold revealedAt, cellOf.
  destruct (decide ((row q, col q) = (r, c))) as [[= <- <-]|Hne].
  - rewrite (cellAt_setCell_eq _ _ _ _ _ Hcell). split.
    + intros _. right. destruct q; reflexivity.
    + intros _. eexists. split; reflexivity.
  - rewrite (cellAt_setCell_ne _ _ _ _ _ _ Hne). split; [auto|].
    intros [H| ->]; [exact H|]. exfalso. apply Hne. reflexivity.
Qed.

(** What [revealCell] reveals: the cells it gets to. *)
Lemma revealV_reach fuel :
  ∀ B r c B', revealV fuel B r c = Ret B' →
    ∀ q, revealedAt B' q ↔ revealedAt B q ∨ reach B (mkPos r c) q.
Proof.
  induction fuel as [|fuel IH]; intros B r c B' E q; [discriminate|].
  pose proof (revealV_grows _ _ _ _ _ E) as Hg.
  apply revealV_inv in E as [[Hs ->]|(fuel' & cell & Hfuel & Hs & Hcell & Hf & Hr & E)].
  - split; [auto|]. intros [H|H]; [exact H|]. exfalso.
    apply reach_start in H as [Hv (x & Hx & Hxr & Hxf)].
    unfold validIn, cellOf in *. simpl in *. unfold stays in Hs.
    rewrite Hv, Hx, Hxr, Hxf in Hs. simpl in Hs.
    apply isValidPosition_spec in Hv.
    rewrite !bool_decide_eq_false_2 in Hs by lia. discriminate.
  - injection Hfuel as <-.
    destruct (stays_false _ _ _ Hs) as (_ & _ & Hv & _).
    assert (Hp : reach B (mkPos r c) (mkPos r c)).
    { apply reach_here; [exact Hv|]. exists cell. auto. }
    set (NB := setCell B r c (mkCell (content cell) true (isFlagged cell))) in *.
    destruct (bool_decide (content cell = mine) || positive (content cell)) eqn:Hsp.
    + subst B'. unfold NB. rewrite (revealedAt_setCell _ _ _ _ _ Hcell).
      split.
      * intros [H| ->]; [left; exact H | right; exact Hp].
      * intros [H|H]; [left; exact H|]. right.
        apply (reach_no_spread _ _ _ H). intros (z & Hz & Hzs).
        unfold cellOf in Hz. simpl in Hz. rewrite Hcell in Hz.
        injection Hz as <-. rewrite Hsp in Hzs. discriminate.
    + assert (Hspread : spreadsAt B (mkPos r c)) by (exists cell; auto).
      destruct (flood_fold fuel B (mkPos r c) IH Hp Hspread
                  (neighborsIn B (mkPos r c)) NB B') as (Hg' & I2 & I3 & Hdone).
      * auto.
      * apply grows_setCell; assumption.
      * intros x [H| ->]%(revealedAt_setCell _ _ _ _ _ Hcell); auto.
      * intros x y [H| ->]%(revealedAt_setCell _ _ _ _ _ Hcell) Hn Hne; tauto.
      * exact E.
      * split; [apply I2|]. intros [H|H]; [exact (grows_revealedAt _ _ Hg _ H)|].
        induction H as [|x y Hx IHx Hsx Hy Hoy].
        -- apply (grows_revealedAt _ _ Hg'), (revealedAt_setCell _ _ _ _ _ Hcell).
           right. reflexivity.
        -- destruct (decide (x = mkPos r c)) as [->|Hne].
           ++ apply Hdone; assumption.
           ++ eapply I3; try eassumption.
              apply open_not_revealed. eapply reach_open, Hx.
Qed.

(** ** Zero regions *)

Lemma reach_valid B p q : reach B p q → validIn B q.
Proof.
  destruct 1 as [Hv _|x y _ _ Hy _]; [exact Hv | eapply neighborsIn_valid, Hy].
Qed.

Lemma connected_holds B P p q : connected B P p q → P q.
Proof. destruct 1; assumption. Qed.

Lemma connected_impl B (P Q : Position → Prop) p q :
  (∀ x, P x → Q x) → connected B P p q → connected B Q p q.
Proof.
  intros H. induction 1 as [|x y _ IH Hy Py].
  - apply connected_here. auto.
  - eapply connected_step; eauto.
Qed.

Lemma countAdjacentMines_nonneg B r c n : countAdjacentMines B r c = Some n → 0 ≤ n.
Proof.
  unfold countAdjacentMines. repeat case_decide; try (intros [= <-]; lia).
  destruct (negb _); [intros [= <-]; lia|].
  destruct (mapM _ _); simpl; [|discriminate]. intros [= <-]. lia.
Qed.

Lemma countAdjacentMines_zero B q n cell :
  countAdjacentMines B (row q) (col q) = Some 0 → validIn B q →
  n ∈ neighborsIn B q → cellOf B n = Some cell → content cell ≠ mine.
Proof.
  unfold countAdjacentMines, validIn, neighborsIn, cellOf.
  intros Hc Hv Hn Hcell Hm. rewrite Hv in Hc.
  pose proof Hv as Hv'. apply isValidPosition_spec in Hv'.
  rewrite !decide_False in Hc by lia. simpl in Hc.
  destruct (mapM _ _) as [hits|] eqn:Hhits; simpl in Hc; [|discriminate].
  apply mapM_Some_1 in Hhits.
  apply list_elem_of_lookup in Hn as [i Hi].
  destruct (Forall2_lookup_l _ _ _ _ _ Hhits Hi) as (hit & Hhit & Hf).
  simpl in Hf. rewrite Hcell in Hf. simpl in Hf.
  rewrite (bool_decide_eq_true_2 _ Hm) in Hf. injection Hf as <-.
  assert (Hin : true ∈ filter (λ hit, hit = true) hits).
  { apply list_elem_of_filter. split; [reflexivity|].
    eapply list_elem_of_lookup_2, Hhit. }
  destruct (filter _ hits); [inversion Hin|]. simpl in Hc. injection Hc. lia.
Qed.

Lemma noFlags_cell B q cell : noFlags B → cellOf B q = Some cell → isFlagged cell = false.
Proof.
  intros HB Hcell. destruct (cellAt_elem_of _ _ _ _ Hcell) as (rw & Hrw & Hin).
  unfold noFlags in HB. rewrite Forall_forall in HB. specialize (HB rw Hrw).
  rewrite Forall_forall in HB. exact (HB cell Hin).
Qed.

Section zero_region.
Context (B : Board) (p : Position).
Context (Hflags : noFlags B) (Hcounts : correctCounts B).
Context (Hvalid : validIn B p) (Hzero : zeroCell B p).

Lemma zero_spreads q : zeroCell B q → spreadsAt B q.
Proof. intros (cell & Hcell & Hc). exists cell. rewrite Hc. auto. Qed.

Lemma hidden_open q : hiddenAt B q → openAt B q.
Proof.
  intros (cell & Hcell & Hr). exists cell.
  split; [exact Hcell|]. split; [exact Hr|]. eapply noFlags_cell; eassumption.
Qed.

Lemma region_reach q : hiddenZeroRegion B p q → reach B p q.
Proof.
  induction 1 as [[_ Hh]|x y Hx IH Hy [_ Hh]].
  - apply reach_here; [exact Hvalid | apply hidden_open, Hh].
  - eapply reach_step; [exact IH | | exact Hy | apply hidden_open, Hh].
    apply zero_spreads. apply (connected_holds _ _ _ _ Hx).
Qed.

Lemma border_reach q :
  borders B (hiddenZeroRegion B p) q → hiddenAt B q → reach B p q.
Proof.
  intros [_ (x & Hx & Hq)] Hh.
  eapply reach_step; [apply region_reach, Hx | | exact Hq | apply hidden_open, Hh].
  apply zero_spreads. apply (connected_holds _ _ _ _ Hx).
Qed.

Lemma reach_region_or_border q :
  reach B p q →
  hiddenZeroRegion B p q ∨ borders B (hiddenZeroRegion B p) q.
Proof.
  induction 1 as [Hv (cell & Hcell & Hr & _)|x y Hx IH Hsx Hy (cell & Hcell & Hr & _)].
  - left. apply connected_here. split; [exact Hzero|]. exists cell. auto.
  - assert (Hreg : hiddenZeroRegion B p x).
    { destruct IH as [IH|[(cx & n & Hcx & Hn & Hpos) _]]; [exact IH|].
      exfalso. destruct Hsx as (cx' & Hcx' & Hs).
      assert (cx' = cx) as -> by congruence. rewrite Hn in Hs. simpl in Hs.
      apply Z.ltb_lt in Hpos. rewrite Hpos in Hs. discriminate. }
    destruct (connected_holds _ _ _ _ Hreg) as [(cx & Hcx & Hx0) _].
    destruct (Hcounts _ _ _ Hcx) as (n & Hn & Hn'); [rewrite Hx0; discriminate|].
    assert (n = 0) as -> by congruence.
    pose proof (countAdjacentMines_zero B x y cell Hn (reach_valid _ _ _ Hx) Hy Hcell)
      as Hnm.
    destruct (Hcounts _ _ _ Hcell Hnm) as (m & Hm & Hm').
    apply countAdjacentMines_nonneg in Hm.
    destruct (decide (m = 0)) as [->|Hpos].
    + left. eapply connected_step; [exact Hreg | exact Hy|].
      split; exists cell; auto.
    + right. split; [exists cell, m; repeat split; auto; lia|].
      exists x. auto.
Qed.
End zero_region.

(** C2, as the code has it: on a grid without flags whose cells carry
    their counts, a reveal at a valid zero cell leaves revealed exactly
    the cells that were, the connected region of zero cells that are not
    yet revealed around the position, and the numbered cells that border
    this region; no mine cell changes.  On a board with no cell revealed
    the region is the connected region of zero cells. *)
Theorem revealCell_flood_fill (w : World) (b : Ref) (B : Board) (r c : Z) :
  heap w !! b = Some B → rectangular B → noFlags B → correctCounts B →
  validIn B (mkPos r c) → zeroCell B (mkPos r c) →
  ∃ b' w' B',
    revealCell b r c w = Ret (b', w') ∧ heap w' !! b' = Some B'
    ∧ (∀ q, revealedAt B' q ↔
            revealedAt B q ∨ hiddenZeroRegion B (mkPos r c) q
            ∨ borders B (hiddenZeroRegion B (mkPos r c)) q)
    ∧ (∀ q cell, cellOf B q = Some cell → content cell = mine →
                 cellOf B' q = Some cell)
    ∧ ((∀ q, ¬ revealedAt B q) →
       ∀ q, revealedAt B' q ↔
            zeroRegion B (mkPos r c) q ∨ borders B (zeroRegion B (mkPos r c)) q).
Proof.
  intros Hb HB Hflags Hcounts Hvalid Hzero.
  pose proof (revealCell_run w b B r c Hb) as H.
  destruct (revealCell b r c w) as [[b' w']| |]; [|contradiction|contradiction].
  destruct H as (B' & hs & _ & Hb' & E & _). exists b', w', B'.
  split; [reflexivity|]. split; [exact Hb'|].
  pose proof (revealV_reach _ _ _ _ _ E) as Hrev.
  pose proof (revealV_grows _ _ _ _ _ E) as Hg.
  assert (Hmain : ∀ q, revealedAt B' q ↔
            revealedAt B q ∨ hiddenZeroRegion B (mkPos r c) q
            ∨ borders B (hiddenZeroRegion B (mkPos r c)) q).
  { intros q. rewrite Hrev. split.
    - intros [Hq|Hq]; [left; exact Hq|]. right.
      eapply reach_region_or_border; eassumption.
    - intros [Hq|[Hq|Hq]]; [left; exact Hq | |].
      + right. eapply region_reach; eassumption.
      + destruct Hq as [(cell & n & Hcell & Hn) Hadj].
        destruct (isRevealed cell) eqn:Hr.
        * left. exists cell. auto.
        * right. eapply border_reach; try eassumption.
          -- split; [exists cell, n; auto | exact Hadj].
          -- exists cell. auto. }
  split; [exact Hmain|]. split.
  - intros q cell Hcell Hm. unfold cellOf in *.
    destruct (grows_cellAt_l _ _ _ _ _ Hg Hcell) as (y & Hy & [->|(Hr & _ & ->)]);
      [exact Hy|].
    exfalso. assert (Hq : revealedAt B' q) by (eexists; split; [exact Hy|reflexivity]).
    apply Hmain in Hq as [(x & Hx & Hxr)|[Hq|[(x & n & Hx & Hn & _) _]]].
    + unfold cellOf in Hx. congruence.
    + apply connected_holds in Hq as [(x & Hx & Hx0) _].
      unfold cellOf in Hx. congruence.
    + unfold cellOf in Hx. congruence.
  - intros Hnone.
    assert (Hsame : ∀ q, hiddenZeroRegion B (mkPos r c) q ↔ zeroRegion B (mkPos r c) q).
    { intros q. split; apply connected_impl.
      - intros x [Hx _]. exact Hx.
      - intros x Hx. split; [exact Hx|]. destruct Hx as (cell & Hcell & _).
        exists cell. split; [exact Hcell|].
        destruct (isRevealed cell) eqn:Hr; [|reflexivity].
        exfalso. apply (Hnone x). exists cell. auto. }
    intros q. rewrite Hmain. split.
    + intros [Hq|[Hq|[Hn (x & Hx & Hq)]]].
      * destruct (Hnone q Hq).
      * left. apply Hsame, Hq.
      * right. split; [exact Hn|]. exists x. split; [apply Hsame, Hx | exact Hq].
    + intros [Hq|[Hn (x & Hx & Hq)]].
      * right. left. apply Hsame, Hq.
      * right. right. split; [exact Hn|]. exists x.
        split; [apply Hsame, Hx | exact Hq].
Qed.

Lemma correctCountsb_sound B : correctCountsb B = true → correctCounts B.
Proof.
  unfold correctCountsb. rewrite forallb_forall. intros H r c cell Hcell Hm.
  apply cellAt_Some in Hcell as (rw & Hr & Hc).
  pose proof Hr as [Hr0 Hr']%idx_Some. pose proof Hc as [Hc0 Hc']%idx_Some.
  apply lookup_lt_Some in Hr', Hc'.
  specialize (H r). rewrite Hr in H. rewrite forallb_forall in H.
  specialize (H ltac:(apply list_elem_of_In, elem_of_seqZ; lia) c).
  rewrite Hc in H.
  specialize (H ltac:(apply list_elem_of_In, elem_of_seqZ; lia)).
  destruct (content cell) as [|n]; [contradiction|].
  apply bool_decide_eq_true in H. eauto.
Qed.

Lemma revealCell_flood_fill_witness :
  heap corner_mine_world !! 0%nat = Some corner_mine
  ∧ rectangular corner_mine ∧ noFlags corner_mine ∧ correctCounts corner_mine
  ∧ validIn corner_mine (mkPos 2 2) ∧ zeroCell corner_mine (mkPos 2 2)
  ∧ ∃ b' w' B',
      revealCell 0%nat 2 2 corner_mine_world = Ret (b', w')
      ∧ heap w' !! b' = Some B'
      ∧ (∀ q, revealedAt B' q ↔
              revealedAt corner_mine q ∨ hiddenZeroRegion corner_mine (mkPos 2 2) q
              ∨ borders corner_mine (hiddenZeroRegion corner_mine (mkPos 2 2)) q)
      ∧ (∀ q cell, cellOf corner_mine q = Some cell → content cell = mine →
                   cellOf B' q = Some cell)
      ∧ ((∀ q, ¬ revealedAt corner_mine q) →
         ∀ q, revealedAt B' q ↔
              zeroRegion corner_mine (mkPos 2 2) q
              ∨ borders corner_mine (zeroRegion corner_mine (mkPos 2 2)) q).
Proof.
  assert (H1 : rectangular corner_mine) by (repeat constructor).
  assert (H2 : noFlags corner_mine) by (repeat constructor).
  assert (H3 : correctCounts corner_mine)
    by (apply correctCountsb_sound; vm_compute; reflexivity).
  assert (H4 : zeroCell corner_mine (mkPos 2 2))
    by (eexists; split; reflexivity).
  split; [reflexivity|]. split; [exact H1|]. split; [exact H2|].
  split; [exact H3|]. split; [reflexivity|]. split; [exact H4|].
  exact (revealCell_flood_fill corner_mine_world 0%nat corner_mine 2 2
           eq_refl H1 H2 H3 eq_refl H4).
Defined.

(** C2, as the specification has it, fails on a board that has revealed
    cells: the reveal stops at a revealed zero cell, and the zero cells
    behind it, in the same connected region of zero cells, stay hidden. *)
Lemma revealCell_stops_at_revealed :
  noFlags split_row ∧ correctCounts split_row
  ∧ validIn split_row (mkPos 0 0) ∧ zeroCell split_row (mkPos 0 0)
  ∧ ∃ b' w' B',
      revealCell 0%nat 0 0 split_row_world = Ret (b', w')
      ∧ heap w' !! b' = Some B'
      ∧ zeroRegion split_row (mkPos 0 0) (mkPos 0 4)
      ∧ ¬ revealedAt B' (mkPos 0 4).
Proof.
  split; [repeat constructor|].
  split; [apply correctCountsb_sound; vm_compute; reflexivity|].
  split; [reflexivity|]. split; [eexists; split; reflexivity|].
  eexists _, _, _. split; [vm_compute; reflexivity|]. split; [reflexivity|]. split.
  - assert (Hz : ∀ c, 0 ≤ c < 5 → zeroCell split_row (mkPos 0 c)).
    { intros c Hc. assert (c = 0 ∨ c = 1 ∨ c = 2 ∨ c = 3 ∨ c = 4) as Hcases by lia.
      destruct Hcases as [->|[->|[->|[->| ->]]]]; eexists; split; reflexivity. }
    assert (Hn : ∀ c, 0 ≤ c < 4 →
              mkPos 0 (c + 1) ∈ neighborsIn split_row (mkPos 0 c)).
    { intros c Hc. apply getNeighbors_spec. simpl. split.
      - apply isValidPosition_spec. simpl. lia.
      - replace (c + 1 - c) with 1 by lia. vm_compute. repeat constructor. }
    unfold zeroRegion.
    eapply (connected_step _ _ _ (mkPos 0 3)); [|apply (Hn 3); lia|apply Hz; lia].
    eapply (connected_step _ _ _ (mkPos 0 2)); [|apply (Hn 2); lia|apply Hz; lia].
    eapply (connected_step _ _ _ (mkPos 0 1)); [|apply (Hn 1); lia|apply Hz; lia].
    eapply (connected_step _ _ _ (mkPos 0 0)); [|apply (Hn 0); lia|apply Hz; lia].
    apply connected_here, Hz. lia.
  - intros (cell & Hcell & Hr). vm_compute in Hcell. injection Hcell as <-.
    discriminate.
Qed.

(** ** The theorems at given boards *)

Lemma exclusive_hiddenCell k : exclusive (hiddenCell k).
Proof. intros [H _]. discriminate. Defined.

Lemma exclusiveBoard_corner_mine : exclusiveBoard corner_mine.
Proof. repeat constructor; apply exclusive_hiddenCell. Defined.

Lemma rectangular_corner_mine_blank : rectangular corner_mine_blank.
Proof. repeat constructor. Defined.

Lemma flag_reveal_exclusion_witness :
  heap corner_mine_world !! 0%nat = Some corner_mine
  ∧ exclusiveBoard corner_mine
  ∧ match revealCell 0%nat 2 2 corner_mine_world with
    | Ret (b', w') => ∃ B', heap w' !! b' = Some B' ∧ exclusiveBoard B'
    | TypeError => ¬ rectangular corner_mine
    | OutOfFuel => False
    end
  ∧ match toggleFlag 0%nat 2 2 corner_mine_world with
    | Ret (b', w') => ∃ B', heap w' !! b' = Some B' ∧ exclusiveBoard B'
    | TypeError => ¬ rectangular corner_mine
    | OutOfFuel => False
    end
  ∧ ∃ b' w' B',
      revealAllMines 0%nat corner_mine_world = Ret (b', w')
      ∧ heap w' !! b' = Some B'
      ∧ Forall (Forall (λ cell, content cell ≠ mine → exclusive cell)) B'
      ∧ (Forall (Forall (λ cell, content cell = mine → isFlagged cell = false))
           corner_mine → exclusiveBoard B').
Proof.
  split; [reflexivity|]. split; [exact exclusiveBoard_corner_mine|].
  exact (flag_reveal_exclusion corner_mine_world 0%nat corner_mine 2 2
           eq_refl exclusiveBoard_corner_mine).
Defined.

Lemma revealCell_noop_same_reference_witness :
  heap corner_mine_world !! 0%nat = Some corner_mine
  ∧ isValidPosition (-1) 0 3 3 = false
  ∧ revealCell 0%nat (-1) 0 corner_mine_world = Ret (0%nat, corner_mine_world).
Proof.
  split; [reflexivity|]. split; [reflexivity|].
  apply (revealCell_noop_same_reference corner_mine_world 0%nat corner_mine (-1) 0);
    [reflexivity | right; right; left; reflexivity].
Defined.

Lemma revealCell_monotone_idempotent_witness :
  heap corner_mine_world !! 0%nat = Some corner_mine
  ∧ isValidPosition 2 2 3 3 = true
  ∧ match revealCell 0%nat 2 2 corner_mine_world with
    | Ret (b', w') =>
        ∃ B', heap w' !! b' = Some B'
              ∧ (revealedCells corner_mine ≤ revealedCells B')%nat
              ∧ revealCell b' 2 2 w' = Ret (b', w')
    | TypeError => ¬ rectangular corner_mine
    | OutOfFuel => False
    end.
Proof.
  split; [reflexivity|]. split; [reflexivity|].
  exact (revealCell_monotone_idempotent corner_mine_world 0%nat corner_mine 2 2
           eq_refl eq_refl).
Defined.

Lemma revealCell_frame_witness :
  heap corner_mine_world !! 0%nat = Some corner_mine
  ∧ match revealCell 0%nat 2 2 corner_mine_world with
    | Ret (b', w') =>
        ∃ B', heap w' !! b' = Some B'
              ∧ length B' = length corner_mine
              ∧ Forall2 (λ rw rw', length rw' = length rw) corner_mine B'
              ∧ Forall2 (Forall2 reveal_frame) corner_mine B'
    | TypeError => ¬ rectangular corner_mine
    | OutOfFuel => False
    end.
Proof.
  split; [reflexivity|].
  exact (revealCell_frame corner_mine_world 0%nat corner_mine 2 2 eq_refl).
Defined.

Lemma revealAllMines_spec_witness :
  heap corner_mine_world !! 0%nat = Some corner_mine
  ∧ ∃ B', revealAllMines 0%nat corner_mine_world
          = Ret (1%nat, set_heap corner_mine_world [corner_mine; B'])
          ∧ [corner_mine; B'] !! 0%nat = Some corner_mine
          ∧ Forall2 (Forall2 mines_shown) corner_mine B'.
Proof.
  split; [reflexivity|].
  exact (revealAllMines_spec corner_mine_world 0%nat corner_mine eq_refl).
Defined.

Lemma calculateNumbers_spec_witness :
  heap corner_mine_blank_world !! 0%nat = Some corner_mine_blank
  ∧ rectangular corner_mine_blank
  ∧ ∃ B', calculateNumbers 0%nat corner_mine_blank_world
          = Ret (1%nat, set_heap corner_mine_blank_world [corner_mine_blank; B'])
          ∧ [corner_mine_blank; B'] !! 0%nat = Some corner_mine_blank
          ∧ same_shape corner_mine_blank B'
          ∧ ∀ r c cell, cellAt corner_mine_blank r c = Some cell →
              ∃ cell', cellAt B' r c = Some cell'
                ∧ (content cell = mine → cell' = cell)
                ∧ (content cell ≠ mine →
                   ∃ n, countAdjacentMines corner_mine_blank r c = Some n
                        ∧ countAdjacentMines B' r c = Some n
                        ∧ cell' = mkCell (num n) (isRevealed cell) (isFlagged cell)).
Proof.
  split; [reflexivity|]. split; [exact rectangular_corner_mine_blank|].
  exact (calculateNumbers_spec corner_mine_blank_world 0%nat corner_mine_blank
           eq_refl rectangular_corner_mine_blank).
Defined.

(** ** Scenarios of the test suite *)

(** [createBoardWithMines(3, 3, [{row: 0, col: 0}])]: the empty board, the
    board with the mine and the numbered board are allocated in turn. *)
Example createBoardWithMines_corner :
  createBoardWithMines 3 3 [mkPos 0 0] still_world
  = Ret (2%nat,
         set_heap still_world
           [replicate 3 (replicate 3 createEmptyCell); corner_mine_blank; corner_mine]).
Proof. vm_compute. reflexivity. Qed.

(** Stop at a number: the reveal at (2,2) shows every cell but the mine,
    and the board it was given is still in the store. *)
Example revealCell_stops_at_number :
  ∃ b' w',
    revealCell 0%nat 2 2 corner_mine_world = Ret (b', w')
    ∧ heap w' !! 0%nat = Some corner_mine
    ∧ heap w' !! b'
      = Some [[hiddenCell mine; shownCell (num 1); shownCell (num 0)];
              [shownCell (num 1); shownCell (num 1); shownCell (num 0)];
              [shownCell (num 0); shownCell (num 0); shownCell (num 0)]].
Proof. eexists _, _. split; [vm_compute; reflexivity|]. split; reflexivity. Qed.

(** A numbered cell is revealed alone. *)
Example revealCell_numbered_alone :
  revealCell 0%nat 1 1 corner_mine_world
  = Ret (1%nat,
         set_heap corner_mine_world
           [corner_mine; setCell corner_mine 1 1 (shownCell (num 1))]).
Proof. vm_compute. reflexivity. Qed.

(** Flood fill from the far corner of the 5x5 board with a mine at (0,0). *)
Example revealCell_far_corner :
  ∃ b' w' B',
    (b ← createBoardWithMines 5 5 [mkPos 0 0]; revealCell b 4 4) still_world
    = Ret (b', w')
    ∧ heap w' !! b' = Some B'
    ∧ Forall (λ q, isRevealed <$> cellOf B' q = Some true)
        [mkPos 4 4; mkPos 3 3; mkPos 4 3; mkPos 3 4]
    ∧ isRevealed <$> cellOf B' (mkPos 0 0) = Some false.
Proof.
  eexists _, _, _. split; [vm_compute; reflexivity|]. split; [reflexivity|].
  split; [repeat constructor | reflexivity].
Qed.

(** Flag, then reveal: the cell stays hidden and the reference comes back. *)
Example toggleFlag_then_revealCell :
  ∃ b' w' cell,
    (b ← toggleFlag 0%nat 2 2; revealCell b 2 2) corner_mine_world = Ret (b', w')
    ∧ b' = 1%nat
    ∧ (heap w' !! b') ≫= (λ B, cellAt B 2 2) = Some cell
    ∧ isRevealed cell = false ∧ isFlagged cell = true.
Proof.
  eexists _, _, _. split; [vm_compute; reflexivity|].
  split; [reflexivity|]. split; [reflexivity|]. split; reflexivity.
Qed.

(** Clamping: every cell of the 3x3 board is excluded around its center. *)
Example generateMinePositions_all_excluded :
  ∃ w', generateMinePositions 3 3 10 (Some (mkPos 1 1)) still_world = Ret ([], w').
Proof. eexists. vm_compute. reflexivity. Qed.

(** The neighbors of a corner, an edge and an inner cell of a 5x5 board. *)
Example getNeighbors_counts :
  length (getNeighbors 0 0 5 5) = 3%nat
  ∧ length (getNeighbors 0 2 5 5) = 5%nat
  ∧ length (getNeighbors 2 2 5 5) = 8%nat.
Proof. repeat split; reflexivity. Qed.

(** A board is won with its mine hidden; the boards without a cell are not. *)
Example checkGameWon_scenarios :
  checkGameWon [[hiddenCell mine; shownCell (num 1)];
                [shownCell (num 1); shownCell (num 1)]] = true
  ∧ checkGameWon [] = false ∧ checkGameWon [[]] = false
  ∧ checkGameWon corner_mine = false.
Proof. repeat split; reflexivity. Qed.

(** * The rest of the engine *)

(** ** Neighbors *)



Lemma getNeighbors_sublist r c rows cols :
  getNeighbors r c rows cols
  `sublist_of` map (λ d : Z * Z, mkPos (r + d.1) (c + d.2)) directions.
Proof.
  unfold getNeighbors. generalize directions. intros ds.
  induction ds as [|[dr dc] ds IH]; simpl; [constructor|].
  destruct (isValidPosition (r + dr) (c + dc) rows cols); simpl.
  - apply sublist_skip, IH.
  - apply sublist_cons, IH.
Qed.


Lemma getNeighbors_length_le r c rows cols :
  (length (getNeighbors r c rows cols) ≤ 8)%nat.
Proof.
  pose proof (sublist_length _ _ (getNeighbors_sublist r c rows cols)) as H.
  rewrite length_map in H. exact H.
Qed.





(** ** Counting the mines around a cell *)

Lemma countAdjacentMines_le B r c n : countAdjacentMines B r c = Some n → n ≤ 8.
Proof.
  unfold countAdjacentMines. repeat case_decide; try (intros [= <-]; lia).
  destruct (negb _); [intros [= <-]; lia|].
  destruct (mapM _ _) as [hits|] eqn:Hhits; simpl; [|discriminate].
  intros [= <-]. apply mapM_Some_1, Forall2_length in Hhits.
  pose proof (length_filter (λ hit, hit = true) hits).
  pose proof (getNeighbors_length_le r c (Z.of_nat (length B))
                (Z.of_nat (length (B !!! 0%nat)))). lia.
Qed.

Lemma countAdjacentMines_no_mines B q :
  rectangular B → validIn B q →
  (∀ n cell, n ∈ neighborsIn B q → cellOf B n = Some cell → content cell ≠ mine) →
  countAdjacentMines B (row q) (col q) = Some 0.
Proof.
  intros HB Hv Hnone.
  destruct (countAdjacentMines_total B (row q) (col q) HB) as [k Hk].
  rewrite Hk. f_equal. revert Hk.
  unfold countAdjacentMines, validIn, neighborsIn, cellOf in *. rewrite Hv.
  pose proof Hv as Hv'. apply isValidPosition_spec in Hv'.
  rewrite !decide_False by lia. simpl.
  destruct (mapM _ _) as [hits|] eqn:Hhits; simpl; [|discriminate].
  intros [= <-]. apply mapM_Some_1 in Hhits.
  destruct (filter (λ hit, hit = true) hits) as [|hit rest] eqn:Hf; [reflexivity|].
  exfalso. assert (Hin : hit ∈ filter (λ hit, hit = true) hits) by (rewrite Hf; left).
  apply list_elem_of_filter in Hin as [-> Hin].
  apply list_elem_of_lookup in Hin as [i Hi].
  destruct (Forall2_lookup_r _ _ _ _ _ Hhits Hi) as (n & Hn & Hfn).
  simpl in Hfn. destruct (cellAt B (row n) (col n)) as [cell|] eqn:Hcell;
    simpl in Hfn; [|discriminate].
  injection Hfn as Hm. apply bool_decide_eq_true in Hm.
  exact (Hnone n cell (list_elem_of_lookup_2 _ _ _ Hn) Hcell Hm).
Qed.

(** X3 [countAdjacentMines]: the result is 0 on a board without rows, on
    a board whose first row is empty and at a position out of bounds, and
    whenever the call returns the count lies between 0 and 8. *)
Theorem countAdjacentMines_range (B : Board) (r c : Z) :
  (length B = 0%nat ∨ length (B !!! 0%nat) = 0%nat
   ∨ isValidPosition r c (Z.of_nat (length B)) (Z.of_nat (length (B !!! 0%nat)))
     = false →
   countAdjacentMines B r c = Some 0)
  ∧ ∀ n, countAdjacentMines B r c = Some n → 0 ≤ n ≤ 8.
Proof.
  split.
  - intros H. unfold countAdjacentMines.
    case_decide as H1; [reflexivity|]. case_decide as H2; [reflexivity|].
    destruct H as [H|[H|H]]; [contradiction|contradiction|].
    rewrite H. reflexivity.
  - intros n Hn. split.
    + eapply countAdjacentMines_nonneg, Hn.
    + eapply countAdjacentMines_le, Hn.
Qed.

(** X4 [countAdjacentMines]: on a grid the call does not raise, and at a
    valid position the count is 0 exactly when no neighbor holds a mine. *)
Theorem countAdjacentMines_zero_iff (B : Board) (r c : Z) :
  rectangular B → validIn B (mkPos r c) →
  ∃ n, countAdjacentMines B r c = Some n
       ∧ (n = 0 ↔ ∀ q cell, q ∈ neighborsIn B (mkPos r c) →
                    cellOf B q = Some cell → content cell ≠ mine).
Proof.
  intros HB Hv. destruct (countAdjacentMines_total B r c HB) as [n Hn].
  exists n. split; [exact Hn|]. split.
  - intros -> q cell Hq Hcell.
    exact (countAdjacentMines_zero B (mkPos r c) q cell Hn Hv Hq Hcell).
  - intros Hnone.
    pose proof (countAdjacentMines_no_mines B (mkPos r c) HB Hv Hnone) as H0.
    simpl in H0. congruence.
Qed.

Lemma countAdjacentMines_zero_iff_witness :
  rectangular corner_mine ∧ validIn corner_mine (mkPos 2 2)
  ∧ ∃ n, countAdjacentMines corner_mine 2 2 = Some n
         ∧ (n = 0 ↔ ∀ q cell, q ∈ neighborsIn corner_mine (mkPos 2 2) →
                      cellOf corner_mine q = Some cell → content cell ≠ mine).
Proof.
  assert (H : rectangular corner_mine) by (repeat constructor).
  split; [exact H|]. split; [reflexivity|].
  exact (countAdjacentMines_zero_iff corner_mine 2 2 H eq_refl).
Defined.

(** ** Placing mines *)

Lemma same_shape_cellAt_None B B' r c :
  same_shape B B' → cellAt B r c = None → cellAt B' r c = None.
Proof.
  intros HS HN. destruct (cellAt B' r c) as [cell'|] eqn:E; [|reflexivity].
  destruct (same_shape_cellAt _ _ _ _ _ HS E) as [x Hx]. congruence.
Qed.

(** The loop of [placeMines] raises at the first position without a cell. *)
Lemma placeMines_loop_raises B w ps :
  ∀ PB, same_shape B PB →
    (∃ p, p ∈ ps ∧ cellOf B p = None) →
    forM_ ps (λ p, assign (length (heap w)) (row p) (col p)
                     (λ cell, mkCell mine (isRevealed cell) (isFlagged cell)))
      (set_heap w (heap w ++ [PB])) = TypeError.
Proof.
  induction ps as [|p ps IH]; intros PB HS (q & Hq & Hnone).
  - inversion Hq.
  - unfold forM_. cbn [foldM]. rewrite bind_run.
    assert (Hw1 : heap (set_heap w (heap w ++ [PB])) !! length (heap w) = Some PB)
      by apply lookup_fresh.
    destruct (cellAt PB (row p) (col p)) as [cur|] eqn:Hcur.
    + rewrite (assign_run _ _ _ _ _ _ _ Hw1 Hcur).
      simpl heap. rewrite set_heap_set_heap, insert_fresh.
      apply IH; [apply same_shape_setCell, HS|].
      apply elem_of_cons in Hq as [->|Hq]; [|eauto].
      exfalso. unfold cellOf in Hnone.
      rewrite (same_shape_cellAt_None _ _ _ _ HS Hnone) in Hcur. discriminate.
    + unfold assign. rewrite Hw1, Hcur. reflexivity.
Qed.

Lemma placeMines_raises w b B ps :
  heap w !! b = Some B → (∃ p, p ∈ ps ∧ cellOf B p = None) →
  placeMines b ps w = TypeError.
Proof.
  intros Hb Hex. unfold placeMines.
  rewrite (bind_ret _ _ _ _ _ (deref_run _ _ _ Hb)).
  rewrite bind_run, alloc_run, copyBoard_id, bind_run.
  rewrite (placeMines_loop_raises B w ps B (same_shape_refl B) Hex). reflexivity.
Qed.

(** X5 [placeMines]: the call raises a [TypeError] exactly when one of the
    positions has no cell on the board.  Otherwise it returns a new board
    of the same shape whose cells at the given positions are mines with
    the reveal and flag state they had, and whose other cells are those of
    the input; the input board stays in the store as it was. *)
Theorem placeMines_spec (w : World) (b : Ref) (B : Board) (ps : list Position) :
  heap w !! b = Some B →
  match placeMines b ps w with
  | Ret (b', w') =>
      (∀ p, p ∈ ps → is_Some (cellOf B p))
      ∧ ∃ PB, b' = length (heap w) ∧ w' = set_heap w (heap w ++ [PB])
              ∧ heap w' !! b = Some B
              ∧ same_shape B PB
              ∧ ∀ r c cell, cellAt B r c = Some cell →
                  cellAt PB r c
                  = Some (if decide (mkPos r c ∈ ps)
                          then mkCell mine (isRevealed cell) (isFlagged cell)
                          else cell)
  | TypeError => ∃ p, p ∈ ps ∧ cellOf B p = None
  | OutOfFuel => False
  end.
Proof.
  intros Hb.
  destruct (decide (Forall (λ p, is_Some (cellOf B p)) ps)) as [Hall|Hnot].
  - rewrite Forall_forall in Hall.
    destruct (placeMines_run w b B ps Hb Hall) as (PB & E & [HS HP] & _).
    rewrite E. split; [exact Hall|]. exists PB.
    split; [reflexivity|]. split; [reflexivity|]. split; [|split; assumption].
    simpl. rewrite lookup_app_l; [exact Hb | eapply lookup_lt_Some, Hb].
  - apply not_Forall_Exists in Hnot; [|intros x; apply _].
    apply Exists_exists in Hnot as (p & Hp & Hnone).
    assert (Hex : ∃ p, p ∈ ps ∧ cellOf B p = None).
    { exists p. split; [exact Hp|].
      unfold compose in Hnone. destruct (cellOf B p) eqn:E; [|reflexivity].
      exfalso. apply Hnone. eauto. }
    rewrite (placeMines_raises w b B ps Hb Hex). exact Hex.
Qed.

Lemma placeMines_spec_witness :
  heap corner_mine_world !! 0%nat = Some corner_mine
  ∧ match placeMines 0%nat [mkPos 2 2; mkPos 5 5] corner_mine_world with
    | Ret (b', w') =>
        (∀ p, p ∈ [mkPos 2 2; mkPos 5 5] → is_Some (cellOf corner_mine p))
        ∧ ∃ PB, b' = length (heap corner_mine_world)
                ∧ w' = set_heap corner_mine_world (heap corner_mine_world ++ [PB])
                ∧ heap w' !! 0%nat = Some corner_mine
                ∧ same_shape corner_mine PB
                ∧ ∀ r c cell, cellAt corner_mine r c = Some cell →
                    cellAt PB r c
                    = Some (if decide (mkPos r c ∈ [mkPos 2 2; mkPos 5 5])
                            then mkCell mine (isRevealed cell) (isFlagged cell)
                            else cell)
    | TypeError => ∃ p, p ∈ [mkPos 2 2; mkPos 5 5] ∧ cellOf corner_mine p = None
    | OutOfFuel => False
    end.
Proof.
  split; [reflexivity|].
  exact (placeMines_spec corner_mine_world 0%nat corner_mine
           [mkPos 2 2; mkPos 5 5] eq_refl).
Defined.

(** ** The numbered board *)

Lemma numbered_same_counts B NB :
  same_shape B NB →
  (∀ r c cell, cellAt B r c = Some cell → cellAt NB r c = Some (numbered B r c cell)) →
  ∀ r c, countAdjacentMines NB r c = countAdjacentMines B r c.
Proof.
  intros HS Hcells r c. apply countAdjacentMines_same_mines.
  - symmetry. eapply Forall2_length, HS.
  - destruct HS as [|rw rw' B0 NB0 Hrw _]; [reflexivity | exact Hrw].
  - intros r' c'. destruct (cellAt B r' c') as [cell|] eqn:Hcell.
    + rewrite (Hcells _ _ _ Hcell). simpl. f_equal. unfold numbered.
      destruct (decide (content cell = mine)) as [Hm|Hm]; [reflexivity|].
      simpl. rewrite (bool_decide_eq_false_2 _ Hm). reflexivity.
    + rewrite (same_shape_cellAt_None _ _ _ _ HS Hcell). reflexivity.
Qed.

Lemma numbered_correctCounts B NB :
  rectangular B → same_shape B NB →
  (∀ r c cell, cellAt B r c = Some cell → cellAt NB r c = Some (numbered B r c cell)) →
  correctCounts NB.
Proof.
  intros HB HS Hcells r c cell' Hcell' Hm.
  destruct (same_shape_cellAt _ _ _ _ _ HS Hcell') as [cell Hcell].
  rewrite (Hcells _ _ _ Hcell) in Hcell'. injection Hcell' as <-.
  rewrite (numbered_same_counts B NB HS Hcells).
  destruct (countAdjacentMines_total B r c HB) as [n Hn].
  exists n. split; [exact Hn|]. unfold numbered in *.
  destruct (decide (content cell = mine)); [contradiction|].
  simpl. rewrite Hn. reflexivity.
Qed.

Lemma Forall2_Forall2_eq {A} (l k : list (list A)) :
  Forall2 (Forall2 (λ x y, y = x)) l k → k = l.
Proof.
  induction 1 as [|rw rw' l k Hrw _ IH]; [reflexivity|]. f_equal; [|exact IH].
  clear -Hrw. induction Hrw as [|x y rw rw' -> _ IH]; [reflexivity|].
  f_equal. exact IH.
Qed.

Lemma correctCounts_numbered B r c cell :
  correctCounts B → cellAt B r c = Some cell → numbered B r c cell = cell.
Proof.
  intros HC Hcell. unfold numbered.
  destruct (decide (content cell = mine)) as [Hm|Hm]; [reflexivity|].
  destruct (HC _ _ _ Hcell Hm) as (n & -> & Hn). simpl.
  destruct cell as [k rv fl]. simpl in *. subst k. reflexivity.
Qed.



(** X7 [calculateNumbers]: a grid whose cells carry their counts comes back
    as a copy, equal in value under a new reference; so numbering a board
    twice gives what numbering it once gives. *)
Theorem calculateNumbers_fixpoint (w : World) (b : Ref) (B : Board) :
  heap w !! b = Some B → rectangular B → correctCounts B →
  calculateNumbers b w = Ret (length (heap w), set_heap w (heap w ++ [B])).
Proof.
  intros Hb HB HC.
  destruct (calculateNumbers_run w b B Hb HB) as (NB & E & HS & Hcells).
  rewrite E. replace NB with B; [reflexivity|]. symmetry.
  apply Forall2_Forall2_eq, cellwise_Forall2; [exact HS|].
  intros r c cell Hcell. exists cell. split; [|reflexivity].
  rewrite (Hcells _ _ _ Hcell). f_equal.
  apply correctCounts_numbered; assumption.
Qed.

Lemma correctCounts_corner_mine : correctCounts corner_mine.
Proof. apply correctCountsb_sound. vm_compute. reflexivity. Defined.

Lemma calculateNumbers_fixpoint_witness :
  heap corner_mine_world !! 0%nat = Some corner_mine
  ∧ rectangular corner_mine ∧ correctCounts corner_mine
  ∧ calculateNumbers 0%nat corner_mine_world
    = Ret (1%nat, set_heap corner_mine_world [corner_mine; corner_mine]).
Proof.
  assert (H : rectangular corner_mine) by (repeat constructor).
  split; [reflexivity|]. split; [exact H|]. split; [exact correctCounts_corner_mine|].
  exact (calculateNumbers_fixpoint corner_mine_world 0%nat corner_mine
           eq_refl H correctCounts_corner_mine).
Defined.

(** ** Building a board *)

Lemma emptyBoard_cellAt (R C r c : Z) :
  cellAt (replicate (Z.to_nat R) (replicate (Z.to_nat C) createEmptyCell)) r c
  = if isValidPosition r c R C then Some createEmptyCell else None.
Proof.
  destruct (isValidPosition r c R C) eqn:Hv.
  - apply isValidPosition_spec in Hv. apply cellAt_Some.
    exists (replicate (Z.to_nat C) createEmptyCell).
    split; apply idx_Some; (split; [lia|]); apply lookup_replicate_2; lia.
  - destruct (cellAt _ r c) as [cell|] eqn:E; [|reflexivity]. exfalso.
    apply cellAt_Some in E as (rw & [H0 Hr]%idx_Some & [H1 Hc]%idx_Some).
    apply lookup_replicate in Hr as [-> Hr]. apply lookup_replicate in Hc as [_ Hc].
    assert (isValidPosition r c R C = true) by (apply isValidPosition_spec; lia).
    congruence.
Qed.

Lemma same_shape_row_lengths B B' n :
  same_shape B B' → Forall (λ rw, length rw = n) B → Forall (λ rw, length rw = n) B'.
Proof.
  intros HS HB.
  eapply (Forall_Forall2_step _ (λ rw rw' : list CellState, length rw' = length rw));
    [|exact HB|exact HS].
  intros rw rw' H1 H2. simpl in *. congruence.
Qed.

(** Mines placed on the empty board at valid positions, then the counts. *)
Lemma fresh_board_run w b R C ps :
  heap w !! b = Some (replicate (Z.to_nat R) (replicate (Z.to_nat C) createEmptyCell)) →
  (∀ p, p ∈ ps → isValidPosition (row p) (col p) R C = true) →
  ∃ PB FB,
    placeMines b ps w = Ret (length (heap w), set_heap w (heap w ++ [PB]))
    ∧ calculateNumbers (length (heap w)) (set_heap w (heap w ++ [PB]))
      = Ret (S (length (heap w)), set_heap w (heap w ++ [PB; FB]))
    ∧ fresh_board R C ps FB
    ∧ (NoDup ps → mineCells FB = length ps).
Proof.
  set (E := replicate (Z.to_nat R) (replicate (Z.to_nat C) createEmptyCell)).
  intros Hb Hps.
  assert (HE : rectangular E) by apply replicate_rectangular.
  destruct (placeMines_run w b E ps Hb) as (PB & Eplace & [HS HP] & Hcount).
  { intros p Hp. unfold E. rewrite emptyBoard_cellAt, (Hps p Hp). eauto. }
  set (w1 := set_heap w (heap w ++ [PB])).
  assert (HbP : heap w1 !! length (heap w) = Some PB) by apply lookup_fresh.
  pose proof (same_shape_rectangular _ _ HS HE) as HPB.
  destruct (calculateNumbers_run w1 (length (heap w)) PB HbP HPB)
    as (FB & Ecalc & HS' & HF).
  exists PB, FB. split; [exact Eplace|]. split.
  { subst w1. rewrite Ecalc. simpl. rewrite length_app, <- app_assoc. simpl.
    replace (length (heap w) + 1)%nat with (S (length (heap w))) by lia. reflexivity. }
  split; [split; [|split; [|split]]|].
  - rewrite <- (Forall2_length _ _ _ HS'), <- (Forall2_length _ _ _ HS).
    apply length_replicate.
  - apply (same_shape_row_lengths PB FB _ HS'), (same_shape_row_lengths E PB _ HS).
    apply Forall_forall. intros rw [-> _]%elem_of_replicate. apply length_replicate.
  - exact (numbered_correctCounts PB FB HPB HS' HF).
  - intros r c Hv. pose proof (emptyBoard_cellAt R C r c) as HEc. rewrite Hv in HEc.
    pose proof (HP _ _ _ HEc) as HPc. pose proof (HF _ _ _ HPc) as HFc.
    eexists. split; [exact HFc|]. unfold numbered.
    destruct (decide (mkPos r c ∈ ps)) as [Hin|Hin]; simpl.
    + repeat split; auto.
    + repeat split; try reflexivity; [discriminate | contradiction].
  - intros Hnd. rewrite (mineCells_same PB FB).
    + apply Hcount; [exact Hnd|]. apply mineCells_zero.
      intros rw cell [-> _]%elem_of_replicate [-> _]%elem_of_replicate. discriminate.
    + apply cellwise_Forall2; [exact HS'|]. intros r c cell Hcl.
      exists (numbered PB r c cell). split; [exact (HF r c cell Hcl)|].
      unfold numbered. destruct (decide (content cell = mine)) as [Hm|Hm]; [tauto|].
      simpl. split; [discriminate | tauto].
Qed.


(** The run of [createBoard] with a fair source, for any position to
    exclude or none. *)
(** The loop at index [i] makes [i] draws, whatever they are. *)
Lemma shuffle_draws (i : nat) :
  ∀ a w, ∃ a',
    shuffle i a w = Ret (a', mkWorld (heap w) (λ k, entropy w (i + k)%nat)).
Proof.
  induction i as [|i IH]; intros a w.
  - exists a. destruct w; reflexivity.
  - cbn [shuffle]. rewrite bind_run. unfold Math_random at 1.
    destruct (IH (swap a (S i)
                    (Z.to_nat (Qfloor (entropy w 0%nat * inject_Z (Z.of_nat (S i) + 1)))))
                 (mkWorld (heap w) (λ k, entropy w (S k)))) as (a' & E).
    exists a'. rewrite E. reflexivity.
Qed.

(** The array after the shuffle does not depend on [mineCount], which only
    sets where it is cut. *)
Lemma generateMinePositions_cut rows cols excl w :
  fair w →
  ∃ a, a ≡ₚ freeCells (exclusionSet excl rows cols) rows cols
       ∧ ∀ mineCount,
           generateMinePositions rows cols mineCount excl w
           = Ret (slice0 a (Z.min mineCount
                    (rows * cols - Z.of_nat (size (exclusionSet excl rows cols)))),
                  mkWorld (heap w)
                    (λ k, entropy w
                       (length (freeCells (exclusionSet excl rows cols) rows cols)
                        - 1 + k)%nat)).
Proof.
  intros Hfair. set (X := exclusionSet excl rows cols).
  destruct (shuffle_draws (length (freeCells X rows cols) - 1)
              (freeCells X rows cols) w) as (a & E).
  destruct (shuffle_run (length (freeCells X rows cols) - 1) (freeCells X rows cols)
              w Hfair ltac:(lia)) as (a' & w' & E' & Hperm & _).
  assert (a' = a) as -> by congruence.
  exists a. split; [exact Hperm|]. intros mineCount.
  rewrite generateMinePositions_excluded. fold X.
  rewrite (bind_ret _ _ _ _ _ E). reflexivity.
Qed.

Lemma createBoard_run w R C mc excl :
  fair w → 0 ≤ R → 0 ≤ C → 0 ≤ mc →
  ∃ ps w' B,
    createBoard (mkConfig R C mc) excl w = Ret (S (S (length (heap w))), w')
    ∧ heap w' !! S (S (length (heap w))) = Some B
    ∧ (∀ b B0, heap w !! b = Some B0 → heap w' !! b = Some B0)
    ∧ fresh_board R C ps B
    ∧ NoDup ps ∧ mineCells B = length ps
    ∧ Z.of_nat (length ps)
      = Z.max 0 (Z.min mc (R * C - Z.of_nat (size (exclusionSet excl R C))))
    ∧ (∀ p, p ∈ ps →
        isValidPosition (row p) (col p) R C = true ∧ key p ∉ exclusionSet excl R C)
    ∧ fair w'.
Proof.
  intros Hfair HR HC Hmc.
  unfold createBoard, createEmptyBoard. rewrite bind_run, alloc_run.
  set (E := replicate (Z.to_nat R) (replicate (Z.to_nat C) createEmptyCell)).
  set (w1 := set_heap w (heap w ++ [E])).
  destruct (generateMinePositions_run w1 R C mc excl)
    as (a & w2 & Egen & Hheap2 & Hperm & Hlen); try assumption.
  destruct (drawn_positions a
              (Z.min mc (R * C - Z.of_nat (size (exclusionSet excl R C))))
              _ _ _ Hperm) as [Hnd Hps].
  set (ps := slice0 a _) in *.
  rewrite (bind_ret _ _ _ _ _ Egen).
  assert (Hb : heap w2 !! length (heap w) = Some E)
    by (rewrite Hheap2; apply lookup_fresh).
  destruct (fresh_board_run w2 (length (heap w)) R C ps Hb)
    as (PB & FB & Eplace & Ecalc & Hfresh & Hcount).
  { intros p Hp. apply (Hps p Hp). }
  assert (Hlen2 : length (heap w2) = S (length (heap w)))
    by (rewrite Hheap2; simpl; rewrite length_app; simpl; lia).
  rewrite Hlen2 in Eplace, Ecalc.
  rewrite (bind_ret _ _ _ _ _ Eplace), (bind_ret _ _ _ _ _ Ecalc), ret_run.
  exists ps, (set_heap w2 (heap w2 ++ [PB; FB])), FB.
  split; [reflexivity|]. split; [|split].
  - simpl. rewrite lookup_app_r by lia. rewrite Hlen2.
    replace (S (S (length (heap w))) - S (length (heap w)))%nat with 1%nat by lia.
    reflexivity.
  - intros b B0 Hb0. simpl. rewrite Hheap2. simpl.
    pose proof (lookup_lt_Some _ _ _ Hb0).
    rewrite !lookup_app_l by (rewrite ?length_app; simpl; lia). exact Hb0.
  - split; [exact Hfresh|]. split; [exact Hnd|]. split; [exact (Hcount Hnd)|].
    split; [exact Hlen|]. split; [exact Hps|].
    destruct (generateMinePositions_cut R C excl w1 Hfair) as (a0 & _ & Ecut).
    rewrite (Ecut mc) in Egen. injection Egen as _ <-.
    intros k. apply Hfair.
Qed.



(** ** Losing and winning, cell by cell *)

Lemma elem_of_cellAt (B : Board) rw cell :
  rw ∈ B → cell ∈ rw → ∃ r c, cellAt B r c = Some cell.
Proof.
  intros [i Hi]%list_elem_of_lookup [j Hj]%list_elem_of_lookup.
  exists (Z.of_nat i), (Z.of_nat j). rewrite cellAt_of_nat, Hi. exact Hj.
Qed.

Lemma checkGameLost_true B :
  checkGameLost B = true ↔
  ∃ r c cell, cellAt B r c = Some cell ∧ content cell = mine ∧ isRevealed cell = true.
Proof.
  unfold checkGameLost. split.
  - intros (rw & Hrw & H)%existsb_exists. apply existsb_exists in H as (cell & Hcell & H).
    apply andb_true_iff in H as [Hm Hr]. apply bool_decide_eq_true in Hm.
    apply list_elem_of_In in Hrw, Hcell.
    destruct (elem_of_cellAt B rw cell Hrw Hcell) as (r & c & Hrc). eauto 6.
  - intros (r & c & cell & Hcell & Hm & Hr).
    destruct (cellAt_elem_of _ _ _ _ Hcell) as (rw & Hrw & Hin).
    apply existsb_exists. exists rw. split; [apply list_elem_of_In, Hrw|].
    apply existsb_exists. exists cell. split; [apply list_elem_of_In, Hin|].
    rewrite Hr, (bool_decide_eq_true_2 _ Hm). reflexivity.
Qed.

Lemma checkGameLost_false B :
  checkGameLost B = false ↔
  ∀ r c cell, cellAt B r c = Some cell → content cell = mine → isRevealed cell = false.
Proof.
  split.
  - intros Hl r c cell Hcell Hm. destruct (isRevealed cell) eqn:Hr; [|reflexivity].
    assert (checkGameLost B = true) by (apply checkGameLost_true; eauto 6).
    congruence.
  - intros H. destruct (checkGameLost B) eqn:Hl; [|reflexivity].
    apply checkGameLost_true in Hl as (r & c & cell & Hcell & Hm & Hr).
    rewrite (H r c cell Hcell Hm) in Hr. discriminate.
Qed.

Lemma existsb_Forall2 {A} (R : A → A → Prop) (f g : A → bool) (l k : list A) :
  (∀ x y, R x y → f y = true → g x = true) →
  Forall2 R l k → existsb f k = true → existsb g l = true.
Proof.
  intros H. induction 1 as [|x y l k Hxy _ IH]; simpl; [discriminate|].
  rewrite !orb_true_iff. intros [Hy|Hk]; [left; eauto | right; auto].
Qed.

(** Winning is kept when the cells keep their content and stay revealed. *)
Lemma checkGameWon_kept (B B' : Board) :
  Forall2 (Forall2 (λ x y, content y = content x
                           ∧ (isRevealed x = true → isRevealed y = true))) B B' →
  checkGameWon B = true → checkGameWon B' = true.
Proof.
  intros HF. unfold checkGameWon.
  destruct (existsb _ B) eqn:Hex; [discriminate|].
  destruct (existsb _ B') eqn:Hex'.
  - exfalso. revert Hex'. cbv beta. intros Hex'.
    assert (H : existsb (λ rw, existsb (λ cell, bool_decide (content cell ≠ mine)
                                        && negb (isRevealed cell)) rw) B = true);
      [|congruence].
    eapply (existsb_Forall2 _ _ _ B B'); [|exact HF|exact Hex'].
    intros rw rw' Hrw. eapply existsb_Forall2; [|exact Hrw].
    intros x y [Hc Hr] Hy. simpl in *. apply andb_true_iff in Hy as [Hm Hh].
    rewrite Hc in Hm. rewrite Hm. simpl.
    destruct (isRevealed x); [rewrite Hr in Hh by reflexivity; discriminate | reflexivity].
  - rewrite (Forall2_length _ _ _ HF).
    replace (length (B' !!! 0%nat)) with (length (B !!! 0%nat)); [auto|].
    destruct HF as [|rw rw' ? ? Hrw _]; [reflexivity|]. simpl.
    exact (Forall2_length _ _ _ Hrw).
Qed.

Lemma grows_lost B B' : grows B B' → checkGameLost B = true → checkGameLost B' = true.
Proof.
  intros Hg (r & c & cell & Hcell & Hm & Hr)%checkGameLost_true.
  destruct (grows_cellAt_l _ _ _ _ _ Hg Hcell) as (y & Hy & Hstep).
  destruct (reveal_step_frame _ _ Hstep) as (Hc & _ & Hrev).
  apply checkGameLost_true. exists r, c, y. rewrite Hc. auto.
Qed.

Lemma frame_count (P : CellState → Prop) `{!∀ x, Decision (P x)}
    (R : CellState → CellState → Prop) (B B' : Board) :
  (∀ x y, R x y → (P y ↔ P x)) → Forall2 (Forall2 R) B B' →
  length (filter P (concat B')) = length (filter P (concat B)).
Proof.
  intros HR. induction 1 as [|rw rw' B B' Hrw _ IH]; [reflexivity|].
  simpl. rewrite !filter_app, !length_app, IH. f_equal.
  clear -Hrw HR. induction Hrw as [|x y rw rw' Hxy _ IH]; [reflexivity|].
  rewrite !filter_cons. pose proof (HR x y Hxy).
  destruct (decide (P y)), (decide (P x)); simpl; try rewrite IH; try reflexivity; tauto.
Qed.

Lemma grows_correctCounts B B' : grows B B' → correctCounts B → correctCounts B'.
Proof.
  intros Hg HC r c y Hy Hm.
  destruct (grows_cellAt_r _ _ _ _ _ Hg Hy) as (x & Hx & Hstep).
  destruct (reveal_step_frame _ _ Hstep) as (Hc & _).
  rewrite Hc in Hm |- *. destruct (HC _ _ _ Hx Hm) as (n & Hn & Hn').
  exists n. split; [|exact Hn']. rewrite <- Hn.
  apply countAdjacentMines_same_mines;
    [exact (grows_length _ _ Hg) | exact (grows_length0 _ _ Hg)|].
  intros r' c'. destruct (cellAt B r' c') as [x'|] eqn:Hx'.
  - destruct (grows_cellAt_l _ _ _ _ _ Hg Hx') as (y' & Hy' & Hstep').
    destruct (reveal_step_frame _ _ Hstep') as (Hc' & _).
    rewrite Hy'. simpl. rewrite Hc'. reflexivity.
  - destruct (cellAt B' r' c') as [y'|] eqn:Hy'; [|reflexivity].
    destruct (grows_cellAt_r _ _ _ _ _ Hg Hy') as (? & ? & _). congruence.
Qed.

(** ** More on the reveal *)

(** X10 [revealCell]: the flags, the mines and the counts are kept: the
    returned board has as many flagged cells and as many mine cells as the
    input, and carries correct counts when the input does; a board that is
    won stays won and a board that is lost stays lost. *)
Theorem revealCell_keeps (w : World) (b : Ref) (B : Board) (r c : Z) :
  heap w !! b = Some B →
  match revealCell b r c w with
  | Ret (b', w') =>
      ∃ B', heap w' !! b' = Some B'
            ∧ countFlags B' = countFlags B ∧ mineCells B' = mineCells B
            ∧ (correctCounts B → correctCounts B')
            ∧ (checkGameWon B = true → checkGameWon B' = true)
            ∧ (checkGameLost B = true → checkGameLost B' = true)
  | TypeError => ¬ rectangular B
  | OutOfFuel => False
  end.
Proof.
  intros Hb. pose proof (revealCell_run w b B r c Hb) as H.
  destruct (revealCell b r c w) as [[b' w']| |]; [|exact H|exact H].
  destruct H as (B' & hs & _ & Hb' & E & _). exists B'.
  pose proof (revealV_grows _ _ _ _ _ E) as Hg.
  assert (HF : Forall2 (Forall2 reveal_frame) B B')
    by (eapply Forall2_Forall2_impl; [apply reveal_step_frame | exact Hg]).
  split; [exact Hb'|]. split; [|split; [|split; [|split]]].
  - apply (frame_count _ reveal_frame); [|exact HF].
    intros x y (_ & -> & _). reflexivity.
  - apply (frame_count _ reveal_frame); [|exact HF].
    intros x y (-> & _). reflexivity.
  - apply grows_correctCounts, Hg.
  - apply checkGameWon_kept. eapply Forall2_Forall2_impl; [|exact HF].
    intros x y (Hc & _ & Hr). auto.
  - apply grows_lost, Hg.
Qed.

Lemma revealCell_keeps_witness :
  heap corner_mine_world !! 0%nat = Some corner_mine
  ∧ match revealCell 0%nat 2 2 corner_mine_world with
    | Ret (b', w') =>
        ∃ B', heap w' !! b' = Some B'
              ∧ countFlags B' = countFlags corner_mine
              ∧ mineCells B' = mineCells corner_mine
              ∧ (correctCounts corner_mine → correctCounts B')
              ∧ (checkGameWon corner_mine = true → checkGameWon B' = true)
              ∧ (checkGameLost corner_mine = true → checkGameLost B' = true)
    | TypeError => ¬ rectangular corner_mine
    | OutOfFuel => False
    end.
Proof.
  split; [reflexivity|].
  exact (revealCell_keeps corner_mine_world 0%nat corner_mine 2 2 eq_refl).
Defined.

Lemma stays_open B r c cell :
  validIn B (mkPos r c) → cellAt B r c = Some cell →
  isFlagged cell = false → isRevealed cell = false → stays B r c = false.
Proof.
  unfold validIn, stays. simpl. intros Hv Hcell Hf Hr.
  rewrite Hv, Hcell, Hf, Hr. apply isValidPosition_spec in Hv.
  rewrite !bool_decide_eq_false_2 by lia. reflexivity.
Qed.

Lemma revealCell_value w b B r c B' :
  heap w !! b = Some B → revealV (S (hiddenCells B)) B r c = Ret B' →
  ∃ b' hs, revealCell b r c w = Ret (b', set_heap w (heap w ++ hs))
           ∧ (heap w ++ hs) !! b' = Some B'
           ∧ if stays B r c then b' = b ∧ hs = []
             else (length (heap w) ≤ b')%nat.
Proof.
  intros Hb E. unfold revealCell.
  rewrite (bind_ret _ _ _ _ _ (deref_run _ _ _ Hb)).
  pose proof (revealCell_fuel_refines (S (hiddenCells B)) w b B r c Hb) as H.
  unfold refines in H. rewrite E in H. exact H.
Qed.

(** X11 [revealCell]: at a hidden, unflagged cell that is a mine or has a
    positive count the call reveals this cell and nothing else; after the
    reveal of a mine the board is lost. *)
Theorem revealCell_single (w : World) (b : Ref) (B : Board) (r c : Z)
    (cell : CellState) :
  heap w !! b = Some B → validIn B (mkPos r c) → cellAt B r c = Some cell →
  isFlagged cell = false → isRevealed cell = false →
  content cell = mine ∨ (∃ n, content cell = num n ∧ 0 < n) →
  ∃ b' w',
    revealCell b r c w = Ret (b', w') ∧ b' ≠ b
    ∧ heap w' !! b = Some B
    ∧ heap w' !! b' = Some (setCell B r c (mkCell (content cell) true false))
    ∧ (content cell = mine →
       checkGameLost (setCell B r c (mkCell (content cell) true false)) = true).
Proof.
  intros Hb Hv Hcell Hf Hr Hk.
  pose proof (stays_open B r c cell Hv Hcell Hf Hr) as Hs.
  assert (E : revealV (S (hiddenCells B)) B r c
              = Ret (setCell B r c (mkCell (content cell) true false))).
  { simpl. rewrite Hs, Hcell, Hf.
    destruct Hk as [->|(n & -> & Hn)]; simpl; [reflexivity|].
    apply Z.ltb_lt in Hn. rewrite Hn. reflexivity. }
  destruct (revealCell_value w b B r c _ Hb E) as (b' & hs & Erun & Hb' & Hfresh).
  rewrite Hs in Hfresh. pose proof (lookup_lt_Some _ _ _ Hb).
  exists b', (set_heap w (heap w ++ hs)). split; [exact Erun|].
  split; [lia|]. split; [simpl; rewrite lookup_app_l by lia; exact Hb|].
  split; [exact Hb'|]. intros Hm. apply checkGameLost_true.
  exists r, c, (mkCell (content cell) true false).
  rewrite (cellAt_setCell_eq _ _ _ _ _ Hcell). auto.
Qed.

Lemma revealCell_single_witness :
  heap corner_mine_world !! 0%nat = Some corner_mine
  ∧ validIn corner_mine (mkPos 0 0)
  ∧ cellAt corner_mine 0 0 = Some (hiddenCell mine)
  ∧ ∃ b' w',
      revealCell 0%nat 0 0 corner_mine_world = Ret (b', w') ∧ b' ≠ 0%nat
      ∧ heap w' !! 0%nat = Some corner_mine
      ∧ heap w' !! b' = Some (setCell corner_mine 0 0 (mkCell mine true false))
      ∧ (mine = mine →
         checkGameLost (setCell corner_mine 0 0 (mkCell mine true false)) = true).
Proof.
  split; [reflexivity|]. split; [reflexivity|]. split; [reflexivity|].
  exact (revealCell_single corner_mine_world 0%nat corner_mine 0 0 (hiddenCell mine)
           eq_refl eq_refl eq_refl eq_refl eq_refl (or_introl eq_refl)).
Defined.

(** With correct counts a reveal gets to no mine but the cell it starts at. *)
Lemma reach_no_mine B p q :
  correctCounts B → reach B p q →
  q = p ∨ ∃ cell, cellOf B q = Some cell ∧ content cell ≠ mine.
Proof.
  intros HC. induction 1 as [|x y Hx _ (cx & Hcx & Hs) Hy (cy & Hcy & _)];
    [left; reflexivity|]. right. exists cy. split; [exact Hcy|].
  apply orb_false_iff in Hs as [Hm Hpos]. apply bool_decide_eq_false in Hm.
  destruct (HC _ _ _ Hcx Hm) as (n & Hn & Hn'). rewrite Hn' in Hpos. simpl in Hpos.
  apply Z.ltb_ge in Hpos. pose proof (countAdjacentMines_nonneg _ _ _ _ Hn).
  assert (n = 0) as -> by lia.
  exact (countAdjacentMines_zero B x y cy Hn (reach_valid _ _ _ Hx) Hy Hcy).
Qed.

Lemma revealV_no_other_mine fuel B r c B' q cell :
  correctCounts B → revealV fuel B r c = Ret B' →
  q ≠ mkPos r c → cellOf B q = Some cell → content cell = mine →
  cellOf B' q = Some cell.
Proof.
  intros HC E Hq Hcell Hm. pose proof (revealV_grows _ _ _ _ _ E) as Hg.
  unfold cellOf in *.
  destruct (grows_cellAt_l _ _ _ _ _ Hg Hcell) as (y & Hy & [->|(Hr & _ & ->)]);
    [exact Hy|]. exfalso.
  assert (Hrev : revealedAt B' q) by (eexists; split; [exact Hy | reflexivity]).
  apply (revealV_reach _ _ _ _ _ E) in Hrev as [(x & Hx & Hxr)|Hreach].
  - unfold cellOf in Hx. congruence.
  - destruct (reach_no_mine B _ q HC Hreach) as [->|(x & Hx & Hxm)];
      [contradiction|]. unfold cellOf in Hx. congruence.
Qed.

Lemma revealV_not_lost fuel B r c B' :
  correctCounts B → revealV fuel B r c = Ret B' →
  (∀ cell, cellAt B r c = Some cell → content cell ≠ mine) →
  checkGameLost B = false → checkGameLost B' = false.
Proof.
  intros HC E Htarget Hl. apply checkGameLost_false. intros r' c' y Hy Hm.
  destruct (grows_cellAt_r _ _ _ _ _ (revealV_grows _ _ _ _ _ E) Hy)
    as (x & Hx & Hstep).
  destruct (reveal_step_frame _ _ Hstep) as (Hc & _). rewrite Hc in Hm.
  destruct (decide (mkPos r' c' = mkPos r c)) as [[= -> ->]|Hne].
  - destruct (Htarget x Hx Hm).
  - pose proof (revealV_no_other_mine _ _ _ _ _ (mkPos r' c') x HC E Hne Hx Hm) as Hy'.
    unfold cellOf in Hy'. simpl in Hy'.
    assert (y = x) as -> by congruence.
    exact (proj1 (checkGameLost_false B) Hl _ _ _ Hx Hm).
Qed.

(** X12 [revealCell]: on a board whose cells carry their counts, flagged
    cells or not, the reveal changes no mine cell other than the one at
    the position it is called on; so a reveal at a cell that is not a mine
    never loses the game. *)
Theorem revealCell_safe (w : World) (b : Ref) (B : Board) (r c : Z) :
  heap w !! b = Some B → correctCounts B →
  match revealCell b r c w with
  | Ret (b', w') =>
      ∃ B', heap w' !! b' = Some B'
            ∧ (∀ q cell, q ≠ mkPos r c → cellOf B q = Some cell →
                         content cell = mine → cellOf B' q = Some cell)
            ∧ ((∀ cell, cellAt B r c = Some cell → content cell ≠ mine) →
               checkGameLost B = false → checkGameLost B' = false)
  | TypeError => ¬ rectangular B
  | OutOfFuel => False
  end.
Proof.
  intros Hb HC. pose proof (revealCell_run w b B r c Hb) as H.
  destruct (revealCell b r c w) as [[b' w']| |]; [|exact H|exact H].
  destruct H as (B' & hs & _ & Hb' & E & _). exists B'.
  split; [exact Hb'|]. split.
  - intros q cell Hq Hcell Hm. eapply revealV_no_other_mine; eassumption.
  - intros Htarget Hl. eapply revealV_not_lost; eassumption.
Qed.

Lemma revealCell_safe_witness :
  heap corner_mine_world !! 0%nat = Some corner_mine ∧ correctCounts corner_mine
  ∧ match revealCell 0%nat 2 2 corner_mine_world with
    | Ret (b', w') =>
        ∃ B', heap w' !! b' = Some B'
              ∧ (∀ q cell, q ≠ mkPos 2 2 → cellOf corner_mine q = Some cell →
                           content cell = mine → cellOf B' q = Some cell)
              ∧ ((∀ cell, cellAt corner_mine 2 2 = Some cell → content cell ≠ mine) →
                 checkGameLost corner_mine = false → checkGameLost B' = false)
    | TypeError => ¬ rectangular corner_mine
    | OutOfFuel => False
    end.
Proof.
  split; [reflexivity|]. split; [exact correctCounts_corner_mine|].
  exact (revealCell_safe corner_mine_world 0%nat corner_mine 2 2
           eq_refl correctCounts_corner_mine).
Defined.

(** ** Boards cell by cell *)

Lemma shaped_rectangular R C B : shaped R C B → rectangular B.
Proof.
  intros [_ Hrows]. unfold rectangular. destruct B as [|rw B]; [constructor|].
  simpl. inversion Hrows as [|? ? Hrw _]; subst.
  eapply Forall_impl; [exact Hrows|]. intros rw' Hrw'. simpl in *. congruence.
Qed.

Lemma shaped_valid R C B r c :
  0 ≤ R → 0 ≤ C → shaped R C B →
  isValidPosition r c (Z.of_nat (length B)) (Z.of_nat (length (B !!! 0%nat)))
  = isValidPosition r c R C.
Proof.
  intros HR HC [Hl Hrows]. apply eq_true_iff_eq. rewrite !isValidPosition_spec.
  destruct B as [|rw B]; simpl in *; [lia|].
  inversion Hrows as [|? ? Hrw _]; subst. lia.
Qed.



Lemma cellwise_shaped (R : CellState → CellState → Prop) rows cols B B' :
  Forall2 (Forall2 R) B B' → shaped rows cols B → shaped rows cols B'.
Proof.
  intros H [Hl Hrows]. split; [rewrite <- (Forall2_length _ _ _ H); exact Hl|].
  apply Forall_forall. intros rw' [i Hi]%list_elem_of_lookup.
  destruct (Forall2_lookup_r _ _ _ _ _ H Hi) as (rw & Hrw & HF).
  rewrite <- (Forall2_length _ _ _ HF).
  rewrite Forall_forall in Hrows. apply Hrows. eapply list_elem_of_lookup_2, Hrw.
Qed.



(** ** The first click *)

Lemma fresh_board_shaped R C ps B : fresh_board R C ps B → shaped R C B.
Proof. intros (Hl & Hrows & _). split; assumption. Qed.

Lemma fresh_board_not_lost R C ps B :
  0 ≤ R → 0 ≤ C → fresh_board R C ps B → checkGameLost B = false.
Proof.
  intros HR HC HF. pose proof (fresh_board_shaped _ _ _ _ HF) as HS.
  pose proof (shaped_rectangular _ _ _ HS) as HB.
  destruct HF as (_ & _ & _ & Hcells).
  apply checkGameLost_false. intros r c cell Hcell _.
  pose proof (cellAt_valid B r c cell HB Hcell) as Hv.
  rewrite (shaped_valid R C B r c HR HC HS) in Hv.
  destruct (Hcells r c Hv) as (cell' & Hcell' & Hr & _). congruence.
Qed.

(** The board of the first click: made around the position, then revealed
    there. *)
Lemma first_click_run w R C mc p :
  fair w → 0 ≤ R → 0 ≤ C → 0 ≤ mc →
  ∃ b' w' B',
    (board ← createBoard (mkConfig R C mc) (Some p);
     revealCell board (row p) (col p)) w = Ret (b', w')
    ∧ heap w' !! b' = Some B' ∧ fair w'
    ∧ shaped R C B' ∧ correctCounts B'
    ∧ checkGameLost B' = false
    ∧ (isValidPosition (row p) (col p) R C = true →
       ∀ q, q = p ∨ q ∈ getNeighbors (row p) (col p) R C →
         ∃ cell, cellOf B' q = Some cell
                 ∧ isRevealed cell = true ∧ content cell ≠ mine).
Proof.
  intros Hfair HR HC Hmc.
  destruct (createBoard_run w R C mc (Some p) Hfair HR HC Hmc) as
    (ps & w1 & B & Ecreate & Hb & _ & Hfresh & _ & _ & _ & Hps & Hfair1).
  rewrite (bind_ret _ _ _ _ _ Ecreate).
  pose proof (fresh_board_shaped _ _ _ _ Hfresh) as HS.
  pose proof (shaped_rectangular _ _ _ HS) as HB.
  pose proof (fresh_board_not_lost R C ps B HR HC Hfresh) as Hnl.
  destruct Hfresh as (_ & _ & Hcounts & Hcells).
  assert (Hdims : ∀ q, validIn B q ↔ isValidPosition (row q) (col q) R C = true).
  { intros q. unfold validIn. rewrite (shaped_valid R C B _ _ HR HC HS). reflexivity. }
  assert (Hzone : ∀ q, isValidPosition (row q) (col q) R C = true →
            q = p ∨ q ∈ getNeighbors (row p) (col p) R C →
            ∃ cell, cellOf B q = Some cell ∧ isRevealed cell = false
                    ∧ isFlagged cell = false ∧ content cell ≠ mine).
  { intros q Hqv Hq.
    destruct (Hcells _ _ Hqv) as (cell & Hcell & Hr & Hf & Hm).
    exists cell. split; [exact Hcell|]. split; [exact Hr|]. split; [exact Hf|].
    intros Hmine. apply Hm in Hmine. destruct (Hps _ Hmine) as [_ Hout].
    apply Hout. unfold exclusionSet. apply elem_of_union. destruct Hq as [->|Hq].
    - left. apply elem_of_singleton. reflexivity.
    - right. apply elem_of_list_to_set, list_elem_of_fmap.
      exists q. split; [destruct q; reflexivity | exact Hq]. }
  pose proof (revealCell_run w1 _ B (row p) (col p) Hb) as Hrun.
  destruct (revealCell _ (row p) (col p) w1) as [[b' w']| |];
    [|contradiction|contradiction].
  destruct Hrun as (B' & hs & -> & Hb' & E & _).
  pose proof (revealV_grows _ _ _ _ _ E) as Hg.
  exists b', (set_heap w1 (heap w1 ++ hs)), B'.
  split; [reflexivity|]. split; [exact Hb'|]. split; [exact Hfair1|].
  split; [exact (cellwise_shaped _ _ _ _ _ Hg HS)|].
  split; [exact (grows_correctCounts _ _ Hg Hcounts)|]. split.
  - eapply revealV_not_lost; try eassumption.
    intros cell Hcell.
    assert (Hv : isValidPosition (row p) (col p) R C = true)
      by (apply Hdims; exact (cellAt_valid B _ _ cell HB Hcell)).
    destruct (Hzone p Hv (or_introl eq_refl)) as (cp & Hcp & _ & _ & Hm).
    unfold cellOf in Hcp. congruence.
  - intros Hp.
    destruct (Hzone p Hp (or_introl eq_refl)) as (cp & Hcp & Hcpr & Hcpf & Hcpm).
    assert (Hpv : validIn B p) by (apply Hdims, Hp).
    assert (Hnb : neighborsIn B p = getNeighbors (row p) (col p) R C).
    { unfold neighborsIn. apply isValidPosition_spec in Hp.
      destruct HS as [Hl Hrows]. rewrite Hl.
      destruct B as [|rw B]; [simpl in Hl; lia|]. simpl.
      inversion Hrows as [|? ? Hrw _]; subst. rewrite Hrw, !Z2Nat.id by lia.
      reflexivity. }
    assert (Hcount : countAdjacentMines B (row p) (col p) = Some 0).
    { apply (countAdjacentMines_no_mines B p HB Hpv). intros n cell Hn Hcell.
      rewrite Hnb in Hn.
      destruct (Hzone n (getNeighbors_valid _ _ _ _ _ Hn) (or_intror Hn))
        as (cn & Hcn & _ & _ & Hm).
      congruence. }
    assert (Hzero : content cp = num 0).
    { destruct (Hcounts _ _ _ Hcp Hcpm) as (n & Hn & Hn'). congruence. }
    assert (Hpp : reach B p p).
    { apply reach_here; [exact Hpv|]. exists cp. auto. }
    intros q Hq.
    assert (Hqv : isValidPosition (row q) (col q) R C = true)
      by (destruct Hq as [->|Hq]; [exact Hp | exact (getNeighbors_valid _ _ _ _ _ Hq)]).
    destruct (Hzone q Hqv Hq) as (cq & Hcq & Hcqr & Hcqf & Hcqm).
    assert (Hreach : reach B p q).
    { destruct Hq as [->|Hq]; [exact Hpp|].
      eapply reach_step; [exact Hpp | | rewrite Hnb; exact Hq | exists cq; auto].
      exists cp. split; [exact Hcp|]. rewrite Hzero. reflexivity. }
    assert (Hrev : revealedAt B' q).
    { apply (revealV_reach _ _ _ _ _ E). right.
      replace (mkPos (row p) (col p)) with p by (destruct p; reflexivity).
      exact Hreach. }
    destruct Hrev as (y & Hy & Hyr). exists y. split; [exact Hy|].
    split; [exact Hyr|].
    destruct (grows_cellAt_r _ _ _ _ _ Hg Hy) as (x & Hx & Hstep).
    destruct (reveal_step_frame _ _ Hstep) as (-> & _).
    unfold cellOf in Hcq. congruence.
Qed.

(** X13 [createBoard], [revealCell]: the first click.  For non-negative
    [rows], [cols] and [mineCount] and a fair random source, building the
    board around a position and revealing that position never ends on a
    lost board; when the position is on the board, the cell and all its
    neighbors come out revealed, none of them a mine. *)
Theorem first_click_safe (w : World) (config : GameConfig) (p : Position) :
  fair w → 0 ≤ rows config → 0 ≤ cols config → 0 ≤ mineCount config →
  ∃ b' w' B',
    (board ← createBoard config (Some p); revealCell board (row p) (col p)) w
    = Ret (b', w')
    ∧ heap w' !! b' = Some B'
    ∧ checkGameLost B' = false
    ∧ (isValidPosition (row p) (col p) (rows config) (cols config) = true →
       ∀ q, q = p ∨ q ∈ getNeighbors (row p) (col p) (rows config) (cols config) →
         ∃ cell, cellOf B' q = Some cell
                 ∧ isRevealed cell = true ∧ content cell ≠ mine).
Proof.
  destruct config as [R C mc]. simpl. intros Hfair HR HC Hmc.
  destruct (first_click_run w R C mc p Hfair HR HC Hmc)
    as (b' & w' & B' & E & Hb' & _ & _ & _ & Hnl & Hzone).
  exists b', w', B'. auto.
Qed.

Lemma first_click_safe_witness :
  fair still_world ∧ 0 ≤ 9 ∧ 0 ≤ 9 ∧ 0 ≤ 10
  ∧ ∃ b' w' B',
      (board ← createBoard (mkConfig 9 9 10) (Some (mkPos 4 4));
       revealCell board 4 4) still_world = Ret (b', w')
      ∧ heap w' !! b' = Some B'
      ∧ checkGameLost B' = false
      ∧ (isValidPosition 4 4 9 9 = true →
         ∀ q, q = mkPos 4 4 ∨ q ∈ getNeighbors 4 4 9 9 →
           ∃ cell, cellOf B' q = Some cell
                   ∧ isRevealed cell = true ∧ content cell ≠ mine).
Proof.
  split; [exact fair_still_world|]. split; [lia|]. split; [lia|]. split; [lia|].
  apply (first_click_safe still_world (mkConfig 9 9 10) (mkPos 4 4));
    [exact fair_still_world | simpl; lia | simpl; lia | simpl; lia].
Defined.

(** ** Flags *)

Lemma existsb_Forall2_eq {A} (R : A → A → Prop) (f g : A → bool) (l k : list A) :
  (∀ x y, R x y → f y = g x) → Forall2 R l k → existsb f k = existsb g l.
Proof.
  intros H. induction 1 as [|x y l k Hxy _ IH]; simpl; [reflexivity|].
  rewrite IH, (H x y Hxy). reflexivity.
Qed.

Lemma same_play_length0 (B B' : Board) :
  Forall2 (Forall2 same_play) B B' → length (B' !!! 0%nat) = length (B !!! 0%nat).
Proof.
  intros [|rw rw' ? ? Hrw _]; [reflexivity|]. simpl.
  symmetry. exact (Forall2_length _ _ _ Hrw).
Qed.

Lemma same_play_won (B B' : Board) :
  Forall2 (Forall2 same_play) B B' → checkGameWon B' = checkGameWon B.
Proof.
  intros HF. unfold checkGameWon.
  rewrite (same_play_length0 _ _ HF), <- (Forall2_length _ _ _ HF).
  rewrite (existsb_Forall2_eq (Forall2 same_play) _
             (λ rw, existsb (λ cell, bool_decide (content cell ≠ mine)
                                     && negb (isRevealed cell)) rw) B B');
    [reflexivity| |exact HF].
  intros rw rw' Hrw. eapply existsb_Forall2_eq; [|exact Hrw].
  intros x y [Hc Hr]. cbv beta. rewrite Hc, Hr. reflexivity.
Qed.

Lemma same_play_lost (B B' : Board) :
  Forall2 (Forall2 same_play) B B' → checkGameLost B' = checkGameLost B.
Proof.
  intros HF. unfold checkGameLost.
  eapply (existsb_Forall2_eq (Forall2 same_play)); [|exact HF].
  intros rw rw' Hrw. eapply existsb_Forall2_eq; [|exact Hrw].
  intros x y [Hc Hr]. cbv beta. rewrite Hc, Hr. reflexivity.
Qed.

Lemma same_play_refl B : Forall2 (Forall2 same_play) B B.
Proof.
  apply Forall2_same_length_lookup_2; [reflexivity|]. intros i rw rw' H H'.
  assert (rw' = rw) as -> by congruence.
  apply Forall2_same_length_lookup_2; [reflexivity|]. intros j x y Hx Hy.
  assert (y = x) as -> by congruence. split; reflexivity.
Qed.

Lemma setCell_cellwise (R : CellState → CellState → Prop) B r c x y :
  (∀ z, R z z) → cellAt B r c = Some x → R x y →
  Forall2 (Forall2 R) B (setCell B r c y).
Proof.
  intros Hrefl Hx Hxy. apply cellwise_Forall2.
  - apply same_shape_setCell, same_shape_refl.
  - intros r' c' z Hz. destruct (decide ((r', c') = (r, c))) as [[= -> ->]|Hne].
    + exists y. split; [eapply cellAt_setCell_eq, Hx|].
      assert (z = x) as -> by congruence. exact Hxy.
    + exists z. rewrite cellAt_setCell_ne by exact Hne. auto.
Qed.

Lemma setCell_id B r c x : cellAt B r c = Some x → setCell B r c x = B.
Proof.
  intros Hx. apply Forall2_Forall2_eq.
  apply (setCell_cellwise (λ x y, y = x) B r c x x); auto.
Qed.

Lemma setCell_setCell B r c x y z :
  cellAt B r c = Some x → setCell (setCell B r c y) r c z = setCell B r c z.
Proof.
  intros Hx. apply Forall2_Forall2_eq. apply cellwise_Forall2.
  - assert (H : ∀ B1 B2 : Board, same_shape B1 B2 → same_shape B2 B1).
    { unfold same_shape. intros B1 B2 H12.
      apply Forall2_flip. eapply Forall2_impl; [exact H12|].
      intros ? ? E. simpl. symmetry. exact E. }
    assert (H1 : same_shape (setCell B r c z) B)
      by apply H, same_shape_setCell, same_shape_refl.
    unfold same_shape in *.
    pose proof (same_shape_setCell B (setCell B r c y) r c z
                  (same_shape_setCell B B r c y (same_shape_refl B))) as H2.
    unfold same_shape in H2.
    apply Forall2_same_length_lookup_2.
    { rewrite (Forall2_length _ _ _ H1). exact (Forall2_length _ _ _ H2). }
    intros i rw rw' Hrw Hrw'.
    destruct (Forall2_lookup_l _ _ _ _ _ H1 Hrw) as (rw0 & Hrw0 & E1).
    pose proof (Forall2_lookup_lr _ _ _ _ _ _ H2 Hrw0 Hrw') as E2.
    simpl in *. congruence.
  - intros r' c' u Hu. exists u. split; [|reflexivity].
    destruct (decide ((r', c') = (r, c))) as [[= -> ->]|Hne].
    + rewrite (cellAt_setCell_eq B r c z x Hx) in Hu.
      erewrite cellAt_setCell_eq; [exact Hu|]. eapply cellAt_setCell_eq, Hx.
    + rewrite cellAt_setCell_ne in Hu by exact Hne.
      rewrite !cellAt_setCell_ne by exact Hne. exact Hu.
Qed.

Lemma toggleFlag_same_play w b B r c :
  heap w !! b = Some B →
  match toggleFlag b r c w with
  | Ret (b', w') =>
      ∃ B', heap w' !! b' = Some B' ∧ heap w' !! b = Some B
            ∧ Forall2 (Forall2 same_play) B B'
            ∧ (fair w → fair w')
  | TypeError => ¬ rectangular B
  | OutOfFuel => False
  end.
Proof.
  intros Hb. rewrite (toggleFlag_run w b B r c Hb).
  destruct (_ || _ || negb _) eqn:Hguard.
  { exists B. split; [exact Hb|]. split; [exact Hb|].
    split; [apply same_play_refl | auto]. }
  apply orb_false_iff in Hguard as [_ Hv]. apply negb_false_iff in Hv.
  destruct (cellAt B r c) as [cell|] eqn:Hcell.
  - destruct (isRevealed cell) eqn:Hr.
    { exists B. split; [exact Hb|]. split; [exact Hb|].
      split; [apply same_play_refl | auto]. }
    eexists. simpl heap. split; [apply lookup_fresh|]. split; [|split].
    + rewrite lookup_app_l; [exact Hb | eapply lookup_lt_Some, Hb].
    + apply (setCell_cellwise same_play B r c cell); [split; reflexivity|exact Hcell|].
      split; [reflexivity | simpl; symmetry; exact Hr].
    + intros Hfair. exact Hfair.
  - intros HB. destruct (rectangular_cellAt B r c HB Hv) as [x Hx]. congruence.
Qed.

(** X14 [toggleFlag], [checkGameWon], [checkGameLost]: a flag changes
    nothing of the game.  Whenever the call returns, every cell of the
    result has the content and the reveal state of the input cell, so the
    board is won, respectively lost, exactly when the input was, and the
    numbers of mines and of revealed cells are the same; the input board
    stays in the store.  The call raises only on a board whose rows differ
    in length. *)
Theorem toggleFlag_frame (w : World) (b : Ref) (B : Board) (r c : Z) :
  heap w !! b = Some B →
  match toggleFlag b r c w with
  | Ret (b', w') =>
      ∃ B', heap w' !! b' = Some B' ∧ heap w' !! b = Some B
            ∧ Forall2 (Forall2 same_play) B B'
            ∧ checkGameWon B' = checkGameWon B
            ∧ checkGameLost B' = checkGameLost B
            ∧ mineCells B' = mineCells B
            ∧ revealedCells B' = revealedCells B
  | TypeError => ¬ rectangular B
  | OutOfFuel => False
  end.
Proof.
  intros Hb. pose proof (toggleFlag_same_play w b B r c Hb) as H.
  destruct (toggleFlag b r c w) as [[b' w']| |]; [|exact H|exact H].
  destruct H as (B' & Hb' & Hkeep & HF & _). exists B'.
  split; [exact Hb'|]. split; [exact Hkeep|]. split; [exact HF|].
  split; [exact (same_play_won _ _ HF)|]. split; [exact (same_play_lost _ _ HF)|].
  split.
  - apply mineCells_same. eapply Forall2_impl; [exact HF|].
    intros rw rw' Hrw. eapply Forall2_impl; [exact Hrw|].
    intros x y [Hc _]. simpl. rewrite Hc. reflexivity.
  - unfold revealedCells. eapply (frame_count _ same_play); [|exact HF].
    intros x y [_ Hr]. simpl. rewrite Hr. reflexivity.
Qed.

Lemma toggleFlag_frame_witness :
  heap corner_mine_world !! 0%nat = Some corner_mine
  ∧ match toggleFlag 0%nat 0 0 corner_mine_world with
    | Ret (b', w') =>
        ∃ B', heap w' !! b' = Some B' ∧ heap w' !! 0%nat = Some corner_mine
              ∧ Forall2 (Forall2 same_play) corner_mine B'
              ∧ checkGameWon B' = checkGameWon corner_mine
              ∧ checkGameLost B' = checkGameLost corner_mine
              ∧ mineCells B' = mineCells corner_mine
              ∧ revealedCells B' = revealedCells corner_mine
    | TypeError => ¬ rectangular corner_mine
    | OutOfFuel => False
    end.
Proof.
  split; [reflexivity|].
  apply (toggleFlag_frame corner_mine_world 0%nat corner_mine 0 0). reflexivity.
Defined.

Lemma toggleFlag_hidden w b B r c cell :
  heap w !! b = Some B →
  isValidPosition r c (Z.of_nat (length B)) (Z.of_nat (length (B !!! 0%nat))) = true →
  cellAt B r c = Some cell → isRevealed cell = false →
  toggleFlag b r c w =
  Ret (length (heap w), set_heap w (heap w ++ [setCell B r c (toggled cell)])).
Proof.
  intros Hb Hv Hcell Hr. rewrite (toggleFlag_run w b B r c Hb), Hv, Hcell.
  unfold toggled. rewrite Hr.
  unfold isValidPosition in Hv. rewrite !andb_true_iff in Hv.
  rewrite !bool_decide_eq_false_2 by lia. reflexivity.
Qed.

(** X15 [toggleFlag], [countFlags]: on a hidden cell at a valid position the
    call returns a new board in which the flag of that cell is flipped and
    every other cell is as it was; the number of flags goes up by one when
    the cell was not flagged and down by one when it was.  The input board
    stays in the store. *)
Theorem toggleFlag_flips (w : World) (b : Ref) (B : Board) (r c : Z)
    (cell : CellState) :
  heap w !! b = Some B →
  isValidPosition r c (Z.of_nat (length B)) (Z.of_nat (length (B !!! 0%nat))) = true →
  cellAt B r c = Some cell → isRevealed cell = false →
  ∃ B', toggleFlag b r c w
        = Ret (length (heap w), set_heap w (heap w ++ [B']))
        ∧ length (heap w) ≠ b
        ∧ (heap w ++ [B']) !! b = Some B
        ∧ cellAt B' r c
          = Some (mkCell (content cell) false (negb (isFlagged cell)))
        ∧ (∀ r' c', (r', c') ≠ (r, c) → cellAt B' r' c' = cellAt B r' c')
        ∧ (if isFlagged cell then S (countFlags B') = countFlags B
           else countFlags B' = S (countFlags B)).
Proof.
  intros Hb Hv Hcell Hr. exists (setCell B r c (toggled cell)).
  split; [exact (toggleFlag_hidden w b B r c cell Hb Hv Hcell Hr)|].
  pose proof (lookup_lt_Some _ _ _ Hb) as Hlt.
  split; [lia|]. split; [rewrite lookup_app_l; assumption|]. split.
  - rewrite (cellAt_setCell_eq B r c _ cell Hcell). unfold toggled.
    rewrite Hr. reflexivity.
  - split; [intros r' c' Hne; apply cellAt_setCell_ne, Hne|].
    pose proof (filter_setCell (λ x, isFlagged x = true) B r c cell
                  (toggled cell) Hcell) as Hcount.
    unfold countFlags. revert Hcount. cbv beta.
    case_decide as H1; case_decide as H2; intros Hcount;
      unfold toggled in H2; cbn [isFlagged] in H2;
      destruct (isFlagged cell); cbn [negb] in H2; try congruence; lia.
Qed.

Lemma toggleFlag_flips_witness :
  heap corner_mine_world !! 0%nat = Some corner_mine
  ∧ isValidPosition 0 0 (Z.of_nat (length corner_mine))
      (Z.of_nat (length (corner_mine !!! 0%nat))) = true
  ∧ cellAt corner_mine 0 0 = Some (hiddenCell mine)
  ∧ isRevealed (hiddenCell mine) = false
  ∧ ∃ B', toggleFlag 0%nat 0 0 corner_mine_world
          = Ret (length (heap corner_mine_world),
                 set_heap corner_mine_world (heap corner_mine_world ++ [B']))
          ∧ length (heap corner_mine_world) ≠ 0%nat
          ∧ (heap corner_mine_world ++ [B']) !! 0%nat = Some corner_mine
          ∧ cellAt B' 0 0
            = Some (mkCell (content (hiddenCell mine)) false
                      (negb (isFlagged (hiddenCell mine))))
          ∧ (∀ r' c', (r', c') ≠ (0, 0) → cellAt B' r' c' = cellAt corner_mine r' c')
          ∧ (if isFlagged (hiddenCell mine) then S (countFlags B') = countFlags corner_mine
             else countFlags B' = S (countFlags corner_mine)).
Proof.
  split; [reflexivity|]. split; [reflexivity|]. split; [reflexivity|].
  split; [reflexivity|].
  apply (toggleFlag_flips corner_mine_world 0%nat corner_mine 0 0 (hiddenCell mine));
    reflexivity.
Defined.

Lemma setCell_length0 B r c x cell :
  cellAt B r c = Some cell →
  length (setCell B r c x !!! 0%nat) = length (B !!! 0%nat).
Proof.
  intros Hcell.
  pose proof (setCell_cellwise (λ _ _, True) B r c cell x (λ _, I) Hcell I) as HF.
  destruct HF as [|rw rw' ? ? Hrw _]; [reflexivity|]. simpl.
  symmetry. exact (Forall2_length _ _ _ Hrw).
Qed.

(** X16 [toggleFlag]: toggling twice.  On a hidden cell at a valid position,
    two calls in a row, the second on the result of the first, end with a
    board equal to the input, under a reference of its own. *)
Theorem toggleFlag_twice (w : World) (b : Ref) (B : Board) (r c : Z)
    (cell : CellState) :
  heap w !! b = Some B →
  isValidPosition r c (Z.of_nat (length B)) (Z.of_nat (length (B !!! 0%nat))) = true →
  cellAt B r c = Some cell → isRevealed cell = false →
  ∃ b2 w2,
    (b1 ← toggleFlag b r c; toggleFlag b1 r c) w = Ret (b2, w2)
    ∧ heap w2 !! b2 = Some B ∧ b2 ≠ b ∧ heap w2 !! b = Some B.
Proof.
  intros Hb Hv Hcell Hr.
  rewrite (bind_ret _ _ _ _ _ (toggleFlag_hidden w b B r c cell Hb Hv Hcell Hr)).
  set (B1 := setCell B r c (toggled cell)).
  set (w1 := set_heap w (heap w ++ [B1])).
  assert (Hb1 : heap w1 !! length (heap w) = Some B1) by apply lookup_fresh.
  assert (Hcell1 : cellAt B1 r c = Some (toggled cell))
    by exact (cellAt_setCell_eq B r c _ cell Hcell).
  assert (Hv1 : isValidPosition r c (Z.of_nat (length B1))
                  (Z.of_nat (length (B1 !!! 0%nat))) = true).
  { unfold B1. rewrite setCell_length, (setCell_length0 B r c _ cell Hcell). exact Hv. }
  rewrite (toggleFlag_hidden w1 _ B1 r c (toggled cell) Hb1 Hv1 Hcell1 Hr).
  assert (HB2 : setCell B1 r c (toggled (toggled cell)) = B).
  { unfold B1. rewrite (setCell_setCell B r c cell _ _ Hcell).
    replace (toggled (toggled cell)) with cell.
    - exact (setCell_id B r c cell Hcell).
    - destruct cell as [k rv fl]. unfold toggled. simpl. rewrite negb_involutive.
      reflexivity. }
  rewrite HB2. eexists _, _. split; [reflexivity|].
  pose proof (lookup_lt_Some _ _ _ Hb) as Hlt. simpl heap.
  split; [apply lookup_fresh|]. split; [rewrite length_app; simpl; lia|].
  rewrite !lookup_app_l; [exact Hb | assumption | rewrite length_app; simpl; lia].
Qed.

Lemma toggleFlag_twice_witness :
  heap corner_mine_world !! 0%nat = Some corner_mine
  ∧ isValidPosition 1 1 (Z.of_nat (length corner_mine))
      (Z.of_nat (length (corner_mine !!! 0%nat))) = true
  ∧ cellAt corner_mine 1 1 = Some (hiddenCell (num 1))
  ∧ isRevealed (hiddenCell (num 1)) = false
  ∧ ∃ b2 w2,
      (b1 ← toggleFlag 0%nat 1 1; toggleFlag b1 1 1) corner_mine_world = Ret (b2, w2)
      ∧ heap w2 !! b2 = Some corner_mine ∧ b2 ≠ 0%nat
      ∧ heap w2 !! 0%nat = Some corner_mine.
Proof.
  split; [reflexivity|]. split; [reflexivity|]. split; [reflexivity|].
  split; [reflexivity|].
  apply (toggleFlag_twice corner_mine_world 0%nat corner_mine 1 1 (hiddenCell (num 1)));
    reflexivity.
Defined.

(** X17 [toggleFlag]: the calls that change nothing.  On a board without
    rows or without columns, at a position outside the board and at a
    revealed cell the call returns the reference it was given and leaves
    the store as it was. *)
Theorem toggleFlag_noop (w : World) (b : Ref) (B : Board) (r c : Z) :
  heap w !! b = Some B →
  length B = 0%nat ∨ length (B !!! 0%nat) = 0%nat
  ∨ isValidPosition r c (Z.of_nat (length B)) (Z.of_nat (length (B !!! 0%nat))) = false
  ∨ (∃ cell, cellAt B r c = Some cell ∧ isRevealed cell = true) →
  toggleFlag b r c w = Ret (b, w).
Proof.
  intros Hb H. rewrite (toggleFlag_run w b B r c Hb).
  destruct (_ || _ || negb _) eqn:Hguard; [reflexivity|].
  apply orb_false_iff in Hguard as [Hguard Hv]. apply negb_false_iff in Hv.
  apply orb_false_iff in Hguard as [H1 H2].
  apply bool_decide_eq_false in H1, H2.
  destruct H as [H|[H|[H|(cell & Hcell & Hr)]]]; [contradiction|contradiction|congruence|].
  rewrite Hcell, Hr. reflexivity.
Qed.

Lemma toggleFlag_noop_witness :
  heap split_row_world !! 0%nat = Some split_row
  ∧ (length split_row = 0%nat ∨ length (split_row !!! 0%nat) = 0%nat
     ∨ isValidPosition 0 2 (Z.of_nat (length split_row))
         (Z.of_nat (length (split_row !!! 0%nat))) = false
     ∨ (∃ cell, cellAt split_row 0 2 = Some cell ∧ isRevealed cell = true))
  ∧ toggleFlag 0%nat 0 2 split_row_world = Ret (0%nat, split_row_world).
Proof.
  assert (H : length split_row = 0%nat ∨ length (split_row !!! 0%nat) = 0%nat
     ∨ isValidPosition 0 2 (Z.of_nat (length split_row))
         (Z.of_nat (length (split_row !!! 0%nat))) = false
     ∨ (∃ cell, cellAt split_row 0 2 = Some cell ∧ isRevealed cell = true)).
  { right. right. right. exists (shownCell (num 0)). split; reflexivity. }
  split; [reflexivity|]. split; [exact H|].
  apply (toggleFlag_noop split_row_world 0%nat split_row 0 2); [reflexivity|exact H].
Defined.

(** ** Showing the mines *)

Lemma revealMine_rows B :
  Forall2 (Forall2 (λ x y, y = revealMine x)) B (map (map revealMine) B).
Proof.
  apply Forall2_map_diag. intros rw. apply Forall2_map_diag. reflexivity.
Qed.

Lemma revealMine_won B : checkGameWon (map (map revealMine) B) = checkGameWon B.
Proof.
  unfold checkGameWon. rewrite length_map.
  replace (length (map (map revealMine) B !!! 0%nat)) with (length (B !!! 0%nat))
    by (destruct B; simpl; [reflexivity | rewrite length_map; reflexivity]).
  rewrite (existsb_Forall2_eq (Forall2 (λ x y, y = revealMine x)) _
             (λ rw, existsb (λ cell, bool_decide (content cell ≠ mine)
                                     && negb (isRevealed cell)) rw)
             B (map (map revealMine) B));
    [reflexivity| |apply revealMine_rows].
  intros rw rw' Hrw. eapply existsb_Forall2_eq; [|exact Hrw].
  intros x y ->. unfold revealMine. cbn [content isRevealed].
  destruct (decide (content x = mine)) as [Hm|Hm]; [|reflexivity].
  rewrite bool_decide_eq_false_2 by tauto. reflexivity.
Qed.

Lemma revealMine_lost B :
  checkGameLost (map (map revealMine) B) = true ↔ mineCells B ≠ 0%nat.
Proof.
  unfold checkGameLost.
  rewrite (existsb_Forall2_eq (Forall2 (λ x y, y = revealMine x)) _
             (λ rw, existsb (λ cell, bool_decide (content cell = mine)) rw)
             B (map (map revealMine) B)); [| |apply revealMine_rows].
  - rewrite mineCells_zero. split.
    + intros (rw & Hrw & H)%existsb_exists.
      apply existsb_exists in H as (cell & Hcell & Hm).
      apply bool_decide_eq_true in Hm. apply list_elem_of_In in Hrw, Hcell.
      intros Hno. exact (Hno rw cell Hrw Hcell Hm).
    + intros Hsome.
      destruct (existsb _ B) eqn:E; [reflexivity|]. exfalso. apply Hsome.
      intros rw cell Hrw Hcell Hm.
      assert (existsb (λ rw, existsb (λ cell, bool_decide (content cell = mine)) rw) B
              = true); [|congruence].
      apply existsb_exists. exists rw. split; [apply list_elem_of_In, Hrw|].
      apply existsb_exists. exists cell. split; [apply list_elem_of_In, Hcell|].
      apply bool_decide_eq_true_2, Hm.
  - intros rw rw' Hrw. eapply existsb_Forall2_eq; [|exact Hrw].
    intros x y ->. unfold revealMine. cbn [content isRevealed].
    destruct (decide (content x = mine)) as [Hm|Hm].
    + rewrite andb_true_r. reflexivity.
    + rewrite bool_decide_eq_false_2 by exact Hm. reflexivity.
Qed.

Lemma revealMine_twice B :
  map (map revealMine) (map (map revealMine) B) = map (map revealMine) B.
Proof.
  rewrite map_map. apply map_ext. intros rw. rewrite map_map. apply map_ext.
  intros x. unfold revealMine. cbn [content isRevealed isFlagged].
  destruct (decide (content x = mine)); reflexivity.
Qed.

(** X18 [revealAllMines], [checkGameLost], [checkGameWon], [countFlags]:
    showing the mines.  The board that the call returns is lost exactly
    when the input has a mine, is won exactly when the input was, and has as
    many flags and as many mines as the input. *)
Theorem revealAllMines_game (w : World) (b : Ref) (B : Board) :
  heap w !! b = Some B →
  ∃ b' w' B',
    revealAllMines b w = Ret (b', w') ∧ heap w' !! b' = Some B'
    ∧ (checkGameLost B' = true ↔ mineCells B ≠ 0%nat)
    ∧ checkGameWon B' = checkGameWon B
    ∧ countFlags B' = countFlags B
    ∧ mineCells B' = mineCells B.
Proof.
  intros Hb. eexists _, _, (map (map revealMine) B).
  split; [exact (revealAllMines_run w b B Hb)|].
  split; [simpl heap; apply lookup_fresh|].
  split; [apply revealMine_lost|]. split; [apply revealMine_won|]. split.
  - unfold countFlags.
    apply (frame_count _ (λ x y, y = revealMine x)); [|apply revealMine_rows].
    intros x y ->. reflexivity.
  - apply mineCells_same. eapply Forall2_impl; [apply revealMine_rows|].
    intros rw rw' Hrw. eapply Forall2_impl; [exact Hrw|].
    intros x y ->. reflexivity.
Qed.

Lemma revealAllMines_game_witness :
  heap corner_mine_world !! 0%nat = Some corner_mine
  ∧ ∃ b' w' B',
      revealAllMines 0%nat corner_mine_world = Ret (b', w')
      ∧ heap w' !! b' = Some B'
      ∧ (checkGameLost B' = true ↔ mineCells corner_mine ≠ 0%nat)
      ∧ checkGameWon B' = checkGameWon corner_mine
      ∧ countFlags B' = countFlags corner_mine
      ∧ mineCells B' = mineCells corner_mine.
Proof.
  split; [reflexivity|].
  apply (revealAllMines_game corner_mine_world 0%nat corner_mine). reflexivity.
Defined.

(** X19 [revealAllMines]: showing the mines twice.  A second call, on the
    result of the first, returns a board equal to that result, under a
    reference of its own; the input and the first result stay in the
    store. *)
Theorem revealAllMines_twice (w : World) (b : Ref) (B : Board) :
  heap w !! b = Some B →
  ∃ b1 w1 B1 b2 w2,
    revealAllMines b w = Ret (b1, w1) ∧ heap w1 !! b1 = Some B1
    ∧ revealAllMines b1 w1 = Ret (b2, w2)
    ∧ heap w2 !! b2 = Some B1 ∧ b2 ≠ b1
    ∧ heap w2 !! b1 = Some B1 ∧ heap w2 !! b = Some B.
Proof.
  intros Hb. pose proof (lookup_lt_Some _ _ _ Hb) as Hlt.
  set (B1 := map (map revealMine) B).
  set (w1 := set_heap w (heap w ++ [B1])).
  assert (Hb1 : heap w1 !! length (heap w) = Some B1) by apply lookup_fresh.
  assert (E2 : revealAllMines (length (heap w)) w1
               = Ret (length (heap w1), set_heap w1 (heap w1 ++ [B1]))).
  { rewrite (revealAllMines_run w1 _ B1 Hb1). unfold B1.
    rewrite revealMine_twice. reflexivity. }
  exists (length (heap w)), w1, B1. eexists _, _.
  split; [exact (revealAllMines_run w b B Hb)|]. split; [exact Hb1|].
  split; [exact E2|]. simpl heap. split.
  - apply lookup_fresh.
  - split; [rewrite length_app; simpl; lia|]. split.
    + rewrite lookup_app_l by (rewrite length_app; simpl; lia). apply lookup_fresh.
    + rewrite !lookup_app_l; [exact Hb | assumption | rewrite length_app; simpl; lia].
Qed.

Lemma revealAllMines_twice_witness :
  heap flagged_mine_world !! 0%nat = Some flagged_mine
  ∧ ∃ b1 w1 B1 b2 w2,
      revealAllMines 0%nat flagged_mine_world = Ret (b1, w1)
      ∧ heap w1 !! b1 = Some B1
      ∧ revealAllMines b1 w1 = Ret (b2, w2)
      ∧ heap w2 !! b2 = Some B1 ∧ b2 ≠ b1
      ∧ heap w2 !! b1 = Some B1 ∧ heap w2 !! 0%nat = Some flagged_mine.
Proof.
  split; [reflexivity|].
  apply (revealAllMines_twice flagged_mine_world 0%nat flagged_mine). reflexivity.
Defined.

(** ** The draws of the shuffle *)

(** X20 [generateMinePositions]: the use of the random source.  With [n]
    cells outside the exclusion set the call makes [n - 1] draws (none when
    [n] is 0), whatever [mineCount] is; [n] is [rows * cols] when no position
    is excluded.  The store is left as it was. *)
Theorem generateMinePositions_draws (w : World) (rows cols mineCount : Z)
    (excludePosition : option Position) :
  fair w →
  ∃ ps w',
    generateMinePositions rows cols mineCount excludePosition w = Ret (ps, w')
    ∧ heap w' = heap w
    ∧ (∀ k, entropy w' k
            = entropy w
                (length (freeCells (exclusionSet excludePosition rows cols)
                           rows cols) - 1 + k)%nat)
    ∧ fair w'
    ∧ (excludePosition = None →
       length (freeCells (exclusionSet excludePosition rows cols) rows cols)
       = (Z.to_nat rows * Z.to_nat cols)%nat).
Proof.
  intros Hfair.
  destruct (generateMinePositions_cut rows cols excludePosition w Hfair)
    as (a & _ & E).
  eexists _, _. split; [exact (E mineCount)|]. split; [reflexivity|].
  split; [reflexivity|]. split.
  - intros k. apply Hfair.
  - intros ->. apply length_freeCells_none. intros k. apply not_elem_of_empty.
Qed.

Lemma generateMinePositions_draws_witness :
  fair still_world
  ∧ ∃ ps w',
      generateMinePositions 9 9 10 (Some (mkPos 4 4)) still_world = Ret (ps, w')
      ∧ heap w' = heap still_world
      ∧ (∀ k, entropy w' k
              = entropy still_world
                  (length (freeCells (exclusionSet (Some (mkPos 4 4)) 9 9) 9 9)
                   - 1 + k)%nat)
      ∧ fair w'
      ∧ (Some (mkPos 4 4) = None →
         length (freeCells (exclusionSet (Some (mkPos 4 4)) 9 9) 9 9)
         = (Z.to_nat 9 * Z.to_nat 9)%nat).
Proof.
  split; [exact fair_still_world|].
  apply (generateMinePositions_draws still_world 9 9 10 (Some (mkPos 4 4))).
  exact fair_still_world.
Defined.

Lemma slice0_prefix {A} (a : list A) (n m : Z) :
  0 ≤ n ≤ m → slice0 a n `prefix_of` slice0 a m.
Proof.
  intros Hnm. unfold slice0.
  rewrite !(proj2 (Z.ltb_ge _ 0)) by lia.
  set (k := Z.to_nat (Z.min n (Z.of_nat (length a)))).
  set (k' := Z.to_nat (Z.min m (Z.of_nat (length a)))).
  replace (take k a) with (take k (take k' a)); [apply prefix_take|].
  rewrite take_take. f_equal. lia.
Qed.

(** X21 [generateMinePositions]: asking for more mines extends the answer.
    From the same random source, the positions returned for [mineCount] are
    the first ones of the positions returned for any larger count, and both
    calls leave the random source in the same state. *)
Theorem generateMinePositions_prefix (w : World) (rows cols m m' : Z)
    (excludePosition : option Position) :
  fair w → 0 ≤ m → m ≤ m' →
  ∃ ps ps' w',
    generateMinePositions rows cols m excludePosition w = Ret (ps, w')
    ∧ generateMinePositions rows cols m' excludePosition w = Ret (ps', w')
    ∧ ps `prefix_of` ps'.
Proof.
  intros Hfair Hm Hmm'.
  destruct (generateMinePositions_cut rows cols excludePosition w Hfair)
    as (a & _ & E).
  eexists _, _, _. split; [exact (E m)|]. split; [exact (E m')|].
  set (av := rows * cols - Z.of_nat (size (exclusionSet excludePosition rows cols))).
  destruct (decide (av < 0)) as [Hneg|Hpos].
  - rewrite !Z.min_r by lia. reflexivity.
  - apply slice0_prefix. lia.
Qed.

Lemma generateMinePositions_prefix_witness :
  fair still_world ∧ 0 ≤ 3 ∧ 3 ≤ 10
  ∧ ∃ ps ps' w',
      generateMinePositions 9 9 3 None still_world = Ret (ps, w')
      ∧ generateMinePositions 9 9 10 None still_world = Ret (ps', w')
      ∧ ps `prefix_of` ps'.
Proof.
  split; [exact fair_still_world|]. split; [lia|]. split; [lia|].
  apply (generateMinePositions_prefix still_world 9 9 3 10 None);
    [exact fair_still_world | lia | lia].
Defined.

Lemma exclusionSet_in_grid excl rows cols :
  match excl with
  | Some p => isValidPosition (row p) (col p) rows cols = true
  | None => True
  end →
  exclusionSet excl rows cols ⊆ gridSet rows cols.
Proof.
  destruct excl as [p|]; unfold exclusionSet; [|intros _; apply empty_subseteq].
  intros Hp k Hk. apply elem_of_gridSet.
  apply elem_of_union in Hk as [Hk|Hk].
  - apply elem_of_singleton in Hk as ->. exact Hp.
  - apply elem_of_list_to_set, list_elem_of_fmap in Hk as (n & -> & Hn).
    exact (getNeighbors_valid _ _ _ _ _ Hn).
Qed.

(** X22 [generateMinePositions]: a count as large as the room.  For
    non-negative [rows] and [cols], no excluded position or one inside the
    grid, and a [mineCount] of at least [rows*cols - |exclusionSet|], the
    call returns every cell outside the exclusion set, each once: a position
    is returned exactly when it is in bounds and not excluded. *)
Theorem generateMinePositions_saturated (w : World) (rows cols mineCount : Z)
    (excludePosition : option Position) :
  fair w → 0 ≤ rows → 0 ≤ cols →
  match excludePosition with
  | Some p => isValidPosition (row p) (col p) rows cols = true
  | None => True
  end →
  rows * cols - Z.of_nat (size (exclusionSet excludePosition rows cols)) ≤ mineCount →
  ∃ ps w',
    generateMinePositions rows cols mineCount excludePosition w = Ret (ps, w')
    ∧ NoDup ps
    ∧ Z.of_nat (length ps)
      = rows * cols - Z.of_nat (size (exclusionSet excludePosition rows cols))
    ∧ ∀ p, p ∈ ps ↔
        isValidPosition (row p) (col p) rows cols = true
        ∧ key p ∉ exclusionSet excludePosition rows cols.
Proof.
  intros Hfair Hrows Hcols Hexcl Hmc.
  destruct (generateMinePositions_cut rows cols excludePosition w Hfair)
    as (a & Hperm & E).
  set (X := exclusionSet excludePosition rows cols) in *.
  assert (Hsize : Z.of_nat (length a) = rows * cols - Z.of_nat (size X)).
  { rewrite (Permutation_length Hperm), length_freeCells.
    pose proof (exclusionSet_in_grid excludePosition rows cols Hexcl) as Hsub.
    fold X in Hsub. rewrite (size_difference _ _ Hsub).
    pose proof (subseteq_size _ _ Hsub). rewrite size_gridSet in *. lia. }
  assert (Hall : slice0 a (Z.min mineCount (rows * cols - Z.of_nat (size X))) = a).
  { unfold slice0. rewrite Z.min_r by exact Hmc. rewrite <- Hsize.
    rewrite (proj2 (Z.ltb_ge _ 0)) by lia. rewrite Z.min_id, Nat2Z.id.
    apply take_ge. lia. }
  eexists _, _. split; [exact (E mineCount)|]. rewrite Hall.
  split; [rewrite Hperm; apply NoDup_freeCells|]. split; [exact Hsize|].
  intros p. rewrite Hperm. apply elem_of_freeCells.
Qed.

Lemma generateMinePositions_saturated_witness :
  fair still_world ∧ 0 ≤ 4 ∧ 0 ≤ 4
  ∧ isValidPosition 0 0 4 4 = true
  ∧ 4 * 4 - Z.of_nat (size (exclusionSet (Some (mkPos 0 0)) 4 4)) ≤ 12
  ∧ ∃ ps w',
      generateMinePositions 4 4 12 (Some (mkPos 0 0)) still_world = Ret (ps, w')
      ∧ NoDup ps
      ∧ Z.of_nat (length ps)
        = 4 * 4 - Z.of_nat (size (exclusionSet (Some (mkPos 0 0)) 4 4))
      ∧ ∀ p, p ∈ ps ↔
          isValidPosition (row p) (col p) 4 4 = true
          ∧ key p ∉ exclusionSet (Some (mkPos 0 0)) 4 4.
Proof.
  assert (H : 4 * 4 - Z.of_nat (size (exclusionSet (Some (mkPos 0 0)) 4 4)) ≤ 12)
    by (vm_compute; discriminate).
  split; [exact fair_still_world|]. split; [lia|]. split; [lia|].
  split; [reflexivity|]. split; [exact H|].
  apply (generateMinePositions_saturated still_world 4 4 12 (Some (mkPos 0 0)));
    [exact fair_still_world | lia | lia | reflexivity | exact H].
Defined.

(** * The application component *)

Lemma emptyBoard_shaped R C :
  shaped R C (replicate (Z.to_nat R) (replicate (Z.to_nat C) createEmptyCell)).
Proof.
  split; [apply length_replicate|].
  apply Forall_forall. intros rw [-> _]%elem_of_replicate. apply length_replicate.
Qed.

Lemma emptyBoard_correctCounts R C :
  correctCounts (replicate (Z.to_nat R) (replicate (Z.to_nat C) createEmptyCell)).
Proof.
  set (E := replicate (Z.to_nat R) (replicate (Z.to_nat C) createEmptyCell)).
  assert (HE : rectangular E) by apply replicate_rectangular.
  assert (Hcells : ∀ r c cell, cellAt E r c = Some cell → cell = createEmptyCell).
  { intros r c cell Hcell. unfold E in Hcell. rewrite emptyBoard_cellAt in Hcell.
    destruct (isValidPosition r c R C); congruence. }
  intros r c cell Hcell _. exists 0. split.
  - apply (countAdjacentMines_no_mines E (mkPos r c) HE).
    + exact (cellAt_valid E r c cell HE Hcell).
    + intros n x _ Hx. rewrite (Hcells _ _ _ Hx). discriminate.
  - rewrite (Hcells _ _ _ Hcell). reflexivity.
Qed.

Lemma emptyBoard_sound config w b :
  fair w →
  heap w !! b = Some (replicate (Z.to_nat (rows config))
                        (replicate (Z.to_nat (cols config)) createEmptyCell)) →
  sound config (mkApp b idle true) w.
Proof.
  intros Hfair Hb. split; [exact Hfair|]. eexists. split; [exact Hb|].
  split; [apply emptyBoard_shaped|]. split; [apply emptyBoard_correctCounts|].
  split; reflexivity.
Qed.

(** The checks at the end of [handleCellReveal], once the board of the
    click is there. *)
Lemma handleCellReveal_settles config s r c w b1 s1 w1 B1 :
  gameStatus s = idle ∨ gameStatus s = playing →
  (if isFirstClick s then
     newBoard ← createBoard config (Some (mkPos r c));
     newBoard ← revealCell newBoard r c;
     mret (newBoard, mkApp (board s) playing false)
   else
     newBoard ← revealCell (board s) r c;
     mret (newBoard, s)) w = Ret ((b1, s1), w1) →
  heap w1 !! b1 = Some B1 →
  handleCellReveal config s r c w =
  if checkGameLost B1
  then Ret (mkApp (length (heap w1)) lost (isFirstClick s1),
            set_heap w1 (heap w1 ++ [map (map revealMine) B1]))
  else if checkGameWon B1 then Ret (mkApp b1 won (isFirstClick s1), w1)
  else Ret (mkApp b1 (gameStatus s1) (isFirstClick s1), w1).
Proof.
  intros Hst Hpart Hb1. unfold handleCellReveal.
  assert (E : ∀ k : (nat * AppState) → M AppState,
            (p ← (if isFirstClick s then
                    newBoard ← createBoard config (Some (mkPos r c));
                    newBoard ← revealCell newBoard r c;
                    mret (newBoard, mkApp (board s) playing false)
                  else
                    newBoard ← revealCell (board s) r c;
                    mret (newBoard, s)); k p) w = k (b1, s1) w1).
  { intros k. exact (bind_ret _ k _ _ _ Hpart). }
  destruct Hst as [-> | ->]; rewrite E; cbn [fst snd];
    rewrite (bind_ret _ _ _ _ _ (deref_run _ _ _ Hb1));
    (destruct (checkGameLost B1);
     [rewrite (bind_ret _ _ _ _ _ (revealAllMines_run _ _ _ Hb1)); reflexivity|]);
    destruct (checkGameWon B1); reflexivity.
Qed.



(** A click in a game that is on: what the handler returns. *)
Lemma handleCellReveal_on config s r c w :
  0 ≤ rows config → 0 ≤ cols config → 0 ≤ mineCount config →
  sound config s w → gameStatus s = idle ∨ gameStatus s = playing →
  ∃ b1 w1 B1,
    heap w1 !! b1 = Some B1 ∧ fair w1
    ∧ shaped (rows config) (cols config) B1 ∧ correctCounts B1
    ∧ handleCellReveal config s r c w
      = Ret (if checkGameLost B1 then mkApp (length (heap w1)) lost false
             else if checkGameWon B1 then mkApp b1 won false
             else mkApp b1 playing false,
             if checkGameLost B1
             then set_heap w1 (heap w1 ++ [map (map revealMine) B1])
             else w1)
    ∧ (gameStatus s = idle →
       checkGameLost B1 = false
       ∧ (isValidPosition r c (rows config) (cols config) = true →
          ∀ q, q = mkPos r c ∨ q ∈ getNeighbors r c (rows config) (cols config) →
            ∃ cell, cellOf B1 q = Some cell
                    ∧ isRevealed cell = true ∧ content cell ≠ mine))
    ∧ (gameStatus s = playing →
       ∃ B, heap w !! board s = Some B
            ∧ revealV (S (hiddenCells B)) B r c = Ret B1).
Proof.
  intros HR HC Hmc (Hfair & B & Hb & HS & HCC & Hst) Hon.
  destruct config as [R C mc]. simpl in *.
  destruct Hon as [Hidle|Hplay].
  - rewrite Hidle in Hst. destruct Hst as [Hfirst _].
    destruct (first_click_run w R C mc (mkPos r c) Hfair HR HC Hmc)
      as (b1 & w1 & B1 & E & Hb1 & Hfair1 & HS1 & HC1 & Hnl & Hzone).
    cbn [row col] in E, Hzone.
    exists b1, w1, B1. split; [exact Hb1|]. split; [exact Hfair1|].
    split; [exact HS1|]. split; [exact HC1|]. split.
    + rewrite (handleCellReveal_settles (mkConfig R C mc) s r c w b1
                 (mkApp (board s) playing false) w1 B1 (or_introl Hidle));
        [| |exact Hb1].
      * simpl. destruct (checkGameLost B1); [reflexivity|].
        destruct (checkGameWon B1); reflexivity.
      * rewrite Hfirst. cbv iota. rewrite bind_run. rewrite bind_run in E.
        destruct (createBoard (mkConfig R C mc) (Some (mkPos r c)) w)
          as [[b0 w0]| |]; try discriminate E.
        rewrite (bind_ret _ _ _ _ _ E). reflexivity.
    + split; [intros _; split; assumption|].
      intros Hp. rewrite Hidle in Hp. discriminate.
  - rewrite Hplay in Hst. destruct Hst as (Hfirst & Hnl & Hnw).
    pose proof (shaped_rectangular _ _ _ HS) as HB.
    pose proof (revealCell_run w _ B r c Hb) as Hrun.
    destruct (revealCell (board s) r c w) as [[b1 w1]| |] eqn:E;
      [|contradiction|contradiction].
    destruct Hrun as (B1 & hs & -> & Hb1 & EV & _).
    pose proof (revealV_grows _ _ _ _ _ EV) as Hg.
    exists b1, (set_heap w (heap w ++ hs)), B1.
    split; [exact Hb1|]. split; [exact Hfair|].
    split; [exact (cellwise_shaped _ _ _ _ _ Hg HS)|].
    split; [exact (grows_correctCounts _ _ Hg HCC)|]. split.
    + rewrite (handleCellReveal_settles (mkConfig R C mc) s r c w b1 s
                 (set_heap w (heap w ++ hs)) B1 (or_intror Hplay));
        [| |exact Hb1].
      * rewrite Hfirst, Hplay. destruct (checkGameLost B1); [reflexivity|].
        destruct (checkGameWon B1); reflexivity.
      * rewrite Hfirst. cbv iota. rewrite (bind_ret _ _ _ _ _ E). reflexivity.
    + split; [intros Hi; rewrite Hplay in Hi; discriminate|].
      intros _. exists B. split; [exact Hb | exact EV].
Qed.







(** X24 [handleCellReveal]: the first click of a game.  In the idle state
    of a session a click at any position starts the game on a board that is
    not lost: the status after it is playing or won, never lost, and
    [isFirstClick] is off; when the position is on the board, the clicked
    cell and all its neighbors are revealed and none of them is a mine. *)
Theorem first_reveal_never_loses (config : GameConfig) (s : AppState)
    (r c : Z) (w : World) :
  0 ≤ rows config → 0 ≤ cols config → 0 ≤ mineCount config →
  sound config s w → gameStatus s = idle →
  ∃ s' w' B',
    handleCellReveal config s r c w = Ret (s', w')
    ∧ heap w' !! board s' = Some B'
    ∧ (gameStatus s' = playing ∨ gameStatus s' = won)
    ∧ isFirstClick s' = false
    ∧ checkGameLost B' = false
    ∧ (isValidPosition r c (rows config) (cols config) = true →
       ∀ q, q = mkPos r c ∨ q ∈ getNeighbors r c (rows config) (cols config) →
         ∃ cell, cellOf B' q = Some cell
                 ∧ isRevealed cell = true ∧ content cell ≠ mine).
Proof.
  intros HR HC Hmc Hs Hidle.
  destruct (handleCellReveal_on config s r c w HR HC Hmc Hs (or_introl Hidle))
    as (b1 & w1 & B1 & Hb1 & _ & _ & _ & E & Hfirst & _).
  destruct (Hfirst Hidle) as [Hnl Hzone]. rewrite Hnl in E.
  eexists _, _, B1. split; [exact E|].
  destruct (checkGameWon B1); simpl; auto 10.
Qed.

Lemma first_reveal_never_loses_witness :
  0 ≤ rows DEFAULT_CONFIG ∧ 0 ≤ cols DEFAULT_CONFIG ∧ 0 ≤ mineCount DEFAULT_CONFIG
  ∧ sound DEFAULT_CONFIG (mkApp 0%nat idle true)
      (mkWorld [replicate 9 (replicate 9 createEmptyCell)] (λ _, 0%Q))
  ∧ gameStatus (mkApp 0%nat idle true) = idle
  ∧ ∃ s' w' B',
      handleCellReveal DEFAULT_CONFIG (mkApp 0%nat idle true) 4 4
        (mkWorld [replicate 9 (replicate 9 createEmptyCell)] (λ _, 0%Q))
      = Ret (s', w')
      ∧ heap w' !! board s' = Some B'
      ∧ (gameStatus s' = playing ∨ gameStatus s' = won)
      ∧ isFirstClick s' = false
      ∧ checkGameLost B' = false
      ∧ (isValidPosition 4 4 (rows DEFAULT_CONFIG) (cols DEFAULT_CONFIG) = true →
         ∀ q, q = mkPos 4 4
              ∨ q ∈ getNeighbors 4 4 (rows DEFAULT_CONFIG) (cols DEFAULT_CONFIG) →
           ∃ cell, cellOf B' q = Some cell
                   ∧ isRevealed cell = true ∧ content cell ≠ mine).
Proof.
  assert (Hs : sound DEFAULT_CONFIG (mkApp 0%nat idle true)
                 (mkWorld [replicate 9 (replicate 9 createEmptyCell)] (λ _, 0%Q))).
  { apply (emptyBoard_sound DEFAULT_CONFIG); [|reflexivity].
    intros k. simpl. split; [apply Qle_refl | reflexivity]. }
  split; [simpl; lia|]. split; [simpl; lia|]. split; [simpl; lia|].
  split; [exact Hs|]. split; [reflexivity|].
  apply (first_reveal_never_loses DEFAULT_CONFIG (mkApp 0%nat idle true) 4 4);
    [simpl; lia | simpl; lia | simpl; lia | exact Hs | reflexivity].
Defined.

(** X25 [handleCellReveal], [revealCell], [checkGameLost]: how a game is
    lost.  In a game that is on, a click ends the game as lost exactly when
    the clicked cell is a mine that is neither revealed nor flagged; no
    other click loses, whatever the flood fill reveals. *)
Theorem reveal_loses_on_mine (config : GameConfig) (s : AppState)
    (r c : Z) (w : World) (B : Board) :
  0 ≤ rows config → 0 ≤ cols config → 0 ≤ mineCount config →
  sound config s w → gameStatus s = playing → heap w !! board s = Some B →
  ∃ s' w',
    handleCellReveal config s r c w = Ret (s', w')
    ∧ (gameStatus s' = lost ↔
       ∃ cell, cellAt B r c = Some cell ∧ content cell = mine
               ∧ isRevealed cell = false ∧ isFlagged cell = false).
Proof.
  intros HR HC Hmc Hs Hplay Hb.
  destruct (handleCellReveal_on config s r c w HR HC Hmc Hs (or_intror Hplay))
    as (b1 & w1 & B1 & Hb1 & _ & _ & _ & E & _ & Hrev).
  destruct (Hrev Hplay) as (B0 & Hb0 & EV).
  assert (B0 = B) as -> by congruence.
  destruct Hs as (_ & B0 & Hb0' & HS & HCC & Hst).
  assert (B0 = B) as -> by congruence.
  rewrite Hplay in Hst. destruct Hst as (_ & Hnl & _).
  pose proof (shaped_rectangular _ _ _ HS) as HB.
  eexists _, _. split; [exact E|].
  assert (Hlost : checkGameLost B1 = true ↔
            ∃ cell, cellAt B r c = Some cell ∧ content cell = mine
                    ∧ isRevealed cell = false ∧ isFlagged cell = false).
  { split.
    - intros Hl.
      pose proof EV as [[_ ->]|(fuel' & cell & _ & _ & Hcell & Hf & Hr & _)]%revealV_inv;
        [congruence|].
      exists cell. split; [exact Hcell|]. split; [|auto].
      destruct (decide (content cell = mine)) as [Hm|Hm]; [exact Hm|]. exfalso.
      assert (checkGameLost B1 = false); [|congruence].
      eapply revealV_not_lost; try eassumption.
      intros cell' Hcell'. congruence.
    - intros (cell & Hcell & Hm & Hr & Hf).
      pose proof (stays_open B r c cell (cellAt_valid B r c cell HB Hcell)
                    Hcell Hf Hr) as Hopen.
      pose proof EV as [[Hstay _]|(fuel' & cell' & _ & _ & Hcell' & _ & _ & Hres)]%revealV_inv;
        [congruence|].
      assert (cell' = cell) as -> by congruence.
      rewrite (bool_decide_eq_true_2 _ Hm) in Hres. simpl in Hres. subst B1.
      apply checkGameLost_true. eexists r, c, _.
      split; [exact (cellAt_setCell_eq B r c _ cell Hcell)|]. split; [exact Hm|].
      reflexivity. }
  rewrite <- Hlost. destruct (checkGameLost B1); [simpl; tauto|].
  destruct (checkGameWon B1); simpl; split; intros; discriminate.
Qed.

Lemma reveal_loses_on_mine_witness :
  0 ≤ 3 ∧ 0 ≤ 3 ∧ 0 ≤ 1
  ∧ sound (mkConfig 3 3 1) (mkApp 0%nat playing false) corner_mine_world
  ∧ gameStatus (mkApp 0%nat playing false) = playing
  ∧ heap corner_mine_world !! board (mkApp 0%nat playing false) = Some corner_mine
  ∧ ∃ s' w',
      handleCellReveal (mkConfig 3 3 1) (mkApp 0%nat playing false) 0 0
        corner_mine_world = Ret (s', w')
      ∧ (gameStatus s' = lost ↔
         ∃ cell, cellAt corner_mine 0 0 = Some cell ∧ content cell = mine
                 ∧ isRevealed cell = false ∧ isFlagged cell = false).
Proof.
  assert (Hs : sound (mkConfig 3 3 1) (mkApp 0%nat playing false) corner_mine_world).
  { split; [intros k; simpl; split; [apply Qle_refl | reflexivity]|].
    exists corner_mine. split; [reflexivity|].
    split; [split; [reflexivity | repeat constructor]|].
    split; [exact correctCounts_corner_mine|]. simpl. auto. }
  split; [lia|]. split; [lia|]. split; [lia|]. split; [exact Hs|].
  split; [reflexivity|]. split; [reflexivity|].
  apply (reveal_loses_on_mine (mkConfig 3 3 1) (mkApp 0%nat playing false) 0 0
           corner_mine_world corner_mine);
    [simpl; lia | simpl; lia | simpl; lia | exact Hs | reflexivity | reflexivity].
Defined.

(** X26 [handleCellReveal], [handleCellFlag]: a game that is over stays as
    it is.  Once the status is won or lost, no sequence of clicks and right
    clicks changes the state or the store. *)
Theorem game_over_final (config : GameConfig) (s : AppState) (es : list Event)
    (w : World) :
  gameStatus s = won ∨ gameStatus s = lost →
  Forall (λ e, e ≠ NewGame) es →
  foldM (dispatch config) s es w = Ret (s, w).
Proof.
  intros Hover Hes. induction Hes as [|e es He _ IH]; [reflexivity|].
  cbn [foldM].
  assert (E : dispatch config s e w = Ret (s, w)).
  { destruct e as [r c|r c|]; [| |contradiction]; simpl;
      [unfold handleCellReveal | unfold handleCellFlag];
      destruct Hover as [-> | ->]; reflexivity. }
  rewrite (bind_ret _ _ _ _ _ E). exact IH.
Qed.

Lemma game_over_final_witness :
  (gameStatus (mkApp 0%nat lost false) = won
   ∨ gameStatus (mkApp 0%nat lost false) = lost)
  ∧ Forall (λ e, e ≠ NewGame) [Reveal 0 0; Flag 1 1]
  ∧ foldM (dispatch DEFAULT_CONFIG) (mkApp 0%nat lost false)
      [Reveal 0 0; Flag 1 1] still_world
    = Ret (mkApp 0%nat lost false, still_world).
Proof.
  assert (H : Forall (λ e, e ≠ NewGame) [Reveal 0 0; Flag 1 1])
    by (repeat constructor; discriminate).
  split; [right; reflexivity|]. split; [exact H|].
  apply (game_over_final DEFAULT_CONFIG (mkApp 0%nat lost false)
           [Reveal 0 0; Flag 1 1] still_world); [right; reflexivity | exact H].
Defined.
